(** * A byte-level BPE tokenizer: [bpe/base.py] and [bpe/regex.py]

    Shallow embedding of the tokenizer and the properties its
    specification states about it.  Python values are modelled as follows:
    - [int] as [Z]; a [str] as the list of its code points; a [bytes] object
      as the list of its byte values (each in [0, 256));
    - a [dict] as an association list kept in insertion order, with
      Python's update rule (an existing key keeps its place);
    - an exception as the [Raise] outcome of a [result];
    - a [list] object that is built by mutation as a cell of a heap, where
      the specification speaks of mutation ([merge]);
    - the [regex] library by the parser and the backtracking matcher of the
      constructs the two split patterns are written in, over the library's
      Unicode tables, which are a parameter. *)

From Stdlib Require Import ZArith Lia Ascii String DecimalString DecimalPos
  HexadecimalString.
From stdpp Require Import base option list gmap.

Local Open Scope Z_scope.

(** ** Python outcomes *)

Module Py.

(** The exceptions the code raises.  [RegexError] is the library's
    [regex.error]; [Unmodelled] is no exception: it is the outcome of a
    library call on an argument outside what is modelled of the library. *)
Inductive exn : Set :=
| AssertionError
| AttributeError
| KeyError
| NameError
| ValueError
| UnicodeEncodeError
| FileNotFoundError
| RegexError
| Unmodelled.

Inductive result (A : Type) : Type :=
| Ok (a : A)
| Raise (e : exn).
Arguments Ok {A} a.
Arguments Raise {A} e.

Definition bind {A B} (m : result A) (f : A -> result B) : result B :=
  match m with
  | Ok a => f a
  | Raise e => Raise e
  end.

(** [for x in xs: acc = body(acc, x)] where the body may raise. *)
Fixpoint for_each {A S} (xs : list A) (body : S -> A -> result S) (acc : S)
  : result S :=
  match xs with
  | [] => Ok acc
  | x :: xs' => bind (body acc x) (for_each xs' body)
  end.

(** *** Dictionaries: insertion-ordered association lists *)

Section Dict.
Context {K V : Type} `{EqDecision K}.

(** [d.get(k)] *)
Fixpoint dget (d : list (K * V)) (k : K) : option V :=
  match d with
  | [] => None
  | (k', v) :: d' => if decide (k = k') then Some v else dget d' k
  end.

(** [d[k] = v]: an existing key keeps its position, a new one goes last. *)
Fixpoint dset (d : list (K * V)) (k : K) (v : V) : list (K * V) :=
  match d with
  | [] => [(k, v)]
  | (k', v') :: d' =>
      if decide (k = k') then (k', v) :: d' else (k', v') :: dset d' k v
  end.

(** [k in d] *)
Definition dmem (d : list (K * V)) (k : K) : bool :=
  match dget d k with Some _ => true | None => false end.

(** [d[k]], which raises [KeyError] on a missing key. *)
Definition dindex (d : list (K * V)) (k : K) : result V :=
  match dget d k with Some v => Ok v | None => Raise KeyError end.

Definition dkeys (d : list (K * V)) : list K := map fst d.
End Dict.

(** *** [min] and [max] with a key function

    Both return the first extremal element in iteration order and raise
    [ValueError] on an empty iterable.  A key is an [int] or [float("inf")],
    the latter modelled by [None]. *)

Definition key_lt (x y : option Z) : bool :=
  match x, y with
  | Some a, Some b => a <? b
  | Some _, None => true
  | None, _ => false
  end.

Definition py_min {A} (xs : list A) (key : A -> option Z) : result A :=
  match xs with
  | [] => Raise ValueError
  | x :: xs' =>
      Ok (fold_left (fun best y => if key_lt (key y) (key best) then y else best)
                    xs' x)
  end.

Definition py_max {A} (xs : list A) (key : A -> option Z) : result A :=
  match xs with
  | [] => Raise ValueError
  | x :: xs' =>
      Ok (fold_left (fun best y => if key_lt (key best) (key y) then y else best)
                    xs' x)
  end.

End Py.
Export Py.

Notation "'let!' x ':=' m 'in' k" := (bind m (fun x => k))
  (at level 10, x name, m at level 100, k at level 200,
   format "'[v' 'let!'  x  ':='  m  'in' '/' k ']'").
Notation "'let!' ' p ':=' m 'in' k" :=
  (bind m (fun x => match x with p => k end))
  (at level 10, p pattern, m at level 100, k at level 200).

(** ** Text and bytes *)

Abbreviation text := (list Z) (only parsing).
Abbreviation bytes := (list Z) (only parsing).

(** An ASCII literal of the source as a [str]. *)
Definition str (s : string) : text :=
  map (fun c => Z.of_N (N_of_ascii c)) (list_ascii_of_string s).

(** [p in s] for two strings: [p] occurs in [s] as a substring. *)
Fixpoint startswith (s p : text) : bool :=
  match p, s with
  | [], _ => true
  | _ :: _, [] => false
  | c :: p', d :: s' => (c =? d) && startswith s' p'
  end.

Fixpoint contains (s p : text) : bool :=
  startswith s p || match s with [] => false | _ :: s' => contains s' p end.

(** *** The UTF-8 codec

    [s.encode("utf-8")] raises [UnicodeEncodeError] on a lone surrogate; a
    value outside [0, 0x10FFFF] is no code point of a [str] and is given the
    same outcome. *)

Definition utf8_encode_cp (c : Z) : result bytes :=
  if (0 <=? c) && (c <? 0x80) then Ok [c]
  else if (0x80 <=? c) && (c <? 0x800) then
    Ok [0xC0 + c / 64; 0x80 + c mod 64]
  else if (0x800 <=? c) && (c <? 0x10000) then
    if (0xD800 <=? c) && (c <=? 0xDFFF) then Raise UnicodeEncodeError
    else Ok [0xE0 + c / 4096; 0x80 + (c / 64) mod 64; 0x80 + c mod 64]
  else if (0x10000 <=? c) && (c <=? 0x10FFFF) then
    Ok [0xF0 + c / 262144; 0x80 + (c / 4096) mod 64;
        0x80 + (c / 64) mod 64; 0x80 + c mod 64]
  else Raise UnicodeEncodeError.

Fixpoint str_encode (s : text) : result bytes :=
  match s with
  | [] => Ok []
  | c :: s' =>
      let! b := utf8_encode_cp c in
      let! bs := str_encode s' in
      Ok (b ++ bs)
  end.

Definition between (lo b hi : Z) : bool := (lo <=? b) && (b <=? hi).

(** The range of the second byte after the lead byte [b0] of a three- or
    four-byte sequence (no overlong forms, no surrogates, nothing above
    U+10FFFF). *)
Definition second_ok (b0 b1 : Z) : bool :=
  if b0 =? 0xE0 then between 0xA0 b1 0xBF
  else if b0 =? 0xED then between 0x80 b1 0x9F
  else if b0 =? 0xF0 then between 0x90 b1 0xBF
  else if b0 =? 0xF4 then between 0x80 b1 0x8F
  else between 0x80 b1 0xBF.

(** [b.decode("utf-8", errors="replace")]: every maximal ill-formed
    subsequence becomes one U+FFFD and decoding resumes at the byte that
    broke it. *)
Fixpoint bytes_decode (bs : bytes) : text :=
  match bs with
  | [] => []
  | b0 :: r0 =>
      if b0 <? 0x80 then b0 :: bytes_decode r0
      else if between 0xC2 b0 0xDF then
        match r0 with
        | b1 :: r1 =>
            if between 0x80 b1 0xBF
            then ((b0 - 0xC0) * 64 + (b1 - 0x80)) :: bytes_decode r1
            else 0xFFFD :: bytes_decode r0
        | [] => [0xFFFD]
        end
      else if between 0xE0 b0 0xEF then
        match r0 with
        | b1 :: r1 =>
            if second_ok b0 b1 then
              match r1 with
              | b2 :: r2 =>
                  if between 0x80 b2 0xBF
                  then ((b0 - 0xE0) * 4096 + (b1 - 0x80) * 64 + (b2 - 0x80))
                         :: bytes_decode r2
                  else 0xFFFD :: bytes_decode r1
              | [] => [0xFFFD]
              end
            else 0xFFFD :: bytes_decode r0
        | [] => [0xFFFD]
        end
      else if between 0xF0 b0 0xF4 then
        match r0 with
        | b1 :: r1 =>
            if second_ok b0 b1 then
              match r1 with
              | b2 :: r2 =>
                  if between 0x80 b2 0xBF then
                    match r2 with
                    | b3 :: r3 =>
                        if between 0x80 b3 0xBF
                        then ((b0 - 0xF0) * 262144 + (b1 - 0x80) * 4096
                              + (b2 - 0x80) * 64 + (b3 - 0x80))
                               :: bytes_decode r3
                        else 0xFFFD :: bytes_decode r2
                    | [] => [0xFFFD]
                    end
                  else 0xFFFD :: bytes_decode r1
              | [] => [0xFFFD]
              end
            else 0xFFFD :: bytes_decode r0
        | [] => [0xFFFD]
        end
      else 0xFFFD :: bytes_decode r0
  end.

(** [f"{n}"] for an [int]. *)
Definition int_to_str (n : Z) : text :=
  str (DecimalString.NilZero.string_of_int (Z.to_int n)).

(** [c.isspace()] *)
Definition isspace (c : Z) : bool :=
  between 9 c 13 || between 28 c 32 || (c =? 0x85) || (c =? 0xA0)
  || (c =? 0x1680) || between 0x2000 c 0x200A || (c =? 0x2028)
  || (c =? 0x2029) || (c =? 0x202F) || (c =? 0x205F) || (c =? 0x3000).

Fixpoint lstrip (s : text) : text :=
  match s with
  | c :: s' => if isspace c then lstrip s' else s
  | [] => []
  end.

(** [s.strip()] *)
Definition strip (s : text) : text := reverse (lstrip (reverse (lstrip s))).

(** [s.split()]: the fields between runs of white space; [cur] is the
    field being read. *)
Fixpoint split_fields (s : text) (cur : text) : list text :=
  match s with
  | [] => match cur with [] => [] | _ => [cur] end
  | c :: s' =>
      if isspace c
      then match cur with
           | [] => split_fields s' []
           | _ => cur :: split_fields s' []
           end
      else split_fields s' (cur ++ [c])
  end.

Definition split (s : text) : list text := split_fields s [].

(** [s.endswith(suffix)] *)
Definition endswith (s suffix : text) : bool :=
  bool_decide (drop (length s - length suffix) s = suffix).

(** The value of a run of ASCII digits. *)
Fixpoint digits_value (s : text) (acc : Z) : option Z :=
  match s with
  | [] => Some acc
  | c :: s' =>
      if between 48 c 57 then digits_value s' (10 * acc + (c - 48)) else None
  end.

(** [int(s)] for a string without white space around it: a sign and ASCII
    digits.  Python also reads digits of other scripts and underscores
    between digits; a string with such a code point is [Unmodelled]. *)
Definition py_int (s : text) : result Z :=
  let '(sign, body) :=
    match s with
    | c :: s' =>
        if c =? 45 then (-1, s') else if c =? 43 then (1, s') else (1, s)
    | [] => (1, s)
    end in
  match body, digits_value body 0 with
  | _ :: _, Some n => Ok (sign * n)
  | _, _ =>
      if existsb (fun c => (c =? 95) || (128 <=? c)) s
      then Raise Unmodelled else Raise ValueError
  end.

(** The lines of a text file read in text mode: a line ends with its line
    feed, and a carriage return, with the line feed after it if there is
    one, is read as a line feed.  [after_cr] tells that the code point
    before was a carriage return. *)
Fixpoint readlines (s : text) (cur : text) (after_cr : bool) : list text :=
  match s with
  | [] => match cur with [] => [] | _ => [cur] end
  | c :: s' =>
      if after_cr && (c =? 10) then readlines s' cur false
      else if c =? 10 then (cur ++ [10]) :: readlines s' [] false
      else if c =? 13 then (cur ++ [10]) :: readlines s' [] true
      else readlines s' (cur ++ [c]) false
  end.

(** [f.readline()] on the lines still to read: the empty string at the end
    of the file. *)
Definition readline (lines : list text) : text * list text :=
  match lines with
  | [] => ([], [])
  | l :: lines' => (l, lines')
  end.

(** ** The regex library

    The library is not part of the repository; what follows models the part
    of it the tokenizer relies on. *)

(** A compiled pattern, kept as what the tokenizer uses of it: the list
    [re.findall] returns for a text (the patterns have no capture group, so
    these are the matches, in order). *)
Record Pattern : Type := { findall : text -> list text }.

(** The Unicode tables of the library: the code points of a property
    ([\p{L}], [\p{N}]), the white space of [\s], and the case variants of a
    code point (itself among them). *)
Record tables : Type := {
  property : text -> Z -> bool;
  space : Z -> bool;
  variants : Z -> list Z;
}.

Inductive charclass : Type :=
| NoChar
| Chr (c : Z)
| Range (lo hi : Z)
| Space
| Property (name : text)
| Not (c : charclass)
| Either (c1 c2 : charclass).

Inductive quantifier : Set := Greedy | Lazy | Possessive.

(** The patterns: a code point of a class (under the flag [i] or not),
    sequence, ordered choice, repetition [r{lo,hi}] and lookahead. *)
Inductive regex : Type :=
| Eps
| Cls (icase : bool) (c : charclass)
| Cat (r1 r2 : regex)
| Alt (r1 r2 : regex)
| Rep (r : regex) (lo : nat) (hi : option nat) (q : quantifier)
| Ahead (positive : bool) (r : regex).

Definition Opt (r : regex) : regex := Rep r 0 (Some 1%nat) Greedy.
Definition Plus (r : regex) : regex := Rep r 1 None Greedy.

Fixpoint in_class (T : tables) (cls : charclass) (x : Z) : bool :=
  match cls with
  | NoChar => false
  | Chr c => x =? c
  | Range lo hi => (lo <=? x) && (x <=? hi)
  | Space => space T x
  | Property name => property T name x
  | Not c => negb (in_class T c x)
  | Either c1 c2 => in_class T c1 x || in_class T c2 x
  end.

Definition matches_class (T : tables) (icase : bool) (cls : charclass) (x : Z)
  : bool :=
  if icase then existsb (in_class T cls) (variants T x) else in_class T cls x.

(** The repetitions of a backtracking matcher, over the matcher [body] of
    what is repeated; [k] is the continuation.  An iteration that consumes
    nothing ends the repetition. *)
Definition advance (s : text) (f : text -> option text) (s' : text)
  : option text :=
  if (length s' <? length s)%nat then f s' else None.

Fixpoint rep_greedy (body : text -> (text -> option text) -> option text)
    (k : text -> option text) (n : nat) (s : text) : option text :=
  match n with
  | O => k s
  | S n' =>
      match body s (advance s (rep_greedy body k n')) with
      | Some out => Some out
      | None => k s
      end
  end.

Fixpoint rep_lazy (body : text -> (text -> option text) -> option text)
    (k : text -> option text) (n : nat) (s : text) : option text :=
  match k s with
  | Some out => Some out
  | None =>
      match n with
      | O => None
      | S n' => body s (advance s (rep_lazy body k n'))
      end
  end.

(** [lo] iterations, then at most [hi - lo] more (any number for no [hi]). *)
Fixpoint rep_must (body : text -> (text -> option text) -> option text)
    (more : nat -> text -> option text) (hi : option nat) (lo m : nat)
    (s : text) : option text :=
  match m with
  | O => more (match hi with None => length s | Some h => (h - lo)%nat end) s
  | S m' => body s (rep_must body more hi lo m')
  end.

(** [rmatch T r s k]: match [r] at the start of [s], then the continuation
    [k] on what is left; the answer is that of the first way to match that
    the continuation accepts, in the order of a backtracking matcher. *)
Fixpoint rmatch (T : tables) (r : regex) (s : text) (k : text -> option text)
  : option text :=
  match r with
  | Eps => k s
  | Cls icase c =>
      match s with
      | x :: s' => if matches_class T icase c x then k s' else None
      | [] => None
      end
  | Cat r1 r2 => rmatch T r1 s (fun s' => rmatch T r2 s' k)
  | Alt r1 r2 =>
      match rmatch T r1 s k with
      | Some out => Some out
      | None => rmatch T r2 s k
      end
  | Rep r1 lo hi q =>
      let rep k :=
        rep_must (rmatch T r1)
          (match q with
           | Lazy => rep_lazy (rmatch T r1) k
           | _ => rep_greedy (rmatch T r1) k
           end) hi lo lo s in
      match q with
      | Possessive =>
          (* the greedy repetition, with no way back into it *)
          match rep Some with
          | Some s' => k s'
          | None => None
          end
      | _ => rep k
      end
  | Ahead positive r1 =>
      match rmatch T r1 s Some, positive with
      | Some _, true | None, false => k s
      | _, _ => None
      end
  end.

(** Whether a pattern can match the empty string. *)
Fixpoint nullable (r : regex) : bool :=
  match r with
  | Eps => true
  | Cls _ _ => false
  | Cat r1 r2 => nullable r1 && nullable r2
  | Alt r1 r2 => nullable r1 || nullable r2
  | Rep r1 lo _ _ => bool_decide (lo = O) || nullable r1
  | Ahead _ _ => true
  end.

(** The scan of [re.findall] for a pattern that cannot match the empty
    string: the leftmost match at or after the current position, then on
    from its end; where nothing matches, one code point further. *)
Fixpoint rx_scan (T : tables) (fuel : nat) (r : regex) (s : text)
  : list text :=
  match fuel with
  | O => []
  | S fuel' =>
      match s with
      | [] => []
      | _ :: s' =>
          match rmatch T r s Some with
          | Some rest =>
              if (length rest <? length s)%nat
              then take (length s - length rest)%nat s
                     :: rx_scan T fuel' r rest
              else rx_scan T fuel' r s'
          | None => rx_scan T fuel' r s'
          end
      end
  end.

Definition rx_compile (T : tables) (r : regex) : Pattern :=
  {| findall := fun s => rx_scan T (length s) r s |}.

(** *** The syntax of patterns

    The parser covers the constructs of the two split patterns: literals,
    the escapes [\s \S \r \n \t \p{..} \P{..}] and escaped punctuation,
    sets, the groups [(?:..)], [(?i:..)], [(?=..)] and [(?!..)], the
    quantifiers [? * + {m} {m,} {m,n}] with their lazy and possessive forms,
    and [|].  [SyntaxError] is the library's [regex.error], for a group that
    is not closed, a [)] that closes nothing, and a group call [(?1..] that
    is not closed right after its number; any other construct is
    [OutsideModel]. *)

Inductive parsed (A : Type) : Type :=
| Parsed (a : A) (rest : text)
| SyntaxError
| OutsideModel.
Arguments Parsed {A} a rest.
Arguments SyntaxError {A}.
Arguments OutsideModel {A}.

(** The code point of a one-character literal. *)
Definition ch (c : string) : Z := hd 0 (str c).

Definition is_digit (c : Z) : bool := (ch "0" <=? c) && (c <=? ch "9").
Definition is_alnum (c : Z) : bool :=
  is_digit c || ((ch "a" <=? c) && (c <=? ch "z"))
  || ((ch "A" <=? c) && (c <=? ch "Z")).

(** The name of [\p{name}], up to the closing brace. *)
Fixpoint parse_name (s : text) : parsed text :=
  match s with
  | [] => OutsideModel
  | c :: s' =>
      if c =? ch "}" then Parsed [] s'
      else match parse_name s' with
           | Parsed name rest => Parsed (c :: name) rest
           | e => e
           end
  end.

(** An escape, after its backslash. *)
Definition parse_escape (s : text) : parsed charclass :=
  match s with
  | [] => OutsideModel
  | c :: s' =>
      if c =? ch "s" then Parsed Space s'
      else if c =? ch "S" then Parsed (Not Space) s'
      else if c =? ch "r" then Parsed (Chr 13) s'
      else if c =? ch "n" then Parsed (Chr 10) s'
      else if c =? ch "t" then Parsed (Chr 9) s'
      else if (c =? ch "p") || (c =? ch "P") then
        match s' with
        | b :: s'' =>
            if b =? ch "{" then
              match parse_name s'' with
              | Parsed name rest =>
                  Parsed (if c =? ch "p" then Property name
                          else Not (Property name)) rest
              | SyntaxError => SyntaxError
              | OutsideModel => OutsideModel
              end
            else OutsideModel
        | [] => OutsideModel
        end
      else if is_alnum c then OutsideModel
      else Parsed (Chr c) s'
  end.

Definition either (c1 c2 : charclass) : charclass :=
  match c1 with NoChar => c2 | _ => Either c1 c2 end.

(** The items of a set, up to its closing bracket; [skip] counts the code
    points of the current item still to pass. *)
Fixpoint parse_set_items (s : text) (skip : nat) (acc : charclass)
  : parsed charclass :=
  match s with
  | [] => OutsideModel
  | c :: s' =>
      match skip with
      | S n => parse_set_items s' n acc
      | O =>
          if c =? ch "]" then Parsed acc s'
          else if c =? ch "[" then OutsideModel
          else if c =? ch "\" then
            match parse_escape s' with
            | Parsed cls rest =>
                parse_set_items s' (length s' - length rest) (either acc cls)
            | SyntaxError => SyntaxError
            | OutsideModel => OutsideModel
            end
          else
            match s' with
            | d :: e :: _ =>
                if (d =? ch "-") && negb (e =? ch "]")
                then if e =? ch "\" then OutsideModel
                     else parse_set_items s' 2 (either acc (Range c e))
                else parse_set_items s' 0 (either acc (Chr c))
            | _ => parse_set_items s' 0 (either acc (Chr c))
            end
      end
  end.

(** A set, after its opening bracket. *)
Definition parse_set (s : text) : parsed charclass :=
  match s with
  | c :: s' =>
      if c =? ch "^" then
        match parse_set_items s' 0 NoChar with
        | Parsed cls rest => Parsed (Not cls) rest
        | e => e
        end
      else parse_set_items s 0 NoChar
  | [] => OutsideModel
  end.

(** A decimal number, and what follows it. *)
Fixpoint parse_number (s : text) (acc : option nat) : option nat * text :=
  match s with
  | c :: s' =>
      if is_digit c
      then parse_number s' (Some (10 * default O acc + Z.to_nat (c - ch "0"))%nat)
      else (acc, s)
  | [] => (acc, s)
  end.

(** The counts of a quantifier, if one starts here. *)
Definition parse_counts (s : text) : parsed (option (nat * option nat)) :=
  match s with
  | [] => Parsed None s
  | c :: s' =>
      if c =? ch "?" then Parsed (Some (O, Some 1%nat)) s'
      else if c =? ch "*" then Parsed (Some (O, None)) s'
      else if c =? ch "+" then Parsed (Some (1%nat, None)) s'
      else if c =? ch "{" then
        match parse_number s' None with
        | (Some lo, d :: rest) =>
            if d =? ch "}" then Parsed (Some (lo, Some lo)) rest
            else if d =? ch "," then
              match parse_number rest None with
              | (hi, e :: rest') =>
                  if e =? ch "}" then Parsed (Some (lo, hi)) rest'
                  else OutsideModel
              | _ => OutsideModel
              end
            else OutsideModel
        | _ => OutsideModel
        end
      else Parsed None s
  end.

(** The quantifier after an atom: its counts, then [?] for lazy or [+] for
    possessive. *)
Definition parse_quantifier (atom : regex) (s : text) : parsed regex :=
  match parse_counts s with
  | Parsed None rest => Parsed atom rest
  | Parsed (Some (lo, hi)) rest =>
      match rest with
      | c :: rest' =>
          if c =? ch "?" then Parsed (Rep atom lo hi Lazy) rest'
          else if c =? ch "+" then Parsed (Rep atom lo hi Possessive) rest'
          else Parsed (Rep atom lo hi Greedy) rest
      | [] => Parsed (Rep atom lo hi Greedy) rest
      end
  | SyntaxError => SyntaxError
  | OutsideModel => OutsideModel
  end.

(** The closing parenthesis of a group. *)
Definition expect_close (p : parsed regex) (wrap : regex -> regex)
  : parsed regex :=
  match p with
  | Parsed r (c :: rest) =>
      if c =? ch ")" then Parsed (wrap r) rest else OutsideModel
  | Parsed r [] => SyntaxError
  | e => e
  end.

Definition cat (r1 r2 : regex) : regex :=
  match r2 with Eps => r1 | _ => Cat r1 r2 end.

Fixpoint parse_alt (fuel : nat) (icase : bool) (s : text) : parsed regex :=
  match fuel with
  | O => OutsideModel
  | S fuel' =>
      match parse_seq fuel' icase s with
      | Parsed r1 (c :: rest) =>
          if c =? ch "|" then
            match parse_alt fuel' icase rest with
            | Parsed r2 rest' => Parsed (Alt r1 r2) rest'
            | e => e
            end
          else Parsed r1 (c :: rest)
      | p => p
      end
  end
with parse_seq (fuel : nat) (icase : bool) (s : text) : parsed regex :=
  match fuel with
  | O => OutsideModel
  | S fuel' =>
      match s with
      | [] => Parsed Eps []
      | c :: _ =>
          if (c =? ch "|") || (c =? ch ")") then Parsed Eps s
          else
            match parse_atom fuel' icase s with
            | Parsed atom rest =>
                match parse_quantifier atom rest with
                | Parsed item rest' =>
                    match parse_seq fuel' icase rest' with
                    | Parsed r rest'' => Parsed (cat item r) rest''
                    | e => e
                    end
                | e => e
                end
            | e => e
            end
      end
  end
with parse_atom (fuel : nat) (icase : bool) (s : text) : parsed regex :=
  match fuel with
  | O => OutsideModel
  | S fuel' =>
      match s with
      | [] => OutsideModel
      | c :: s' =>
          if c =? ch "(" then
            match s' with
            | q :: k :: s'' =>
                if negb (q =? ch "?") then OutsideModel
                else if k =? ch ":" then
                  expect_close (parse_alt fuel' icase s'') id
                else if k =? ch "!" then
                  expect_close (parse_alt fuel' icase s'') (Ahead false)
                else if k =? ch "=" then
                  expect_close (parse_alt fuel' icase s'') (Ahead true)
                else if k =? ch "i" then
                  match s'' with
                  | d :: s3 =>
                      if d =? ch ":"
                      then expect_close (parse_alt fuel' true s3) id
                      else OutsideModel
                  | [] => OutsideModel
                  end
                else if (k =? ch "R") || is_digit k then
                  (* a call to a group: its number, then the parenthesis *)
                  match (if k =? ch "R" then s''
                         else snd (parse_number s'' None)) with
                  | d :: _ => if d =? ch ")" then OutsideModel else SyntaxError
                  | [] => SyntaxError
                  end
                else OutsideModel
            | _ => OutsideModel
            end
          else if c =? ch "[" then
            match parse_set s' with
            | Parsed cls rest => Parsed (Cls icase cls) rest
            | SyntaxError => SyntaxError
            | OutsideModel => OutsideModel
            end
          else if c =? ch "\" then
            match parse_escape s' with
            | Parsed cls rest => Parsed (Cls icase cls) rest
            | SyntaxError => SyntaxError
            | OutsideModel => OutsideModel
            end
          else if existsb (Z.eqb c) (str ".^$*+?{") then OutsideModel
          else Parsed (Cls icase (Chr c)) s'
      end
  end.

Definition re_parse (p : text) : parsed regex :=
  match parse_alt (4 * S (length p)) false p with
  | Parsed r [] => Parsed r []
  | Parsed r (_ :: _) => SyntaxError
  | e => e
  end.

(** [re.compile]: [regex.error] for a pattern the library cannot parse.
    [Unmodelled] is no exception of Python: it stands for a pattern outside
    the model (a construct the parser does not cover, or a pattern that can
    match the empty string, where [re.findall] needs more than the scan
    above). *)
Definition re_compile (T : tables) (p : text) : result Pattern :=
  match re_parse p with
  | Parsed r _ =>
      if nullable r then Raise Unmodelled else Ok (rx_compile T r)
  | SyntaxError => Raise RegexError
  | OutsideModel => Raise Unmodelled
  end.

(** [re.split("(" + "|".join(re.escape(k) for k in toks) + ")", s)]: the
    pattern is an ordered choice of literals inside one capture group, so
    the result alternates the text between matches and the matched token,
    and always ends with the text after the last match.  [skip] counts the
    code points of the current match still to pass.  An empty token is not
    matched: the library's zero-width matches are outside this model, and
    the statements about [encode] that use it suppose the tokens non-empty. *)
Definition first_match (toks : list text) (s : text) : option text :=
  find (fun tok => startswith s tok && negb (bool_decide (tok = []))) toks.

Fixpoint split_from (toks : list text) (s : text) (skip : nat) (seg : text)
  : list text :=
  match s with
  | [] => [seg]
  | c :: s' =>
      match skip with
      | S n => split_from toks s' n seg
      | O =>
          match first_match toks s with
          | Some tok => seg :: tok :: split_from toks s' (length tok - 1) []
          | None => split_from toks s' O (seg ++ [c])
          end
      end
  end.

Definition re_split (toks : list text) (s : text) : list text :=
  split_from toks s O [].

(** ** [bpe/base.py] *)

Abbreviation idpair := (Z * Z)%type (only parsing).

(** [zip(ids, ids[1:])] *)
Definition adjacent_pairs (ids : list Z) : list idpair := zip ids (tail ids).

(** [get_stats(ids, counts)]: the accumulator [counts] is updated pair by
    pair, in the order the pairs occur in [ids]. *)
Definition get_stats (ids : list Z) (counts : option (list (idpair * Z)))
  : list (idpair * Z) :=
  let counts := match counts with None => [] | Some c => c end in
  fold_left (fun counts p => dset counts p (default 0 (dget counts p) + 1))
            (adjacent_pairs ids) counts.

(** *** [merge], on a heap of list objects

    [ids] and [newids] are references; [newids.append] updates the object
    in place.  One unit of fuel is one iteration of the [while] loop. *)

Abbreviation loc := positive (only parsing).
Abbreviation heap := (gmap positive (list Z)) (only parsing).

Definition append (h : heap) (r : loc) (x : Z) : option heap :=
  l ← h !! r; Some (<[r := l ++ [x]]> h).

Fixpoint merge_while (fuel : nat) (h : heap) (ids newids : loc)
    (pair : idpair) (idx : Z) (i : nat) : option heap :=
  l ← h !! ids;
  if bool_decide (i < length l)%nat then
    match fuel with
    | O => None
    | S fuel' =>
        x ← l !! i;
        if bool_decide (x = pair.1) && bool_decide (i < length l - 1)%nat
           && bool_decide (l !! (i + 1)%nat = Some pair.2)
        then h' ← append h newids idx;
             merge_while fuel' h' ids newids pair idx (i + 2)
        else h' ← append h newids x;
             merge_while fuel' h' ids newids pair idx (i + 1)
    end
  else Some h.

Definition merge_heap (h : heap) (ids : loc) (pair : idpair) (idx : Z)
  : option (heap * loc) :=
  l ← h !! ids;
  let newids := fresh (dom h) in
  h' ← merge_while (length l) (<[newids := []]> h) ids newids pair idx 0;
  Some (h', newids).

(** The list [merge] returns, as a function of the list it is given. *)
Fixpoint merge (ids : list Z) (pair : idpair) (idx : Z) : list Z :=
  match ids with
  | [] => []
  | x :: rest =>
      match rest with
      | y :: rest' =>
          if bool_decide (x = pair.1) && bool_decide (y = pair.2)
          then idx :: merge rest' pair idx
          else x :: merge rest pair idx
      | [] => [x]
      end
  end.

(** The Merge Engine as the specification words it: scanning left to right,
    an occurrence of the pair is replaced and the scan resumes right after
    it; any other element is copied. *)
Inductive replaced (a b idx : Z) : list Z -> list Z -> Prop :=
| replaced_nil : replaced a b idx [] []
| replaced_pair ids out :
    replaced a b idx ids out ->
    replaced a b idx (a :: b :: ids) (idx :: out)
| replaced_copy x ids out :
    (forall ids', x :: ids <> a :: b :: ids') ->
    replaced a b idx ids out ->
    replaced a b idx (x :: ids) (x :: out).

(** *** The tokenizer object *)

Record Tokenizer : Type := {
  merges : list (idpair * Z);
  pattern : text;
  special_tokens : list (text * Z);
  vocab : list (Z * bytes);
  compiled_pattern : Pattern;
  inverse_special_tokens : list (Z * text);
}.

(** [{idx: bytes([idx]) for idx in range(256)}] *)
Definition byte_vocab : list (Z * bytes) :=
  map (fun idx => (idx, [idx])) (seqZ 0 256).

Definition _build_vocab (merges : list (idpair * Z))
    (special_tokens : list (text * Z)) : result (list (Z * bytes)) :=
  let vocab := byte_vocab in
  let! vocab :=
    for_each merges (fun vocab '((p0, p1), idx) =>
      let! v0 := dindex vocab p0 in
      let! v1 := dindex vocab p1 in
      Ok (dset vocab idx (v0 ++ v1))) vocab in
  for_each special_tokens (fun vocab '(special, idx) =>
    let! b := str_encode special in
    Ok (dset vocab idx b)) vocab.

(** *** [save]

    The file system maps a file name to the text of the file; a name is
    taken to be one that [open] accepts.  A file opened for writing exists
    from then on, and what was written before an exception stays in it.
    [render_token] needs the Unicode category table, which is not part of
    the repository: it is a parameter. *)

Definition filesystem := list (text * text).

(** [f.write(s)] on a file opened in text mode: [s] is encoded as it is
    written, so a lone surrogate in it raises [UnicodeEncodeError] and
    nothing of [s] reaches the file.  The vocabulary file is opened with
    [encoding="utf-8"]; the model file with the default encoding, which is
    taken to be UTF-8 as well. *)
Definition write (out s : text) : text * result unit :=
  match str_encode s with
  | Ok _ => (out ++ s, Ok tt)
  | Raise e => (out, Raise e)
  end.

(** One [f.write] after the other, up to the first that raises. *)
Fixpoint write_all (out : text) (ss : list text) : text * result unit :=
  match ss with
  | [] => (out, Ok tt)
  | s :: ss' =>
      match write out s with
      | (out', Ok _) => write_all out' ss'
      | (out', Raise e) => (out', Raise e)
      end
  end.

Section Save.
Variable render_token : bytes -> text.

Definition nl : text := str (String (ascii_of_nat 10) EmptyString).

(** The strings [save] writes to the model file, one for each [f.write]. *)
Definition model_lines (self : Tokenizer) : list text :=
  [str "bpe v1" ++ nl;
   pattern self ++ nl;
   int_to_str (Z.of_nat (length (special_tokens self))) ++ nl]
  ++ map (fun '(special, idx) => special ++ str " " ++ int_to_str idx ++ nl)
         (special_tokens self)
  ++ map (fun '(idx1, idx2) =>
            int_to_str idx1 ++ str " " ++ int_to_str idx2 ++ nl)
         (dkeys (merges self)).

(** The model file when every [f.write] succeeds. *)
Definition model_text (self : Tokenizer) : text :=
  str "bpe v1" ++ nl
  ++ pattern self ++ nl
  ++ int_to_str (Z.of_nat (length (special_tokens self))) ++ nl
  ++ concat (map (fun '(special, idx) =>
                    special ++ str " " ++ int_to_str idx ++ nl)
                 (special_tokens self))
  ++ concat (map (fun '(idx1, idx2) =>
                    int_to_str idx1 ++ str " " ++ int_to_str idx2 ++ nl)
                 (dkeys (merges self))).

(** The loop over [self.vocab.items()]; [out] is the text written to the
    vocabulary file so far, returned with the outcome. *)
Fixpoint save_vocab_lines (self : Tokenizer)
    (inverted_merges : list (Z * idpair)) (items : list (Z * bytes))
    (out : text) : text * result unit :=
  match items with
  | [] => (out, Ok tt)
  | (idx, token) :: items' =>
      let s := render_token token in
      match dget inverted_merges idx with
      | Some (idx0, idx1) =>
          match dindex (vocab self) idx0, dindex (vocab self) idx1 with
          | Ok t0, Ok t1 =>
              let s0 := render_token t0 in
              let s1 := render_token t1 in
              match write out (str "[" ++ s0 ++ str "][" ++ s1 ++ str "] -> ["
                               ++ s ++ str "] " ++ int_to_str idx ++ nl) with
              | (out', Ok _) =>
                  save_vocab_lines self inverted_merges items' out'
              | (out', Raise e) => (out', Raise e)
              end
          | Raise e, _ => (out, Raise e)
          | _, Raise e => (out, Raise e)
          end
      | None =>
          (* [f.wirte(...)]: a file object has no such attribute *)
          (out, Raise AttributeError)
      end
  end.

Definition save (self : Tokenizer) (file_prefix : text) (fs : filesystem)
  : filesystem * result unit :=
  let model_file := file_prefix ++ str ".model" in
  let '(out, r) := write_all [] (model_lines self) in
  let fs := dset fs model_file out in
  match r with
  | Raise e => (fs, Raise e)
  | Ok _ =>
      let vocab_file := file_prefix ++ str ".vocab" in
      let inverted_merges :=
        fold_left (fun inv '(p, idx) => dset inv idx p) (merges self) [] in
      let '(out, r) := save_vocab_lines self inverted_merges (vocab self) [] in
      (dset fs vocab_file out, r)
  end.
End Save.

(** *** [load]

    [load] assigns [self.pattern] before it has read the rest of the file,
    so the tokenizer is returned with the outcome.  The first special-token
    line ends the call: [special_token] is not a name. *)

Definition load (self : Tokenizer) (model_file : text) (fs : filesystem)
  : Tokenizer * result unit :=
  if negb (endswith model_file (str ".model")) then
    (self, Raise AssertionError)
  else
    match dget fs model_file with
    | None => (self, Raise FileNotFoundError)
    | Some content =>
        let f := readlines content [] false in
        let '(line, f) := readline f in
        let version := strip line in
        if negb (bool_decide (version = str "bpe v1")) then
          (self, Raise AssertionError)
        else
          let '(line, f) := readline f in
          let self :=
            {| merges := merges self; pattern := strip line;
               special_tokens := special_tokens self; vocab := vocab self;
               compiled_pattern := compiled_pattern self;
               inverse_special_tokens := inverse_special_tokens self |} in
          let '(line, f) := readline f in
          let loaded :=
            let! num_special := py_int (strip line) in
            let! f :=
              for_each (seq 0 (Z.to_nat num_special)) (fun f _ =>
                let '(line, f) := readline f in
                match split (strip line) with
                | [special; special_idx] =>
                    let! idx := py_int special_idx in
                    (* [special_token[special] = idx] *)
                    Raise NameError
                | _ => Raise ValueError
                end) f in
            let! '(merges, _) :=
              for_each f (fun '(merges, idx) line =>
                match split line with
                | [idx1; idx2] =>
                    let! idx1 := py_int idx1 in
                    let! idx2 := py_int idx2 in
                    Ok (dset merges (idx1, idx2) idx, idx + 1)
                | _ => Raise ValueError
                end) ([], 256) in
            Ok merges in
          match loaded with
          | Raise e => (self, Raise e)
          | Ok merges =>
              let self :=
                {| merges := merges; pattern := pattern self;
                   special_tokens := []; vocab := vocab self;
                   compiled_pattern := compiled_pattern self;
                   inverse_special_tokens := inverse_special_tokens self |} in
              match _build_vocab merges [] with
              | Raise e => (self, Raise e)
              | Ok vocab =>
                  ({| merges := merges; pattern := pattern self;
                      special_tokens := []; vocab := vocab;
                      compiled_pattern := compiled_pattern self;
                      inverse_special_tokens := inverse_special_tokens self |},
                   Ok tt)
              end
          end
    end.

(** *** [replace_control_characters] and [render_token]

    [unicodedata.category] is the Unicode category table, which is not
    part of the repository: it is a parameter. *)

(** [f"{n:04x}"] for an [int] that is not negative: lower-case hexadecimal
    digits, padded with zeros to four. *)
Definition format_04x (n : Z) : text :=
  let s := str (HexadecimalString.NilZero.string_of_uint
                  (N.to_hex_uint (Z.to_N n))) in
  replicate (4 - length s) 48 ++ s.

Section Render.
Variable category : Z -> text.

(** [unicodedata.category(ch)[0] == "C"] *)
Definition is_control (c : Z) : bool := hd 0 (category c) =? ch "C".

Definition replace_control_characters (s : text) : text :=
  concat (map (fun c => if negb (is_control c) then [c]
                        else str "\u" ++ format_04x c) s).

Definition render_token (t : bytes) : text :=
  replace_control_characters (bytes_decode t).
End Render.

(** ** [bpe/regex.py] *)

Definition GPT2_SPLIT_PATTERN : text :=
  str "'(?:[sdmt]|ll|ve|re)| ?\p{L}+| ?\p{N}+| ?[^\s\p{L}\p{N}]+|\s+(?!\S)|\s+".

Definition GPT4_SPLIT_PATTERN : text :=
  str "'(?i:[sdmt]|ll|ve|re)|[^\r\n\p{L}\p{N}]?+\p{L}+|\p{N}{1,3}| ?[^\s\p{L}\p{N}]++[\r\n]*|\s*[\r\n]|\s+(?1\S)|\s+ ".

Definition re_lit (c : string) : regex := Cls false (Chr (ch c)).
Definition re_blank : regex := re_lit " ".
Definition re_letter : regex := Cls false (Property (str "L")).
Definition re_number : regex := Cls false (Property (str "N")).
Definition re_space : regex := Cls false Space.
Definition re_other : regex :=
  Cls false (Not (Either (Either Space (Property (str "L")))
                         (Property (str "N")))).

(** What [GPT2_SPLIT_PATTERN] denotes (lemma [gpt2_parse] below). *)
Definition gpt2_regex : regex :=
  Alt (Cat (re_lit "'")
        (Alt (Cls false (Either (Either (Either (Chr (ch "s")) (Chr (ch "d")))
                                        (Chr (ch "m"))) (Chr (ch "t"))))
        (Alt (Cat (re_lit "l") (re_lit "l"))
        (Alt (Cat (re_lit "v") (re_lit "e"))
             (Cat (re_lit "r") (re_lit "e"))))))
  (Alt (Cat (Opt re_blank) (Plus re_letter))
  (Alt (Cat (Opt re_blank) (Plus re_number))
  (Alt (Cat (Opt re_blank) (Plus re_other))
  (Alt (Cat (Plus re_space) (Ahead false (Cls false (Not Space))))
       (Plus re_space))))).


(** [Tokenizer.__init__], then [RegexTokenizer.__init__]; [re_compile] is
    the library's [re.compile]. *)
Definition RegexTokenizer_init (re_compile : text -> result Pattern)
    (pattern : option text) : result Tokenizer :=
  let! vocab := _build_vocab [] [] in
  let pattern :=
    match pattern with None => GPT4_SPLIT_PATTERN | Some p => p end in
  let! compiled := re_compile pattern in
  Ok {| merges := []; pattern := pattern; special_tokens := [];
        vocab := vocab; compiled_pattern := compiled;
        inverse_special_tokens := [] |}.

(** [[list(ch.encode("utf-8")) for ch in text_chunks]] *)
Fixpoint encode_chunks (text_chunks : list text) : result (list (list Z)) :=
  match text_chunks with
  | [] => Ok []
  | ch :: rest =>
      let! b := str_encode ch in
      let! bs := encode_chunks rest in
      Ok (b :: bs)
  end.

(** The rounds [i, i + n) of the training loop. *)
Fixpoint train_loop (n : nat) (i : Z) (ids : list (list Z))
    (merges : list (idpair * Z)) (vocab : list (Z * bytes))
  : result (list (idpair * Z) * list (Z * bytes)) :=
  match n with
  | O => Ok (merges, vocab)
  | S n' =>
      let stats :=
        fold_left (fun stats chunk_ids => get_stats chunk_ids (Some stats))
                  ids [] in
      let! pair := py_max (dkeys stats) (fun p => dget stats p) in
      let idx := 256 + i in
      let ids := map (fun chunk_ids => merge chunk_ids pair idx) ids in
      let merges := dset merges pair idx in
      let! v0 := dindex vocab pair.1 in
      let! v1 := dindex vocab pair.2 in
      let vocab := dset vocab idx (v0 ++ v1) in
      train_loop n' (i + 1) ids merges vocab
  end.

Definition train (self : Tokenizer) (txt : text) (vocab_size : Z)
    (verbose : bool) : result Tokenizer :=
  if negb (256 <=? vocab_size) then Raise AssertionError else
  let num_merges := vocab_size - 256 in
  let text_chunks := findall (compiled_pattern self) txt in
  let! ids := encode_chunks text_chunks in
  let! '(merges, vocab) :=
    train_loop (Z.to_nat num_merges) 0 ids [] byte_vocab in
  Ok {| merges := merges; pattern := pattern self;
        special_tokens := special_tokens self; vocab := vocab;
        compiled_pattern := compiled_pattern self;
        inverse_special_tokens := inverse_special_tokens self |}.

Definition register_special_tokens (self : Tokenizer)
    (special_tokens : list (text * Z)) : Tokenizer :=
  {| merges := merges self; pattern := pattern self;
     special_tokens := special_tokens; vocab := vocab self;
     compiled_pattern := compiled_pattern self;
     inverse_special_tokens :=
       fold_left (fun inv '(k, v) => dset inv v k) special_tokens [] |}.

Definition decode (self : Tokenizer) (ids : list Z) : result text :=
  let! part_bytes :=
    for_each ids (fun part_bytes idx =>
      if dmem (vocab self) idx then
        let! b := dindex (vocab self) idx in
        Ok (part_bytes ++ [b])
      else if dmem (inverse_special_tokens self) idx then
        (* [party_bytes.append(...)]: the name is not defined *)
        Raise NameError
      else Raise ValueError) [] in
  let text_bytes := concat part_bytes in
  Ok (bytes_decode text_bytes).

(** The [while] loop of [_encode_chunk]; one unit of fuel is one iteration,
    [None] is fuel run out. *)
Fixpoint encode_chunk_while (fuel : nat) (merges : list (idpair * Z))
    (ids : list Z) : option (result (list Z)) :=
  if bool_decide (2 <= length ids)%nat then
    match fuel with
    | O => None
    | S fuel' =>
        let stats := get_stats ids None in
        match py_min (dkeys stats) (fun p => dget merges p) with
        | Raise e => Some (Raise e)
        | Ok best =>
            match dget merges best with
            | None => Some (Ok ids)
            | Some idx => encode_chunk_while fuel' merges (merge ids best idx)
            end
        end
    end
  else Some (Ok ids).

(** Every merge shortens the list, so [length text_bytes] iterations are
    enough (lemma [encode_chunk_while_fuel] below). *)
Definition _encode_chunk (self : Tokenizer) (text_bytes : bytes)
  : result (list Z) :=
  match encode_chunk_while (length text_bytes) (merges self) text_bytes with
  | Some r => r
  | None => Ok text_bytes
  end.

Definition encode_ordinary (self : Tokenizer) (txt : text)
  : result (list Z) :=
  let text_chunks := findall (compiled_pattern self) txt in
  for_each text_chunks (fun ids chunk =>
    let! chunk_bytes := str_encode chunk in
    let! chunk_ids := _encode_chunk self chunk_bytes in
    Ok (ids ++ chunk_ids)) [].

(** The argument [allowed_special] of [encode]: a [str], a [set] of [str],
    or any other object. *)
Inductive allowed : Type :=
| AllowedStr (s : text)
| AllowedSet (s : list text)
| AllowedOther.

Definition encode (self : Tokenizer) (txt : text) (allowed_special : allowed)
  : result (list Z) :=
  let! special :=
    match allowed_special with
    | AllowedStr s =>
        if bool_decide (s = str "all") then Ok (special_tokens self)
        else if bool_decide (s = str "none") then Ok []
        else if bool_decide (s = str "none_raise") then
          if forallb (fun token => negb (contains txt token))
                     (dkeys (special_tokens self))
          then Ok [] else Raise AssertionError
        else Raise ValueError
    | AllowedSet s =>
        Ok (filter (fun '(k, v) => k ∈ s) (special_tokens self))
    | AllowedOther => Raise ValueError
    end in
  match special with
  | [] => encode_ordinary self txt
  | _ :: _ =>
      let special_chunks := re_split (dkeys special) txt in
      for_each special_chunks (fun ids part =>
        match dget special part with
        | Some id => Ok (ids ++ [id])
        | None =>
            let! part_ids := encode_ordinary self part in
            Ok (ids ++ part_ids)
        end) []
  end.

(** ** The states of a tokenizer, and what the statements say of them *)

(** The states a [RegexTokenizer] is in after its constructor, [train] and
    [register_special_tokens]. *)
Inductive tokenizer_state : Tokenizer -> Prop :=
| state_init re_compile pattern self :
    RegexTokenizer_init re_compile pattern = Ok self ->
    tokenizer_state self
| state_train self txt vocab_size verbose self' :
    tokenizer_state self ->
    train self txt vocab_size verbose = Ok self' ->
    tokenizer_state self'
| state_register self special_tokens :
    tokenizer_state self ->
    tokenizer_state (register_special_tokens self special_tokens).

(** A Unicode scalar value: a code point that is not a surrogate. *)
Definition scalar (c : Z) : Prop :=
  0 <= c < 0xD800 \/ 0xE000 <= c <= 0x10FFFF.

Definition byte (b : Z) : Prop := 0 <= b < 256.


(** Every string [save] writes to the model file can be encoded: neither
    the pattern nor a special token has a lone surrogate. *)
Definition encodable (self : Tokenizer) : Prop :=
  Forall scalar (pattern self)
  /\ Forall (fun e => Forall scalar e.1) (special_tokens self).

(** [parts] are the byte strings of [ids] in the vocabulary [V]. *)
Definition spells (V : list (Z * bytes)) (ids : list Z) (parts : list bytes)
  : Prop :=
  Forall2 (fun id b => dget V id = Some b) ids parts.

(** The vocabulary has every byte, and the bytes of a merged id are those
    of its two parts. *)
Definition coherent (M : list (idpair * Z)) (V : list (Z * bytes)) : Prop :=
  (forall b, byte b -> dget V b = Some [b])
  /\ (forall p i, dget M p = Some i ->
        exists x y, dget V p.1 = Some x /\ dget V p.2 = Some y
                    /\ dget V i = Some (x ++ y)).

(** What holds of the training loop before round [i]. *)
Definition train_inv (i : Z) (ids : list (list Z)) (M : list (idpair * Z))
    (V : list (Z * bytes)) : Prop :=
  0 <= i
  /\ coherent M V
  /\ (forall k v, dget V k = Some v -> k < 256 + i)
  /\ Z.of_nat (length V) = 256 + i
  /\ Z.of_nat (length M) = i
  /\ Forall (fun e => 256 <= e.2) M
  /\ hd_error V = Some (0, [0])
  /\ (forall p chunk, p ∈ dkeys M -> chunk ∈ ids -> p ∉ adjacent_pairs chunk).

(** What holds of every state. *)
Definition state_inv (self : Tokenizer) : Prop :=
  coherent (merges self) (vocab self)
  /\ length (vocab self) = (256 + length (merges self))%nat
  /\ Forall (fun e => 256 <= e.2) (merges self)
  /\ hd_error (vocab self) = Some (0, [0]).

(** What holds of a matcher: it answers through its continuation, on a
    suffix of its input, a proper one when [strict]. *)
Definition well_behaved (body : text -> (text -> option text) -> option text)
    (strict : bool) : Prop :=
  forall s k out, body s k = Some out ->
    exists s', s' `suffix_of` s /\ k s' = Some out
               /\ (strict = true -> (length s' < length s)%nat).

(** ** A sample tokenizer: the pattern [[a-z]+] *)

(** A sample of the library's tables: their ASCII part, which is all the
    sample texts below need. *)
Definition ascii_tables : tables :=
  {| property := fun name x =>
       if bool_decide (name = str "L")
       then between 65 x 90 || between 97 x 122
       else if bool_decide (name = str "N") then between 48 x 57
       else false;
     space := fun x => between 9 x 13 || (x =? 32);
     variants := fun x =>
       if between 65 x 90 then [x; x + 32]
       else if between 97 x 122 then [x; x - 32]
       else [x] |}.

Definition lowercase_run : regex := Plus (Cls false (Range 97 122)).

Definition sample : Tokenizer :=
  {| merges := []; pattern := str "[a-z]+"; special_tokens := [];
     vocab := byte_vocab;
     compiled_pattern := rx_compile ascii_tables lowercase_run;
     inverse_special_tokens := [] |}.

(** The untrained tokenizer with the GPT-2 pattern, and the one trained
    from it on "hello hello world" for three merges. *)
Definition gpt2_sample : Tokenizer :=
  {| merges := []; pattern := GPT2_SPLIT_PATTERN; special_tokens := [];
     vocab := byte_vocab;
     compiled_pattern := rx_compile ascii_tables gpt2_regex;
     inverse_special_tokens := [] |}.

Definition trained_sample : Tokenizer :=
  match train gpt2_sample (str "hello hello world") 259 false with
  | Ok self => self
  | Raise _ => gpt2_sample
  end.

Definition END : text := str "<END>".

(** The sample after [register_special_tokens({"<END>": 100256})]. *)
Definition sample_END : Tokenizer :=
  register_special_tokens sample [(END, 100256)].

(** The sample after
    [register_special_tokens({"<A>": 1000, "<B>": 1001})]. *)
Definition AB : Tokenizer :=
  register_special_tokens sample [(str "<A>", 1000); (str "<B>", 1001)].




(** A model file whose one merge names the id 256 before any merge has
    made it. *)
Definition broken_model : filesystem :=
  [(str "m.model",
    str "bpe v1" ++ nl ++ str "[a-z]+" ++ nl ++ str "0" ++ nl
    ++ str "256 3" ++ nl)].

(** ** Notions of the further properties *)

(** The number of times [p] occurs among the adjacent pairs of [ids], and
    in a corpus of chunks (pairs are counted inside chunks). *)
Definition pair_count (p : idpair) (ids : list Z) : Z :=
  Z.of_nat (length (filter (fun q => q = p) (adjacent_pairs ids))).

Definition corpus_count (p : idpair) (ids : list (list Z)) : Z :=
  foldr Z.add 0 (map (pair_count p) ids).

(** The merges of a table applied one after the other, in the order of the
    table. *)
Definition apply_merges (M : list (idpair * Z)) (ids : list Z) : list Z :=
  fold_left (fun ids '(p, idx) => merge ids p idx) M ids.

(** The shape of a trained merge table and its vocabulary: the pairs are
    distinct, their ids are 256, 257, ... in the order of the table, the
    components of a pair are smaller than its id, the vocabulary has the
    ids from 0 in order, and it is what [_build_vocab] derives from the
    table. *)
Definition well_formed (M : list (idpair * Z)) (V : list (Z * bytes)) : Prop :=
  NoDup (dkeys M)
  /\ map snd M = seqZ 256 (Z.of_nat (length M))
  /\ Forall (fun e => e.1.1 < e.2 /\ e.1.2 < e.2) M
  /\ dkeys V = seqZ 0 (256 + Z.of_nat (length M))
  /\ _build_vocab M [] = Ok V.

(** What holds of the merge table [load] has read so far, [idx] being the
    next id. *)
Definition loaded_inv (M : list (idpair * Z)) (idx : Z) : Prop :=
  NoDup (dkeys M) /\ NoDup (map snd M)
  /\ Forall (fun e => 256 <= e.2 < idx) M /\ 256 <= idx.

(** An ASCII digit; a code point that is not white space. *)
Definition digit (c : Z) : Prop := 48 <= c <= 57.
Definition plain (c : Z) : Prop := isspace c = false.

(** The lines [save] writes for a special token and for a merge. *)
Definition special_line (e : text * Z) : text :=
  e.1 ++ str " " ++ int_to_str e.2 ++ nl.

Definition merge_line (p : idpair) : text :=
  int_to_str p.1 ++ str " " ++ int_to_str p.2 ++ nl.

(** A sample of the category table: its ASCII part. *)
Definition ascii_category (c : Z) : text :=
  if (c <? 32) || (c =? 127) then str "Cc" else str "Ll".

(** A model file written by hand. *)
Definition handwritten_model : filesystem :=
  [(str "m.model",
    str "bpe v1" ++ nl ++ str "[a-z]+" ++ nl ++ str "0" ++ nl
    ++ str "104 105" ++ nl ++ str "256 33" ++ nl)].

(** * Properties *)

(** ** Dictionaries *)

Section DictFacts.
Context {K V : Type} `{EqDecision K}.
Implicit Types (d : list (K * V)) (k : K) (v : V).

Lemma dget_dset d k v k' :
  dget (dset d k v) k' = if decide (k' = k) then Some v else dget d k'.
Proof.
  induction d as [|[k0 v0] d IH]; simpl.
  - repeat case_decide; congruence.
  - destruct (decide (k = k0)) as [->|Hne]; simpl;
      repeat case_decide; subst; try congruence.
Qed.

Lemma dget_dset_eq d k v : dget (dset d k v) k = Some v.
Proof. rewrite dget_dset. case_decide; congruence. Qed.

Lemma dget_dset_ne d k v k' : k' <> k -> dget (dset d k v) k' = dget d k'.
Proof. intros. rewrite dget_dset. case_decide; congruence. Qed.

Lemma dget_Some_keys d k v : dget d k = Some v -> k ∈ dkeys d.
Proof.
  induction d as [|[k0 v0] d IH]; simpl; [discriminate|].
  case_decide; subst; intros; [left | right; auto].
Qed.

Lemma dget_None_keys d k : dget d k = None <-> k ∉ dkeys d.
Proof.
  induction d as [|[k0 v0] d IH]; simpl.
  - split; [intros _ H'; inversion H' | done].
  - case_decide; subst.
    + split; [discriminate | intros []; left].
    + rewrite IH, not_elem_of_cons. tauto.
Qed.

Lemma dkeys_dset d k v :
  dkeys (dset d k v) = if dmem d k then dkeys d else dkeys d ++ [k].
Proof.
  unfold dmem. induction d as [|[k0 v0] d IH]; simpl; [done|].
  case_decide; subst; simpl; [done|].
  rewrite IH. by destruct (dget d k).
Qed.

Lemma dset_length d k v :
  length (dset d k v) = if dmem d k then length d else S (length d).
Proof.
  unfold dmem. induction d as [|[k0 v0] d IH]; simpl; [done|].
  case_decide; subst; simpl; [done|].
  rewrite IH. by destruct (dget d k).
Qed.
End DictFacts.

(** ** [merge] *)

Lemma merge_cons2 x y rest pr idx :
  merge (x :: y :: rest) pr idx =
  if bool_decide (x = pr.1) && bool_decide (y = pr.2)
  then idx :: merge rest pr idx else x :: merge (y :: rest) pr idx.
Proof. reflexivity. Qed.

Lemma merge_while_spec fuel : forall (h : heap) ids newids pr idx i l acc,
  ids <> newids ->
  h !! ids = Some l ->
  h !! newids = Some acc ->
  (length l - i <= fuel)%nat ->
  merge_while fuel h ids newids pr idx i
  = Some (<[newids := acc ++ merge (drop i l) pr idx]> h).
Proof.
  induction fuel as [|fuel IH]; intros h ids newids pr idx i l acc Hne Hl Hacc Hf.
  - simpl. rewrite Hl. simpl. rewrite bool_decide_eq_false_2 by lia.
    rewrite drop_ge by lia. simpl. rewrite app_nil_r.
    by rewrite insert_id.
  - simpl. rewrite Hl. simpl. case_bool_decide as Hi.
    2:{ rewrite drop_ge by lia. simpl. rewrite app_nil_r.
        by rewrite insert_id. }
    destruct (lookup_lt_is_Some_2 l i Hi) as [x Hx].
    rewrite Hx. simpl.
    rewrite (drop_S l x i Hx).
    destruct (l !! (i + 1)%nat) as [y|] eqn:Hy.
    + assert (Hi' : (i + 1 < length l)%nat) by (by eapply lookup_lt_Some).
      replace (S i) with (i + 1)%nat by lia.
      rewrite (drop_S l y (i + 1) Hy).
      rewrite merge_cons2.
      rewrite (bool_decide_eq_true_2 (i < length l - 1)%nat) by lia.
      rewrite andb_true_r.
      assert (Hy' : bool_decide (Some y = Some pr.2) = bool_decide (y = pr.2)).
      { apply bool_decide_ext. split; congruence. }
      rewrite Hy'.
      destruct (bool_decide (x = pr.1) && bool_decide (y = pr.2)) eqn:Hc.
      * unfold append. rewrite Hacc. simpl.
        rewrite (IH _ ids newids pr idx (i + 2)%nat l (acc ++ [idx]));
          [| done | by rewrite lookup_insert_ne | by rewrite lookup_insert_eq | lia].
        rewrite insert_insert_eq. rewrite <- app_assoc. simpl.
        by replace (S (i + 1)) with (i + 2)%nat by lia.
      * unfold append. rewrite Hacc. simpl.
        rewrite (IH _ ids newids pr idx (i + 1)%nat l (acc ++ [x]));
          [| done | by rewrite lookup_insert_ne | by rewrite lookup_insert_eq | lia].
        rewrite insert_insert_eq. rewrite <- app_assoc. simpl.
        by rewrite (drop_S l y (i + 1) Hy).
    + assert (Hlen : (length l <= i + 1)%nat) by (by apply lookup_ge_None).
      rewrite (bool_decide_eq_false_2 (i < length l - 1)%nat) by lia.
      rewrite andb_false_r. simpl.
      unfold append. rewrite Hacc. simpl.
      rewrite (IH _ ids newids pr idx (i + 1)%nat l (acc ++ [x]));
        [| done | by rewrite lookup_insert_ne | by rewrite lookup_insert_eq | lia].
      rewrite insert_insert_eq. rewrite <- app_assoc. simpl.
      rewrite !drop_ge by lia. done.
Qed.

Lemma merge_heap_spec (h : heap) ids l pr idx :
  h !! ids = Some l ->
  merge_heap h ids pr idx
  = Some (<[fresh (dom h) := merge l pr idx]> h, fresh (dom h)).
Proof.
  intros Hl. unfold merge_heap. rewrite Hl. simpl.
  assert (Hfresh : fresh (dom h) ∉ dom h) by apply is_fresh.
  assert (Hne : ids <> fresh (dom h)).
  { intros Heq. apply Hfresh. rewrite <- Heq. apply elem_of_dom. eauto. }
  rewrite (merge_while_spec _ _ ids _ pr idx 0%nat l []);
    [| done | by rewrite lookup_insert_ne | by rewrite lookup_insert_eq | lia].
  simpl. by rewrite insert_insert_eq.
Qed.

Lemma merge_replaced a b idx l : replaced a b idx l (merge l (a, b) idx).
Proof.
  induction l as [l IH] using (induction_ltof1 _ (@length Z)).
  unfold ltof in IH.
  destruct l as [|x [|y rest]].
  - constructor.
  - simpl. constructor; [intros ids' H; discriminate | constructor].
  - rewrite merge_cons2. simpl.
    destruct (bool_decide (x = a) && bool_decide (y = b)) eqn:Hc.
    + apply andb_true_iff in Hc as [Hx Hy].
      apply bool_decide_eq_true in Hx, Hy. subst.
      constructor. apply IH. simpl. lia.
    + constructor.
      * intros ids' H. inversion H; subst.
        rewrite !bool_decide_eq_true_2 in Hc by done. discriminate.
      * apply IH. simpl. lia.
Qed.

Lemma replaced_functional a b idx l out1 out2 :
  replaced a b idx l out1 -> replaced a b idx l out2 -> out1 = out2.
Proof.
  intros H1. revert out2.
  induction H1 as [|ids out H1 IH|x ids out Hx H1 IH]; intros out2 H2.
  - by inversion H2.
  - inversion H2; subst.
    + f_equal. by apply IH.
    + exfalso. by eapply H3.
  - inversion H2; subst.
    + exfalso. by eapply Hx.
    + f_equal. by apply IH.
Qed.

(** C5. [merge] returns a new list object in which every non-overlapping
    occurrence of the pair, found scanning left to right and resuming right
    after a replacement, is replaced by [idx]; the list it was given, and
    every other object, is left as it was.  So [x, a, b, a, b] gives
    [x, idx, idx] (for [x], [a], [b] not all equal), and [a, a, b] with the
    pair [(a, a)] gives [idx, b]. *)
Theorem merge_replaces_left_to_right (h : heap) (ids : loc) (l : list Z)
    (a b idx : Z) :
  h !! ids = Some l ->
  exists h' newids,
    merge_heap h ids (a, b) idx = Some (h', newids)
    /\ h !! newids = None
    /\ h' !! newids = Some (merge l (a, b) idx)
    /\ replaced a b idx l (merge l (a, b) idx)
    /\ (forall out, replaced a b idx l out -> out = merge l (a, b) idx)
    /\ h' !! ids = Some l
    /\ (forall r, r <> newids -> h' !! r = h !! r)
    /\ (forall x, ~ (x = a /\ a = b) ->
        merge [x; a; b; a; b] (a, b) idx = [x; idx; idx])
    /\ merge [a; a; b] (a, a) idx = [idx; b].
Proof.
  intros Hl.
  assert (Hfresh : h !! fresh (dom h) = None).
  { apply not_elem_of_dom. apply is_fresh. }
  exists (<[fresh (dom h) := merge l (a, b) idx]> h), (fresh (dom h)).
  split; [by apply merge_heap_spec|].
  split; [done|].
  split; [by rewrite lookup_insert_eq|].
  split; [apply merge_replaced|].
  split; [intros out Hout; eapply replaced_functional; eauto using merge_replaced|].
  split; [rewrite lookup_insert_ne; [done | congruence]|].
  split; [intros r Hr; by rewrite lookup_insert_ne|].
  split.
  - intros x Hx. simpl.
    destruct (bool_decide (x = a) && bool_decide (a = b)) eqn:Hc.
    + apply andb_true_iff in Hc as [H1 H2].
      apply bool_decide_eq_true in H1, H2. tauto.
    + rewrite !bool_decide_eq_true_2 by done. done.
  - simpl. rewrite !bool_decide_eq_true_2 by done. done.
Qed.

Lemma merge_replaces_left_to_right_witness :
  exists h' newids,
    merge_heap {[ 1%positive := [7; 1; 2; 1; 2] ]} 1%positive (1, 2) 9
    = Some (h', newids)
    /\ h' !! newids = Some [7; 9; 9]
    /\ h' !! 1%positive = Some [7; 1; 2; 1; 2].
Proof.
  destruct (merge_replaces_left_to_right
              {[ 1%positive := [7; 1; 2; 1; 2] ]} 1%positive
              [7; 1; 2; 1; 2] 1 2 9)
    as (h' & newids & Hm & _ & Hnew & _ & _ & Hids & _).
  - reflexivity.
  - exists h', newids. repeat split; assumption.
Defined.

Lemma list_ind_two (P : list Z -> Prop) :
  P [] -> (forall x, P [x]) ->
  (forall x y l, P l -> P (y :: l) -> P (x :: y :: l)) ->
  forall l, P l.
Proof.
  intros Hnil Hone Hstep.
  assert (H : forall l, P l /\ forall x, P (x :: l)).
  { induction l as [|y l [IH1 IH2]]; split; auto. }
  intros l. apply H.
Qed.

Lemma adjacent_pairs_cons2 x y l :
  adjacent_pairs (x :: y :: l) = (x, y) :: adjacent_pairs (y :: l).
Proof. reflexivity. Qed.

Lemma merge_length_le l pr idx : (length (merge l pr idx) <= length l)%nat.
Proof.
  induction l as [|x|x y l IH1 IH2] using list_ind_two; [done..|].
  rewrite merge_cons2.
  destruct (_ && _); simpl in *; lia.
Qed.

Lemma merge_length_lt l pr idx :
  pr ∈ adjacent_pairs l -> (length (merge l pr idx) < length l)%nat.
Proof.
  induction l as [|x|x y l IH1 IH2] using list_ind_two.
  - intros H. inversion H.
  - intros H. inversion H.
  - rewrite adjacent_pairs_cons2, merge_cons2. intros H.
    destruct (bool_decide (x = pr.1) && bool_decide (y = pr.2)) eqn:Hc.
    + pose proof (merge_length_le l pr idx). simpl. lia.
    + apply elem_of_cons in H as [->|H].
      * simpl in Hc. rewrite !bool_decide_eq_true_2 in Hc by done.
        discriminate.
      * specialize (IH2 H). simpl in *. lia.
Qed.

(** ** [min], [max] and the pair statistics *)

Lemma key_lt_trans x y z :
  key_lt x y = true -> key_lt y z = true -> key_lt x z = true.
Proof.
  destruct x, y, z; simpl; try done.
  rewrite !Z.ltb_lt. lia.
Qed.

Lemma key_lt_neg_trans x y z :
  key_lt x y = false -> key_lt y z = false -> key_lt x z = false.
Proof.
  destruct x, y, z; simpl; try done.
  rewrite !Z.ltb_ge. lia.
Qed.

Lemma fold_min_spec {A} (key : A -> option Z) xs x :
  let m := fold_left (fun best y => if key_lt (key y) (key best) then y else best)
                     xs x in
  m ∈ x :: xs /\ forall y, y ∈ x :: xs -> key_lt (key y) (key m) = false.
Proof.
  revert x. induction xs as [|y xs IH]; intros x; simpl.
  - split; [left|]. intros y Hy. apply list_elem_of_singleton in Hy as ->.
    destruct (key x); simpl; [apply Z.ltb_irrefl | done].
  - destruct (IH (if key_lt (key y) (key x) then y else x)) as [Hin Hmin].
    split.
    + apply elem_of_cons in Hin as [Hin|Hin].
      * rewrite Hin. destruct (key_lt (key y) (key x)); [right; left | left].
      * right; right; exact Hin.
    + intros z Hz.
      destruct (key_lt (key y) (key x)) eqn:Hyx.
      * assert (Hym := Hmin y ltac:(left)).
        apply elem_of_cons in Hz as [->|Hz]; [|exact (Hmin z Hz)].
        destruct (key_lt (key x) (key _)) eqn:Hxm; [|done].
        by rewrite (key_lt_trans _ _ _ Hyx Hxm) in Hym.
      * assert (Hxm := Hmin x ltac:(left)).
        apply elem_of_cons in Hz as [->|Hz]; [done|].
        apply elem_of_cons in Hz as [->|Hz].
        -- by eapply key_lt_neg_trans.
        -- apply Hmin. by right.
Qed.

Lemma py_min_spec {A} (key : A -> option Z) xs :
  xs <> [] ->
  exists m, py_min xs key = Ok m /\ m ∈ xs
            /\ forall y, y ∈ xs -> key_lt (key y) (key m) = false.
Proof.
  destruct xs as [|x xs]; [done|]. intros _.
  eexists. split; [reflexivity|]. apply fold_min_spec.
Qed.

Lemma fold_dset_keys {V} (f : list (idpair * V) -> idpair -> V) qs :
  forall counts p,
    p ∈ dkeys (fold_left (fun c q => dset c q (f c q)) qs counts)
    <-> p ∈ dkeys counts \/ p ∈ qs.
Proof.
  induction qs as [|q qs IH]; intros counts p; simpl.
  - split; [auto | intros [H|H]; [done | inversion H]].
  - rewrite IH, dkeys_dset.
    destruct (dmem counts q) eqn:Hq.
    + unfold dmem in Hq. destruct (dget counts q) eqn:Hg; [|done].
      apply dget_Some_keys in Hg. rewrite elem_of_cons.
      split; [tauto | intros [H|[->|H]]; auto].
    + rewrite elem_of_app, list_elem_of_singleton, elem_of_cons. tauto.
Qed.

Lemma get_stats_keys ids counts p :
  p ∈ dkeys (get_stats ids counts)
  <-> p ∈ dkeys (default [] counts) \/ p ∈ adjacent_pairs ids.
Proof.
  unfold get_stats.
  rewrite (fold_dset_keys (fun c q => default 0 (dget c q) + 1)).
  by destruct counts.
Qed.

(** ** [_encode_chunk] *)

Lemma encode_chunk_while_unfold fuel m ids :
  encode_chunk_while fuel m ids =
  if bool_decide (2 <= length ids)%nat then
    match fuel with
    | O => None
    | S fuel' =>
        match py_min (dkeys (get_stats ids None)) (fun p => dget m p) with
        | Raise e => Some (Raise e)
        | Ok best =>
            match dget m best with
            | None => Some (Ok ids)
            | Some idx => encode_chunk_while fuel' m (merge ids best idx)
            end
        end
    end
  else Some (Ok ids).
Proof. destruct fuel; reflexivity. Qed.

Lemma adjacent_pairs_nonempty ids :
  (2 <= length ids)%nat -> dkeys (get_stats ids None) <> [].
Proof.
  destruct ids as [|x [|y ids]]; simpl; try lia. intros _ H.
  assert (Hin : (x, y) ∈ dkeys (get_stats (x :: y :: ids) None)).
  { apply get_stats_keys. right. rewrite adjacent_pairs_cons2. left. }
  rewrite H in Hin. inversion Hin.
Qed.

(** The fuel given by [_encode_chunk] is enough, and more changes nothing. *)
Lemma encode_chunk_while_fuel m fuel : forall ids fuel',
  (length ids <= fuel)%nat -> (length ids <= fuel')%nat ->
  exists r, encode_chunk_while fuel m ids = Some r
            /\ encode_chunk_while fuel' m ids = Some r.
Proof.
  induction fuel as [|fuel IH]; intros ids fuel' Hf Hf'.
  - rewrite !encode_chunk_while_unfold.
    rewrite bool_decide_eq_false_2 by lia. eauto.
  - rewrite !encode_chunk_while_unfold.
    case_bool_decide as Hlen; [|eauto].
    destruct fuel' as [|fuel']; [lia|].
    destruct (py_min_spec (fun p => dget m p) (dkeys (get_stats ids None)))
      as (p & -> & Hin & _); [by apply adjacent_pairs_nonempty|].
    destruct (dget m p) as [idx|]; [|eauto].
    apply get_stats_keys in Hin as [Hin|Hin]; [inversion Hin|].
    pose proof (merge_length_lt ids p idx Hin).
    apply IH; lia.
Qed.

Lemma _encode_chunk_eq self ids fuel :
  (length ids <= fuel)%nat ->
  encode_chunk_while fuel (merges self) ids = Some (_encode_chunk self ids).
Proof.
  intros Hf. unfold _encode_chunk.
  destruct (encode_chunk_while_fuel (merges self) (length ids) ids fuel)
    as (r & -> & ->); done.
Qed.

Lemma _encode_chunk_short self ids :
  (length ids < 2)%nat -> _encode_chunk self ids = Ok ids.
Proof.
  intros H. unfold _encode_chunk. rewrite encode_chunk_while_unfold.
  by rewrite bool_decide_eq_false_2 by lia.
Qed.

Lemma _encode_chunk_step self ids p idx :
  (2 <= length ids)%nat ->
  py_min (dkeys (get_stats ids None)) (fun p => dget (merges self) p) = Ok p ->
  dget (merges self) p = Some idx ->
  p ∈ adjacent_pairs ids ->
  _encode_chunk self ids = _encode_chunk self (merge ids p idx).
Proof.
  intros Hlen Hmin Hp Hin.
  assert (H := _encode_chunk_eq self ids (length ids) ltac:(lia)).
  rewrite encode_chunk_while_unfold in H.
  rewrite bool_decide_eq_true_2 in H by done.
  destruct (length ids) as [|n] eqn:Hn; [lia|].
  rewrite Hmin, Hp in H.
  rewrite _encode_chunk_eq in H; [congruence|].
  pose proof (merge_length_lt ids p idx Hin). lia.
Qed.

Lemma _encode_chunk_stop self ids p :
  (2 <= length ids)%nat ->
  py_min (dkeys (get_stats ids None)) (fun p => dget (merges self) p) = Ok p ->
  dget (merges self) p = None ->
  _encode_chunk self ids = Ok ids.
Proof.
  intros Hlen Hmin Hp.
  assert (H := _encode_chunk_eq self ids (length ids) ltac:(lia)).
  rewrite encode_chunk_while_unfold in H.
  rewrite bool_decide_eq_true_2 in H by done.
  destruct (length ids) as [|n] eqn:Hn; [lia|].
  rewrite Hmin, Hp in H. congruence.
Qed.

Lemma adjacent_pairs_length ids p :
  p ∈ adjacent_pairs ids -> (2 <= length ids)%nat.
Proof.
  destruct ids as [|x [|y ids]]; simpl; intros H; try lia; inversion H.
Qed.



(** ** The UTF-8 codec *)

Lemma between_true lo b hi : lo <= b <= hi -> between lo b hi = true.
Proof. intros. unfold between. apply andb_true_intro. rewrite !Z.leb_le. lia. Qed.

Lemma between_false lo b hi : b < lo \/ hi < b -> between lo b hi = false.
Proof.
  intros. unfold between. apply andb_false_iff. rewrite !Z.leb_gt. lia.
Qed.

Lemma decode1 b0 rest :
  b0 < 0x80 -> bytes_decode (b0 :: rest) = b0 :: bytes_decode rest.
Proof. intros. simpl. by rewrite (proj2 (Z.ltb_lt _ _)) by lia. Qed.

Lemma decode2 b0 b1 rest :
  0xC2 <= b0 <= 0xDF -> 0x80 <= b1 <= 0xBF ->
  bytes_decode (b0 :: b1 :: rest)
  = ((b0 - 0xC0) * 64 + (b1 - 0x80)) :: bytes_decode rest.
Proof.
  intros. cbn [bytes_decode].
  rewrite (proj2 (Z.ltb_ge _ _)) by lia.
  rewrite !between_true by lia. done.
Qed.

Lemma decode3 b0 b1 b2 rest :
  0xE0 <= b0 <= 0xEF -> second_ok b0 b1 = true -> 0x80 <= b2 <= 0xBF ->
  bytes_decode (b0 :: b1 :: b2 :: rest)
  = ((b0 - 0xE0) * 4096 + (b1 - 0x80) * 64 + (b2 - 0x80)) :: bytes_decode rest.
Proof.
  intros ? Hs ?. cbn [bytes_decode].
  rewrite (proj2 (Z.ltb_ge _ _)) by lia.
  rewrite (between_false 0xC2) by lia.
  rewrite (between_true 0xE0) by lia.
  rewrite Hs. rewrite between_true by lia. done.
Qed.

Lemma decode4 b0 b1 b2 b3 rest :
  0xF0 <= b0 <= 0xF4 -> second_ok b0 b1 = true -> 0x80 <= b2 <= 0xBF ->
  0x80 <= b3 <= 0xBF ->
  bytes_decode (b0 :: b1 :: b2 :: b3 :: rest)
  = ((b0 - 0xF0) * 262144 + (b1 - 0x80) * 4096 + (b2 - 0x80) * 64
     + (b3 - 0x80)) :: bytes_decode rest.
Proof.
  intros ? Hs ? ?. cbn [bytes_decode].
  rewrite (proj2 (Z.ltb_ge _ _)) by lia.
  rewrite (between_false 0xC2) by lia.
  rewrite (between_false 0xE0) by lia.
  rewrite (between_true 0xF0) by lia.
  rewrite Hs. rewrite !between_true by lia. done.
Qed.

Lemma second_ok_intro b0 b1 :
  (b0 = 0xE0 -> 0xA0 <= b1 <= 0xBF) ->
  (b0 = 0xED -> 0x80 <= b1 <= 0x9F) ->
  (b0 = 0xF0 -> 0x90 <= b1 <= 0xBF) ->
  (b0 = 0xF4 -> 0x80 <= b1 <= 0x8F) ->
  0x80 <= b1 <= 0xBF ->
  second_ok b0 b1 = true.
Proof.
  intros. unfold second_ok.
  destruct (Z.eqb_spec b0 0xE0); [apply between_true; auto|].
  destruct (Z.eqb_spec b0 0xED); [apply between_true; auto|].
  destruct (Z.eqb_spec b0 0xF0); [apply between_true; auto|].
  destruct (Z.eqb_spec b0 0xF4); [apply between_true; auto|].
  by apply between_true.
Qed.

Lemma utf8_cp_roundtrip c e :
  utf8_encode_cp c = Ok e ->
  (forall rest, bytes_decode (e ++ rest) = c :: bytes_decode rest)
  /\ Forall (fun b => 0 <= b < 256) e.
Proof.
  unfold utf8_encode_cp.
  destruct ((0 <=? c) && (c <? 0x80)) eqn:H1.
  { apply andb_true_iff in H1 as [Ha Hb].
    apply Z.leb_le in Ha. apply Z.ltb_lt in Hb.
    intros [= <-]. split; [intros; by apply decode1|].
    repeat constructor; lia. }
  destruct ((0x80 <=? c) && (c <? 0x800)) eqn:H2.
  { apply andb_true_iff in H2 as [Ha Hb].
    apply Z.leb_le in Ha. apply Z.ltb_lt in Hb.
    intros [= <-].
    assert (Hq : 2 <= c / 64 <= 31 /\ 0 <= c mod 64 < 64
                 /\ c = 64 * (c / 64) + c mod 64).
    { Z.div_mod_to_equations. lia. }
    revert Hq. generalize (c / 64) (c mod 64). intros q r Hq.
    split.
    - intros rest. simpl app. rewrite decode2 by lia. f_equal. lia.
    - repeat constructor; lia. }
  destruct ((0x800 <=? c) && (c <? 0x10000)) eqn:H3.
  { apply andb_true_iff in H3 as [Ha Hb].
    apply Z.leb_le in Ha. apply Z.ltb_lt in Hb.
    destruct ((0xD800 <=? c) && (c <=? 0xDFFF)) eqn:H4; [discriminate|].
    apply andb_false_iff in H4. rewrite !Z.leb_gt in H4.
    intros [= <-].
    assert (Hq : 0 <= c / 4096 <= 15 /\ 0 <= (c / 64) mod 64 < 64
                 /\ 0 <= c mod 64 < 64
                 /\ c = 4096 * (c / 4096) + 64 * ((c / 64) mod 64) + c mod 64).
    { Z.div_mod_to_equations. lia. }
    revert Hq. generalize (c / 4096) ((c / 64) mod 64) (c mod 64).
    intros q r1 r0 Hq.
    split.
    - intros rest. simpl app. rewrite decode3; [f_equal; lia | lia | | lia].
      apply second_ok_intro; lia.
    - repeat constructor; lia. }
  destruct ((0x10000 <=? c) && (c <=? 0x10FFFF)) eqn:H5; [|discriminate].
  apply andb_true_iff in H5 as [Ha Hb].
  apply Z.leb_le in Ha. apply Z.leb_le in Hb.
  intros [= <-].
  assert (Hq : 0 <= c / 262144 <= 4 /\ 0 <= (c / 4096) mod 64 < 64
               /\ 0 <= (c / 64) mod 64 < 64 /\ 0 <= c mod 64 < 64
               /\ c = 262144 * (c / 262144) + 4096 * ((c / 4096) mod 64)
                      + 64 * ((c / 64) mod 64) + c mod 64).
  { Z.div_mod_to_equations. lia. }
  revert Hq. generalize (c / 262144) ((c / 4096) mod 64) ((c / 64) mod 64) (c mod 64).
  intros q r2 r1 r0 Hq.
  split.
  - intros rest. simpl app. rewrite decode4; [f_equal; lia | lia | | lia | lia].
    apply second_ok_intro; lia.
  - repeat constructor; lia.
Qed.

Lemma str_encode_roundtrip s bs :
  str_encode s = Ok bs -> bytes_decode bs = s /\ Forall byte bs.
Proof.
  revert bs. induction s as [|c s IH]; simpl; intros bs.
  - intros [= <-]. by split.
  - destruct (utf8_encode_cp c) as [e|] eqn:He; [|discriminate]. simpl.
    destruct (str_encode s) as [bs'|]; [|discriminate]. simpl.
    intros [= <-].
    destruct (utf8_cp_roundtrip c e He) as [Hd Hb].
    destruct (IH bs' eq_refl) as [IH1 IH2].
    split; [by rewrite Hd, IH1 | by apply Forall_app].
Qed.

Ltac zbool :=
  repeat match goal with
    | |- context [?a <=? ?b] =>
        first [rewrite (proj2 (Z.leb_le a b)) by lia
              | rewrite (proj2 (Z.leb_gt a b)) by lia]
    | |- context [?a <? ?b] =>
        first [rewrite (proj2 (Z.ltb_lt a b)) by lia
              | rewrite (proj2 (Z.ltb_ge a b)) by lia]
    end.

Lemma utf8_encode_cp_scalar c :
  scalar c <-> exists e, utf8_encode_cp c = Ok e.
Proof.
  unfold scalar, utf8_encode_cp. split.
  - intros [H|H].
    all: destruct (Z_lt_le_dec c 0x80); [zbool; simpl; eauto|].
    all: destruct (Z_lt_le_dec c 0x800); [zbool; simpl; eauto|].
    all: destruct (Z_lt_le_dec c 0x10000); zbool; simpl; eauto.
  - intros [e He].
    destruct (Z_lt_le_dec c 0); [revert He; zbool; simpl; discriminate|].
    destruct (Z_lt_le_dec c 0xD800); [lia|].
    destruct (Z_lt_le_dec c 0xE000); [revert He; zbool; simpl; discriminate|].
    destruct (Z_lt_le_dec 0x10FFFF c); [revert He; zbool; simpl; discriminate|].
    lia.
Qed.

Lemma str_encode_scalar s :
  Forall scalar s <-> exists bs, str_encode s = Ok bs.
Proof.
  induction s as [|c s IH]; simpl.
  - split; eauto.
  - rewrite Forall_cons, IH, utf8_encode_cp_scalar.
    split.
    + intros [[e ->] [bs ->]]. simpl. eauto.
    + destruct (utf8_encode_cp c); simpl; [|intros [? [=]]].
      destruct (str_encode s); simpl; [|intros [? [=]]]. eauto.
Qed.

Lemma str_encode_app s1 s2 :
  str_encode (s1 ++ s2)
  = let! b1 := str_encode s1 in let! b2 := str_encode s2 in Ok (b1 ++ b2).
Proof.
  induction s1 as [|c s1 IH]; simpl.
  - by destruct (str_encode s2).
  - destruct (utf8_encode_cp c); simpl; [|done].
    rewrite IH. destruct (str_encode s1); simpl; [|done].
    destruct (str_encode s2); simpl; [|done].
    by rewrite app_assoc.
Qed.

Lemma decode_parts self ids parts :
  spells (vocab self) ids parts ->
  decode self ids = Ok (bytes_decode (concat parts)).
Proof.
  intros H. unfold decode.
  assert (Hloop : forall acc,
    for_each ids (fun part_bytes idx =>
      if dmem (vocab self) idx then
        let! b := dindex (vocab self) idx in Ok (part_bytes ++ [b])
      else if dmem (inverse_special_tokens self) idx then Raise NameError
      else Raise ValueError) acc = Ok (acc ++ parts)).
  { induction H as [|id b ids parts Hid H IH]; intros acc; simpl.
    - by rewrite app_nil_r.
    - unfold dmem, dindex. rewrite Hid. simpl.
      rewrite IH. by rewrite <- app_assoc. }
  by rewrite Hloop.
Qed.

Lemma merge_spells V a b idx x y :
  dget V a = Some x -> dget V b = Some y -> dget V idx = Some (x ++ y) ->
  forall ids parts, spells V ids parts ->
  exists parts', spells V (merge ids (a, b) idx) parts'
                 /\ concat parts' = concat parts.
Proof.
  intros Ha Hb Hidx ids.
  induction ids as [|u|u v ids IH1 IH2] using list_ind_two; intros parts H.
  - exists parts. by split.
  - exists parts. by split.
  - rewrite merge_cons2. simpl.
    inversion H as [|? pu ? parts1 Hu H1]; subst.
    destruct (bool_decide (u = a) && bool_decide (v = b)) eqn:Hc.
    + apply andb_true_iff in Hc as [Hua Hvb].
      apply bool_decide_eq_true in Hua, Hvb. subst.
      inversion H1 as [|? pv ? parts2 Hv H2]; subst.
      destruct (IH1 parts2 H2) as (parts' & Hs & Hcat).
      exists ((x ++ y) :: parts'). split; [by constructor|].
      simpl. rewrite Hcat.
      assert (pu = x) by congruence. assert (pv = y) by congruence.
      subst. by rewrite app_assoc.
    + destruct (IH2 parts1 H1) as (parts' & Hs & Hcat).
      exists (pu :: parts'). split; [by constructor|].
      simpl. by rewrite Hcat.
Qed.

Lemma encode_chunk_spells self :
  coherent (merges self) (vocab self) ->
  forall n ids parts, (length ids <= n)%nat ->
    spells (vocab self) ids parts ->
    exists ids' parts',
      _encode_chunk self ids = Ok ids'
      /\ spells (vocab self) ids' parts'
      /\ concat parts' = concat parts.
Proof.
  intros [_ Hm]. induction n as [|n IH]; intros ids parts Hn Hs.
  - exists ids, parts. split; [apply _encode_chunk_short; lia | done].
  - destruct (decide (length ids < 2)%nat) as [Hlen|Hlen].
    { exists ids, parts. split; [by apply _encode_chunk_short | done]. }
    destruct (py_min_spec (fun p => dget (merges self) p)
                (dkeys (get_stats ids None)))
      as (p & Hmin & Hin & _); [apply adjacent_pairs_nonempty; lia|].
    apply get_stats_keys in Hin as [Hin|Hin]; [inversion Hin|].
    destruct (dget (merges self) p) as [idx|] eqn:Hp.
    + rewrite (_encode_chunk_step self ids p idx) by (done || lia).
      destruct (Hm p idx Hp) as (x & y & Hx & Hy & Hxy).
      destruct p as [a b]. simpl in *.
      destruct (merge_spells _ a b idx x y Hx Hy Hxy ids parts Hs)
        as (parts1 & Hs1 & Hcat1).
      pose proof (merge_length_lt ids (a, b) idx Hin).
      destruct (IH (merge ids (a, b) idx) parts1 ltac:(lia) Hs1)
        as (ids' & parts' & He & Hs' & Hcat').
      exists ids', parts'. split; [done|]. split; [done | congruence].
    + exists ids, parts.
      split; [eapply _encode_chunk_stop; eauto; lia | done].
Qed.

Lemma bytes_spell V bs :
  (forall b, byte b -> dget V b = Some [b]) -> Forall byte bs ->
  exists parts, spells V bs parts /\ concat parts = bs.
Proof.
  intros HV. induction 1 as [|b bs Hb _ (parts & Hs & Hcat)].
  - exists []. split; [constructor | done].
  - exists ([b] :: parts). split; [constructor; auto|].
    simpl. by rewrite Hcat.
Qed.

Lemma encode_ordinary_spells self :
  coherent (merges self) (vocab self) ->
  forall chunks bs, str_encode (concat chunks) = Ok bs ->
  exists ids parts,
    (forall acc,
        for_each chunks (fun ids chunk =>
          let! chunk_bytes := str_encode chunk in
          let! chunk_ids := _encode_chunk self chunk_bytes in
          Ok (ids ++ chunk_ids)) acc = Ok (acc ++ ids))
    /\ spells (vocab self) ids parts
    /\ concat parts = bs.
Proof.
  intros Hco. induction chunks as [|ch chunks IH]; simpl; intros bs Hbs.
  - injection Hbs as <-. exists [], []. split; [|split; [constructor | done]].
    intros acc. by rewrite app_nil_r.
  - rewrite str_encode_app in Hbs.
    destruct (str_encode ch) as [b1|] eqn:H1; [|discriminate]. simpl in Hbs.
    destruct (str_encode (concat chunks)) as [b2|] eqn:H2; [|discriminate].
    injection Hbs as <-.
    destruct (IH b2 eq_refl) as (ids2 & parts2 & Hloop & Hs2 & Hcat2).
    destruct (str_encode_roundtrip ch b1 H1) as [_ Hb1].
    destruct (bytes_spell (vocab self) b1 (proj1 Hco) Hb1) as (p1 & Hp1 & Hc1).
    destruct (encode_chunk_spells self Hco (length b1) b1 p1 ltac:(lia) Hp1)
      as (ids1 & parts1 & He & Hs1 & Hcat1).
    exists (ids1 ++ ids2), (parts1 ++ parts2).
    split; [|split; [by apply Forall2_app|]].
    + intros acc. simpl. rewrite ?H1. simpl. rewrite He. simpl.
      rewrite Hloop. by rewrite app_assoc.
    + rewrite concat_app. congruence.
Qed.

Lemma roundtrip_coherent self txt :
  coherent (merges self) (vocab self) ->
  Forall scalar txt ->
  concat (findall (compiled_pattern self) txt) = txt ->
  exists ids, encode_ordinary self txt = Ok ids /\ decode self ids = Ok txt.
Proof.
  intros Hco Hsc Hcat.
  apply str_encode_scalar in Hsc as [bs Hbs].
  destruct (encode_ordinary_spells self Hco
              (findall (compiled_pattern self) txt) bs)
    as (ids & parts & Hloop & Hs & Hparts); [by rewrite Hcat|].
  exists ids. split.
  - unfold encode_ordinary. by rewrite Hloop.
  - rewrite (decode_parts self ids parts Hs), Hparts.
    f_equal. by apply str_encode_roundtrip.
Qed.

(** ** Training *)

Lemma dget_byte_map (l : list Z) b :
  dget (map (fun idx => (idx, [idx])) l) b
  = if bool_decide (b ∈ l) then Some [b] else None.
Proof.
  induction l as [|x l IH]; [done|]. cbn [map dget].
  destruct (decide (b = x)) as [->|Hx].
  - clear IH. case_bool_decide as H; [done | destruct H; left].
  - rewrite IH. clear IH. repeat case_bool_decide; try done.
    + exfalso. auto using list_elem_of_further.
    + exfalso. rewrite elem_of_cons in *. tauto.
Qed.

Lemma byte_vocab_get b :
  dget byte_vocab b = if bool_decide (0 <= b < 256) then Some [b] else None.
Proof.
  unfold byte_vocab. rewrite dget_byte_map.
  repeat case_bool_decide; try done; rewrite elem_of_seqZ in *; lia.
Qed.

Lemma coherent_byte_vocab : coherent [] byte_vocab.
Proof.
  split.
  - intros b Hb. rewrite byte_vocab_get. by rewrite bool_decide_eq_true_2.
  - intros p i H. discriminate.
Qed.

Lemma coherent_step M V p idx v0 v1 :
  coherent M V ->
  dget V idx = None ->
  dget V p.1 = Some v0 -> dget V p.2 = Some v1 ->
  coherent (dset M p idx) (dset V idx (v0 ++ v1)).
Proof.
  intros [Hb Hm] Hfresh H0 H1.
  assert (Hold : forall k v, dget V k = Some v ->
                             dget (dset V idx (v0 ++ v1)) k = Some v).
  { intros k v Hk. rewrite dget_dset_ne; [done | congruence]. }
  split.
  - intros b Hbyte. apply Hold. by apply Hb.
  - intros q i. rewrite dget_dset. case_decide as Hq.
    + intros [= <-]. subst q. exists v0, v1.
      repeat split; auto using dget_dset_eq.
    + intros Hi. destruct (Hm q i Hi) as (x & y & Hx & Hy & Hxy).
      exists x, y. auto.
Qed.

Lemma merge_head y l pr idx :
  (exists r, merge (y :: l) pr idx = idx :: r)
  \/ (exists r, merge (y :: l) pr idx = y :: r).
Proof.
  destruct l as [|z l]; [right; by eexists|].
  rewrite merge_cons2. destruct (_ && _); [left | right]; by eexists.
Qed.

Lemma adjacent_pairs_cons x l q :
  q ∈ adjacent_pairs (x :: l) ->
  (exists y r, l = y :: r /\ q = (x, y)) \/ q ∈ adjacent_pairs l.
Proof.
  destruct l as [|y r]; [intros H; inversion H|].
  rewrite adjacent_pairs_cons2, elem_of_cons. intros [->|H]; eauto.
Qed.

(** A merge with an id that is new brings no adjacent pair of old ids
    about, and removes the merged pair. *)
Lemma merge_adjacent pr idx q : forall l,
  q ∈ adjacent_pairs (merge l pr idx) ->
  q.1 <> idx -> q.2 <> idx ->
  q ∈ adjacent_pairs l /\ q <> pr.
Proof.
  intros l. induction l as [|x|x y l IH1 IH2] using list_ind_two;
    intros Hq H1 H2.
  - inversion Hq.
  - inversion Hq.
  - rewrite merge_cons2 in Hq. rewrite adjacent_pairs_cons2.
    destruct (bool_decide (x = pr.1) && bool_decide (y = pr.2)) eqn:Hc.
    + apply adjacent_pairs_cons in Hq as [(z & r & _ & ->)|Hq]; [done|].
      destruct (IH1 Hq H1 H2) as [Hin Hne]. split; [|done].
      right. destruct l as [|z l]; [inversion Hin|].
      rewrite adjacent_pairs_cons2. by right.
    + apply adjacent_pairs_cons in Hq as [(z & r & Hz & ->)|Hq].
      * simpl in H2.
        destruct (merge_head y l pr idx) as [[r' Hr]|[r' Hr]];
          rewrite Hr in Hz; injection Hz as -> _; [done|].
        split; [left|]. intros <-. simpl in Hc.
        by rewrite !bool_decide_eq_true_2 in Hc.
      * destruct (IH2 Hq H1 H2) as [Hin Hne]. split; [by right | done].
Qed.

Lemma fold_max_in {A} (key : A -> option Z) xs x :
  fold_left (fun best y => if key_lt (key best) (key y) then y else best) xs x
  ∈ x :: xs.
Proof.
  revert x. induction xs as [|y xs IH]; intros x; simpl; [left|].
  specialize (IH (if key_lt (key x) (key y) then y else x)).
  apply elem_of_cons in IH as [->|IH].
  - destruct (key_lt _ _); [right; left | left].
  - by do 2 right.
Qed.

Lemma py_max_in {A} (key : A -> option Z) xs m :
  py_max xs key = Ok m -> m ∈ xs.
Proof.
  destruct xs as [|x xs]; [discriminate|]. intros [= <-]. apply fold_max_in.
Qed.

Lemma train_stats_keys ids : forall stats p,
  p ∈ dkeys (fold_left (fun stats chunk_ids => get_stats chunk_ids (Some stats))
                       ids stats)
  <-> p ∈ dkeys stats \/ exists chunk, chunk ∈ ids /\ p ∈ adjacent_pairs chunk.
Proof.
  induction ids as [|c ids IH]; intros stats p; simpl.
  - split; [auto | intros [H|(c & H & _)]; [done | inversion H]].
  - rewrite IH, get_stats_keys. simpl. split.
    + intros [[H|H]|(c' & H & H')]; eauto.
      * right. exists c. split; [left | done].
      * right. exists c'. split; [by right | done].
    + intros [H|(c' & H & H')]; eauto.
      apply elem_of_cons in H as [->|H]; eauto.
Qed.

Lemma dkeys_dget {K V} `{EqDecision K} (d : list (K * V)) k :
  k ∈ dkeys d -> exists v, dget d k = Some v.
Proof.
  intros H. destruct (dget d k) eqn:Hg; eauto.
  by apply dget_None_keys in Hg.
Qed.

Lemma dset_Forall {K V} `{EqDecision K} (P : K * V -> Prop) d k v :
  Forall P d -> (forall k', P (k', v)) -> Forall P (dset d k v).
Proof.
  induction 1 as [|[k0 v0] d H0 H IH]; intros Hv; simpl.
  - repeat constructor. apply Hv.
  - case_decide; constructor; auto.
Qed.

Lemma dset_hd {V} (d : list (Z * V)) k v k0 v0 :
  hd_error d = Some (k0, v0) -> k <> k0 ->
  hd_error (dset d k v) = Some (k0, v0).
Proof.
  destruct d as [|[k1 v1] d]; simpl; [discriminate|].
  intros [= -> ->] Hne. by case_decide.
Qed.

Lemma train_inv_step i ids M V p v0 v1 :
  train_inv i ids M V ->
  (exists chunk, chunk ∈ ids /\ p ∈ adjacent_pairs chunk) ->
  dget V p.1 = Some v0 -> dget V p.2 = Some v1 ->
  train_inv (i + 1) (map (fun chunk_ids => merge chunk_ids p (256 + i)) ids)
            (dset M p (256 + i)) (dset V (256 + i) (v0 ++ v1)).
Proof.
  intros (Hi & Hco & Hdom & HlenV & HlenM & Hval & Hhd & Hadj)
         (c & Hc & Hpc) H0 H1.
  assert (Hfresh : dget V (256 + i) = None).
  { destruct (dget V (256 + i)) eqn:Hk; [|done]. apply Hdom in Hk. lia. }
  assert (HpM : dget M p = None).
  { apply dget_None_keys. intros Hin. by apply (Hadj p c). }
  split; [lia|].
  split; [by apply coherent_step|].
  split.
  { intros k v. rewrite dget_dset. case_decide; [lia|].
    intros Hk. apply Hdom in Hk. lia. }
  split; [rewrite dset_length; unfold dmem; rewrite Hfresh; lia|].
  split; [rewrite dset_length; unfold dmem; rewrite HpM; lia|].
  split; [apply dset_Forall; [done | simpl; lia]|].
  split; [apply dset_hd; [done | lia]|].
  - intros q chunk' Hq Hchunk' Hin.
    apply list_elem_of_fmap in Hchunk' as (chunk & -> & Hchunk).
    assert (Hqb : q.1 < 256 + i /\ q.2 < 256 + i).
    { rewrite dkeys_dset in Hq. unfold dmem in Hq. rewrite HpM in Hq.
      apply elem_of_app in Hq as [Hq|Hq].
      - apply dkeys_dget in Hq as [j Hj].
        destruct (proj2 Hco q j Hj) as (x & y & Hx & Hy & _).
        apply Hdom in Hx, Hy. lia.
      - apply list_elem_of_singleton in Hq as ->.
        apply Hdom in H0, H1. lia. }
    destruct (merge_adjacent p (256 + i) q chunk Hin) as [Hin' Hne];
      [lia | lia |].
    rewrite dkeys_dset in Hq. unfold dmem in Hq. rewrite HpM in Hq.
    apply elem_of_app in Hq as [Hq|Hq].
    + by apply (Hadj q chunk).
    + by apply list_elem_of_singleton in Hq.
Qed.

Lemma train_loop_inv n : forall i ids M V M' V',
  train_inv i ids M V ->
  train_loop n i ids M V = Ok (M', V') ->
  exists ids', train_inv (i + Z.of_nat n) ids' M' V'.
Proof.
  induction n as [|n IH]; intros i ids M V M' V' Hinv; simpl.
  - intros [= <- <-]. exists ids. by replace (i + Z.of_nat 0) with i by lia.
  - destruct (py_max _ _) as [p|] eqn:Hmax; [|discriminate]. simpl.
    unfold dindex.
    destruct (dget V p.1) as [v0|] eqn:H0; [|discriminate]. simpl.
    destruct (dget V p.2) as [v1|] eqn:H1; [|discriminate]. simpl.
    intros Hloop.
    apply py_max_in, train_stats_keys in Hmax as [Hmax|Hmax];
      [inversion Hmax|].
    pose proof (train_inv_step i ids M V p v0 v1 Hinv Hmax H0 H1) as Hinv'.
    destruct (IH _ _ _ _ _ _ Hinv' Hloop) as [ids' H'].
    exists ids'. by replace (i + Z.of_nat (S n)) with (i + 1 + Z.of_nat n) by lia.
Qed.

Lemma train_inv_init ids : train_inv 0 ids [] byte_vocab.
Proof.
  split; [done|]. split; [apply coherent_byte_vocab|].
  split.
  { intros k v. rewrite byte_vocab_get. case_bool_decide; [lia | discriminate]. }
  do 4 (split; [done|]).
  intros p chunk H. inversion H.
Qed.

Lemma train_state_inv self txt vocab_size verbose self' :
  train self txt vocab_size verbose = Ok self' ->
  state_inv self' /\ Z.of_nat (length (merges self')) = vocab_size - 256.
Proof.
  unfold train. destruct (negb _) eqn:Hsize; [discriminate|].
  apply negb_false_iff, Z.leb_le in Hsize.
  destruct (encode_chunks _) as [ids|]; [|discriminate]. simpl.
  destruct (train_loop _ _ _ _ _) as [[M V]|] eqn:Hloop; [|discriminate].
  simpl. intros [= <-]. unfold state_inv. simpl.
  destruct (train_loop_inv _ _ _ _ _ _ _ (train_inv_init ids) Hloop)
    as (ids' & _ & Hco & _ & HlenV & HlenM & Hval & Hhd & _).
  split; [|lia]. split; [done|]. split; [lia|]. done.
Qed.

Lemma tokenizer_state_inv self : tokenizer_state self -> state_inv self.
Proof.
  induction 1 as [re_compile pat self Hinit| |]; simpl.
  - unfold RegexTokenizer_init in Hinit.
    change (_build_vocab [] []) with (Ok byte_vocab) in Hinit. simpl in Hinit.
    destruct (re_compile _); [|discriminate].
    injection Hinit as <-. unfold state_inv. simpl.
    split; [apply coherent_byte_vocab|]. done.
  - by eapply train_state_inv.
  - done.
Qed.

Lemma sample_init :
  RegexTokenizer_init (re_compile ascii_tables) (Some (str "[a-z]+"))
  = Ok sample.
Proof. reflexivity. Qed.

Lemma sample_state : tokenizer_state sample.
Proof. eapply state_init, sample_init. Qed.

(** ** Round trip *)

(** C1, as amended.  In every state (after the constructor, [train] and
    [register_special_tokens]), for a text of Unicode scalar values that the
    compiled split pattern partitions (the chunks [re.findall] returns
    concatenate to the text), [decode(encode_ordinary(text))] is the text. *)
Theorem decode_encode_ordinary_roundtrip (self : Tokenizer) (txt : text) :
  tokenizer_state self ->
  Forall scalar txt ->
  concat (findall (compiled_pattern self) txt) = txt ->
  (let! ids := encode_ordinary self txt in decode self ids) = Ok txt.
Proof.
  intros Hst Hsc Hcat.
  destruct (roundtrip_coherent self txt) as (ids & -> & Hdec); try done.
  by apply tokenizer_state_inv.
Qed.

Lemma decode_encode_ordinary_roundtrip_witness :
  encode_ordinary trained_sample (str "hello world")
  = Ok [258; 111; 32; 119; 111; 114; 108; 100]
  /\ (let! ids := encode_ordinary trained_sample (str "hello world") in
      decode trained_sample ids) = Ok (str "hello world").
Proof.
  split; [vm_compute; reflexivity|].
  apply (decode_encode_ordinary_roundtrip trained_sample (str "hello world")).
  - apply (state_train gpt2_sample (str "hello hello world") 259 false).
    + apply (state_init (re_compile ascii_tables) (Some GPT2_SPLIT_PATTERN)).
      vm_compute. reflexivity.
    + vm_compute. reflexivity.
  - repeat constructor; unfold scalar; lia.
  - vm_compute. reflexivity.
Defined.

(** C1 as stated fails: the untrained tokenizer with the pattern [[a-z]+]
    has no special token, and "a b" comes back as "ab", the space being in no
    chunk; and under the GPT-2 pattern, whose chunks cover every text, the
    [str] of a lone surrogate cannot be encoded. *)
Lemma roundtrip_fails_on_uncovered_text :
  (tokenizer_state sample
   /\ special_tokens sample = []
   /\ (let! ids := encode_ordinary sample (str "a b") in decode sample ids)
      = Ok (str "ab")
   /\ str "ab" <> str "a b")
  /\ (tokenizer_state gpt2_sample
      /\ special_tokens gpt2_sample = []
      /\ encode_ordinary gpt2_sample [0xD800] = Raise UnicodeEncodeError).
Proof.
  split.
  - split; [exact sample_state|]. split; [reflexivity|].
    split; [vm_compute; reflexivity | discriminate].
  - split; [|split; [reflexivity | vm_compute; reflexivity]].
    apply (state_init (re_compile ascii_tables) (Some GPT2_SPLIT_PATTERN)).
    vm_compute. reflexivity.
Qed.

(** ** The vocabulary and the special tokens *)

Lemma inverse_keys (st : list (text * Z)) : forall inv v,
  v ∈ dkeys (fold_left (fun inv '(k, v) => dset inv v k) st inv)
  <-> v ∈ dkeys inv \/ v ∈ map snd st.
Proof.
  induction st as [|[k0 v0] st IH]; intros inv v; simpl.
  - split; [auto | intros [H|H]; [done | inversion H]].
  - rewrite IH, dkeys_dset, elem_of_cons.
    destruct (dmem inv v0) eqn:Hm.
    + unfold dmem in Hm. destruct (dget inv v0) eqn:Hg; [|done].
      apply dget_Some_keys in Hg.
      split; [tauto | intros [H|[->|H]]; auto].
    + rewrite elem_of_app, list_elem_of_singleton. tauto.
Qed.

(** ** [save] *)


(** What [load] makes of the model file [save] wrote before it raised: with
    a special token in it, [NameError] at the token's line. *)
Lemma load_special_token_raises_NameError (render_token : bytes -> text) :
  load sample (str "m.model") (save render_token sample_END (str "m") []).1
  = (sample, Raise NameError).
Proof. vm_compute. reflexivity. Qed.

(** Without special tokens [load] reads the merges back in their order,
    with the ids 256, 257, ... of [train]: here the three merges learned
    from "aaabdaaabac". *)
Lemma load_reads_merges_back (render_token : bytes -> text) :
  exists trained loaded,
    train sample (str "aaabdaaabac") 259 false = Ok trained
    /\ load sample (str "m.model") (save render_token trained (str "m") []).1
       = (loaded, Ok tt)
    /\ merges trained = [((97, 97), 256); ((256, 97), 257); ((257, 98), 258)]
    /\ merges loaded = merges trained
    /\ vocab loaded = vocab trained
    /\ pattern loaded = pattern trained.
Proof.
  eexists _, _. split; [vm_compute; reflexivity|].
  split; [vm_compute; reflexivity|].
  repeat split.
Qed.

(** ** [train] on a short corpus *)

(** A round that finds no adjacent pair raises: [max] of an empty [dict]. *)
Lemma train_loop_without_pairs n i ids M V :
  Forall (fun chunk_ids => (length chunk_ids < 2)%nat) ids ->
  train_loop (S n) i ids M V = Raise ValueError.
Proof.
  intros Hshort.
  assert (Hstats : forall stats,
    fold_left (fun stats chunk_ids => get_stats chunk_ids (Some stats))
              ids stats = stats).
  { induction Hshort as [|c ids Hc _ IH]; intros stats; simpl; [done|].
    rewrite IH. by destruct c as [|x [|y c]]; simpl in *; try lia. }
  simpl. by rewrite Hstats.
Qed.

(** C7, on the code.  [train("a", 257)] on the sample tokenizer raises
    [ValueError]: the one chunk has no pair to merge. *)
Theorem train_raises_on_short_corpus :
  tokenizer_state sample
  /\ train sample (str "a") 257 false = Raise ValueError.
Proof.
  split; [exact sample_state|].
  unfold train.
  change (negb (256 <=? 257)) with false. cbv iota.
  change (encode_chunks (findall (compiled_pattern sample) (str "a")))
    with (Ok [[97]]).
  cbn [bind]. change (Z.to_nat (257 - 256)) with 1%nat.
  rewrite train_loop_without_pairs; [done|].
  repeat constructor.
Qed.

(** ** [decode] *)

(** What [decode] does at the first id that is not in the vocabulary. *)
Lemma decode_outside_vocab self pre parts idx post :
  spells (vocab self) pre parts ->
  dget (vocab self) idx = None ->
  decode self (pre ++ idx :: post)
  = if dmem (inverse_special_tokens self) idx
    then Raise NameError else Raise ValueError.
Proof.
  intros Hpre Hidx. unfold decode.
  assert (Hloop : forall acc,
    for_each (pre ++ idx :: post) (fun part_bytes idx =>
      if dmem (vocab self) idx then
        let! b := dindex (vocab self) idx in Ok (part_bytes ++ [b])
      else if dmem (inverse_special_tokens self) idx then Raise NameError
      else Raise ValueError) acc
    = if dmem (inverse_special_tokens self) idx
      then Raise NameError else Raise ValueError).
  { induction Hpre as [|id b pre parts Hid _ IH]; intros acc; simpl.
    - unfold dmem at 1. rewrite Hidx. by destruct (dmem _ _).
    - unfold dmem at 1, dindex. rewrite Hid. simpl. apply IH. }
  rewrite Hloop. by destruct (dmem _ _).
Qed.

(** C9, on the code.  An id that is in the reverse map of the special
    tokens and not in the vocabulary makes [decode] raise [NameError]
    instead of resolving to the token's UTF-8 bytes: here id 100256 of
    "<END>", after the byte id of "h". *)
Theorem decode_special_id_raises_NameError :
  tokenizer_state sample_END
  /\ dget (vocab sample_END) 100256 = None
  /\ dget (inverse_special_tokens sample_END) 100256 = Some END
  /\ decode sample_END [104; 100256] = Raise NameError.
Proof.
  split; [apply state_register, sample_state|].
  split; [reflexivity|]. split; [reflexivity|].
  apply (decode_outside_vocab sample_END [104] [[104]] 100256 []).
  - repeat constructor.
  - reflexivity.
Qed.

(** ** [encode] and the special tokens *)

(** C4.  With "<END>" registered at 100256, [encode("hi<END>bye", "all")]
    is [encode_ordinary("hi")], then 100256, then [encode_ordinary("bye")]
    (and raises what either of them raises); with "none_raise" the call
    fails, with [AssertionError]. *)
Theorem encode_END_in_place (self : Tokenizer) :
  let self' := register_special_tokens self [(END, 100256)] in
  encode self' (str "hi<END>bye") (AllowedStr (str "all"))
  = (let! hi := encode_ordinary self' (str "hi") in
     let! bye := encode_ordinary self' (str "bye") in
     Ok (hi ++ [100256] ++ bye))
  /\ encode self' (str "hi<END>bye") (AllowedStr (str "none_raise"))
     = Raise AssertionError.
Proof.
  split; [|reflexivity].
  unfold encode. cbn [special_tokens register_special_tokens].
  change (bool_decide (str "all" = str "all")) with true. cbn [bind].
  change (re_split (dkeys [(END, 100256)]) (str "hi<END>bye"))
    with [str "hi"; END; str "bye"].
  cbn [for_each].
  change (dget [(END, 100256)] (str "hi")) with (@None Z).
  change (dget [(END, 100256)] END) with (Some 100256).
  change (dget [(END, 100256)] (str "bye")) with (@None Z).
  cbn [bind].
  destruct (encode_ordinary _ (str "hi")) as [hi|]; [|done]. cbn [bind app].
  destruct (encode_ordinary _ (str "bye")) as [bye|]; [|done]. cbn [bind].
  by rewrite <- app_assoc.
Qed.

Lemma startswith_contains s p : startswith s p = true -> contains s p = true.
Proof. destruct s; simpl; intros ->; done. Qed.

Lemma first_match_None toks s :
  (forall k, k ∈ toks -> startswith s k = false) -> first_match toks s = None.
Proof.
  unfold first_match. induction toks as [|k toks IH]; intros H; [done|].
  simpl. rewrite (H k) by left. simpl. apply IH. intros k' Hk'.
  apply H. by right.
Qed.

Lemma split_from_none toks : forall s seg,
  (forall k, k ∈ toks -> contains s k = false) ->
  split_from toks s O seg = [seg ++ s].
Proof.
  induction s as [|c s IH]; intros seg H; simpl.
  - by rewrite app_nil_r.
  - rewrite first_match_None.
    + rewrite IH; [by rewrite <- app_assoc|].
      intros k Hk. specialize (H k Hk). simpl in H.
      by apply orb_false_iff in H as [_ H].
    + intros k Hk. specialize (H k Hk). simpl in H.
      apply orb_false_iff in H as [H _]. exact H.
Qed.

Lemma re_split_none toks s :
  (forall k, k ∈ toks -> contains s k = false) -> re_split toks s = [s].
Proof. intros H. unfold re_split. by rewrite split_from_none. Qed.

Lemma contains_refl s : contains s s = true.
Proof.
  assert (H : startswith s s = true).
  { induction s as [|c s IH]; simpl; [done|]. by rewrite Z.eqb_refl. }
  by apply startswith_contains.
Qed.

Lemma filter_keys_in {V} (P : text -> Prop) `{forall k, Decision (P k)}
    (d : list (text * V)) k :
  k ∈ dkeys (filter (fun '(k, _) => P k) d) -> P k /\ k ∈ dkeys d.
Proof.
  unfold dkeys. intros Hk.
  apply list_elem_of_fmap in Hk as ([k' v] & -> & Hin).
  apply list_elem_of_filter in Hin as [HP Hin]. split; [done|].
  apply list_elem_of_fmap. by exists (k', v).
Qed.


(** ** The matcher *)

Lemma advance_Some s f s' out :
  advance s f s' = Some out -> (length s' < length s)%nat /\ f s' = Some out.
Proof.
  unfold advance. destruct (Nat.ltb_spec (length s') (length s)); [done|].
  discriminate.
Qed.

Lemma rep_greedy_suffix body strict k :
  well_behaved body strict ->
  forall n s out, rep_greedy body k n s = Some out ->
    exists s', s' `suffix_of` s /\ k s' = Some out.
Proof.
  intros Hb. induction n as [|n IH]; intros s out; simpl.
  - intros H. by exists s.
  - destruct (body s _) as [o|] eqn:Hbody.
    + intros [= ->]. apply Hb in Hbody as (s1 & Hs1 & Hk & _).
      apply advance_Some in Hk as [_ Hk].
      destruct (IH _ _ Hk) as (s2 & Hs2 & Hk2).
      exists s2. split; [by etrans | done].
    + intros H. by exists s.
Qed.

Lemma rep_lazy_suffix body strict k :
  well_behaved body strict ->
  forall n s out, rep_lazy body k n s = Some out ->
    exists s', s' `suffix_of` s /\ k s' = Some out.
Proof.
  intros Hb. induction n as [|n IH]; intros s out; simpl.
  - destruct (k s) eqn:Hk; [|discriminate]. intros [= ->]. by exists s.
  - destruct (k s) eqn:Hk; [intros [= ->]; by exists s|].
    intros Hbody. apply Hb in Hbody as (s1 & Hs1 & Hk1 & _).
    apply advance_Some in Hk1 as [_ Hk1].
    destruct (IH _ _ Hk1) as (s2 & Hs2 & Hk2).
    exists s2. split; [by etrans | done].
Qed.

Lemma rep_must_suffix body strict more hi lo k :
  well_behaved body strict ->
  (forall n s out, more n s = Some out ->
     exists s', s' `suffix_of` s /\ k s' = Some out) ->
  forall m s out, rep_must body more hi lo m s = Some out ->
    exists s', s' `suffix_of` s /\ k s' = Some out
               /\ (strict = true -> (0 < m)%nat -> (length s' < length s)%nat).
Proof.
  intros Hb Hmore. induction m as [|m IH]; intros s out; simpl.
  - intros H. apply Hmore in H as (s' & Hs & Hk).
    exists s'. split; [done|]. split; [done | lia].
  - intros H. apply Hb in H as (s1 & Hs1 & Hk1 & Hlt1).
    apply IH in Hk1 as (s2 & Hs2 & Hk2 & _).
    exists s2. split; [by etrans|]. split; [done|].
    intros Hstrict _. specialize (Hlt1 Hstrict).
    apply suffix_length in Hs2. lia.
Qed.

Lemma rmatch_well_behaved T r :
  well_behaved (rmatch T r) (negb (nullable r)).
Proof.
  induction r as [|icase c|r1 IH1 r2 IH2|r1 IH1 r2 IH2|r1 IH1 lo hi q
                  |positive r1 IH1]; intros s k out; simpl.
  - intros H. exists s. by split.
  - destruct s as [|x s]; [discriminate|].
    destruct (matches_class _ _ _ _); [|discriminate].
    intros H. exists s. split; [by apply suffix_cons_r|].
    split; [done | simpl; lia].
  - intros H. apply IH1 in H as (s1 & Hs1 & Hk1 & Hlt1).
    apply IH2 in Hk1 as (s2 & Hs2 & Hk2 & Hlt2).
    exists s2. split; [by etrans|]. split; [done|].
    rewrite negb_andb. intros Hstrict.
    pose proof (suffix_length _ _ Hs1). pose proof (suffix_length _ _ Hs2).
    apply orb_true_iff in Hstrict as [Hn|Hn]; [specialize (Hlt1 Hn)
                                               | specialize (Hlt2 Hn)]; lia.
  - rewrite negb_orb.
    destruct (rmatch T r1 s k) as [o|] eqn:H1.
    + intros [= ->]. apply IH1 in H1 as (s1 & Hs1 & Hk1 & Hlt1).
      exists s1. split; [done|]. split; [done|].
      intros [Hn _]%andb_true_iff. auto.
    + intros H2. apply IH2 in H2 as (s2 & Hs2 & Hk2 & Hlt2).
      exists s2. split; [done|]. split; [done|].
      intros [_ Hn]%andb_true_iff. auto.
  - assert (Hrep : forall k' out',
      rep_must (rmatch T r1)
        (match q with
         | Lazy => rep_lazy (rmatch T r1) k'
         | _ => rep_greedy (rmatch T r1) k'
         end) hi lo lo s = Some out' ->
      exists s', s' `suffix_of` s /\ k' s' = Some out'
                 /\ (negb (bool_decide (lo = O) || nullable r1) = true ->
                     (length s' < length s)%nat)).
    { intros k' out' H.
      apply (rep_must_suffix _ _ _ _ _ k' IH1) in H as (s' & Hs & Hk & Hlt).
      - exists s'. split; [done|]. split; [done|].
        rewrite negb_orb. intros [Hlo Hn]%andb_true_iff.
        apply Hlt; [done|].
        apply negb_true_iff, bool_decide_eq_false in Hlo. lia.
      - destruct q; intros n s0 out0 H0;
          eauto using rep_greedy_suffix, rep_lazy_suffix. }
    destruct q; try apply Hrep.
    destruct (rep_must _ _ _ _ _ _) as [s1|] eqn:H1; [|discriminate].
    intros Hk. apply Hrep in H1 as (s' & Hs & [= ->] & Hlt). eauto.
  - intros H. exists s. split; [done|]. split; [|done].
    by destruct (rmatch T r1 s Some), positive.
Qed.

Lemma rx_scan_concat T r :
  nullable r = false ->
  (forall x s, is_Some (rmatch T r (x :: s) Some)) ->
  forall fuel s, (length s <= fuel)%nat -> concat (rx_scan T fuel r s) = s.
Proof.
  intros Hnull Hacc. induction fuel as [|fuel IH]; intros s Hlen.
  - destruct s; [done | simpl in Hlen; lia].
  - destruct s as [|x s]; [done|]. cbn [rx_scan].
    destruct (Hacc x s) as [rest Hrest]. rewrite Hrest.
    destruct (rmatch_well_behaved T r _ _ _ Hrest)
      as (s' & [m Hm] & [= ->] & Hlt).
    rewrite Hnull in Hlt. specialize (Hlt eq_refl).
    rewrite (proj2 (Nat.ltb_lt _ _)) by done.
    cbn [concat]. rewrite IH by (simpl in *; lia).
    rewrite Hm. rewrite length_app.
    replace (length m + length rest - length rest)%nat with (length m) by lia.
    by rewrite take_app_length.
Qed.

(** ** The GPT-2 pattern *)

Lemma rep_greedy_total body k n s :
  (forall s', is_Some (k s')) -> is_Some (rep_greedy body k n s).
Proof.
  intros Hk. destruct n as [|n]; simpl; [done|].
  by destruct (body s _).
Qed.

Lemma Plus_Cls_accepts T icase c x s k :
  matches_class T icase c x = true ->
  (forall s', is_Some (k s')) ->
  is_Some (rmatch T (Plus (Cls icase c)) (x :: s) k).
Proof.
  intros Hx Hk. cbn. rewrite Hx. by apply rep_greedy_total.
Qed.

Lemma Opt_accepts T r s k :
  is_Some (k s) -> is_Some (rmatch T (Opt r) s k).
Proof. intros Hk. cbn. by destruct (rmatch T r s _). Qed.

Lemma Alt_accepts T r1 r2 s k :
  is_Some (rmatch T r1 s k) \/ is_Some (rmatch T r2 s k) ->
  is_Some (rmatch T (Alt r1 r2) s k).
Proof.
  cbn. destruct (rmatch T r1 s k); [done|]. by intros [[? [=]]|H].
Qed.

Lemma gpt2_accepts T x s : is_Some (rmatch T gpt2_regex (x :: s) Some).
Proof.
  assert (Hrun : forall c, matches_class T false c x = true ->
                           is_Some (rmatch T (Cat (Opt re_blank)
                                                 (Plus (Cls false c)))
                                      (x :: s) Some)).
  { intros c Hc. cbn [rmatch]. apply Opt_accepts.
    apply Plus_Cls_accepts; [done | eauto]. }
  unfold gpt2_regex.
  apply Alt_accepts; right.
  destruct (property T (str "L") x) eqn:HL.
  { apply Alt_accepts; left. by apply Hrun. }
  apply Alt_accepts; right.
  destruct (property T (str "N") x) eqn:HN.
  { apply Alt_accepts; left. by apply Hrun. }
  apply Alt_accepts; right.
  destruct (space T x) eqn:HS.
  - do 2 (apply Alt_accepts; right).
    apply Plus_Cls_accepts; [done | eauto].
  - apply Alt_accepts; left. apply Hrun.
    unfold matches_class. cbn [in_class]. by rewrite HS, HL, HN.
Qed.


Lemma rx_scan_nonempty T r :
  nullable r = false ->
  forall fuel s, Forall (fun chunk => chunk <> []) (rx_scan T fuel r s).
Proof.
  intros Hnull. induction fuel as [|fuel IH]; intros s; [constructor|].
  destruct s as [|x s]; [constructor|]. cbn [rx_scan].
  destruct (rmatch T r (x :: s) Some) as [rest|] eqn:Hrest; [|apply IH].
  destruct (Nat.ltb_spec (length rest) (length (x :: s))) as [Hlt|]; [|apply IH].
  constructor; [|apply IH].
  intros Hnil. apply (f_equal length) in Hnil.
  rewrite length_take in Hnil. simpl in *. lia.
Qed.

(** ** The default split pattern *)

Lemma gpt2_parse : re_parse GPT2_SPLIT_PATTERN = Parsed gpt2_regex [].
Proof. vm_compute. reflexivity. Qed.

Lemma gpt4_parse : re_parse GPT4_SPLIT_PATTERN = SyntaxError.
Proof. vm_compute. reflexivity. Qed.

(** The last alternative of the default literal, [\s+ ], wants a space after
    the white space it matches: a space before a digit is no match for it,
    where the [\s+] of the GPT-2 literal matches it. *)
Lemma last_alternative_needs_a_space :
  re_parse (str "\s+ ") = Parsed (Cat (Plus re_space) re_blank) []
  /\ rmatch ascii_tables (Cat (Plus re_space) re_blank) (str " 1") Some = None
  /\ rmatch ascii_tables (Plus re_space) (str " 1") Some = Some (str "1").
Proof. repeat split; vm_compute; reflexivity. Qed.

(** X26.  With the GPT-2 pattern the round trip holds for every text of
    scalar values, in every state reached by the constructor, [train] and
    [register_special_tokens]. *)
Corollary gpt2_roundtrip T self txt :
  tokenizer_state self ->
  compiled_pattern self = rx_compile T gpt2_regex ->
  Forall scalar txt ->
  (let! ids := encode_ordinary self txt in decode self ids) = Ok txt.
Proof.
  intros Hst Hpat Hsc.
  destruct (roundtrip_coherent self txt) as (ids & -> & Hdec); try done.
  - by apply tokenizer_state_inv.
  - rewrite Hpat. cbn [findall rx_compile].
    apply rx_scan_concat; [reflexivity | apply gpt2_accepts | done].
Qed.

(** C6, on the code.  The constructor without a pattern compiles the
    literal [GPT4_SPLIT_PATTERN], and the library refuses it: its
    [\s+(?1\S)] opens a call of group 1 that is not closed after the
    number, where the GPT-2 literal next to it has the lookahead
    [\s+(?!\S)].  So there is no chunk splitter under the default pattern.
    Under the GPT-2 pattern the chunks are as the specification has them:
    none is empty, and they concatenate to the text. *)
Theorem default_pattern_is_refused (T : tables) :
  RegexTokenizer_init (re_compile T) None = Raise RegexError
  /\ exists self,
       RegexTokenizer_init (re_compile T) (Some GPT2_SPLIT_PATTERN) = Ok self
       /\ forall txt,
            concat (findall (compiled_pattern self) txt) = txt
            /\ Forall (fun chunk => chunk <> [])
                      (findall (compiled_pattern self) txt).
Proof.
  split.
  - unfold RegexTokenizer_init.
    change (_build_vocab [] []) with (Ok byte_vocab). cbn [bind].
    unfold re_compile. by rewrite gpt4_parse.
  - eexists. split.
    + unfold RegexTokenizer_init.
      change (_build_vocab [] []) with (Ok byte_vocab). cbn [bind].
      unfold re_compile. rewrite gpt2_parse.
      change (nullable gpt2_regex) with false. cbn [bind]. reflexivity.
    + intros txt. cbn [compiled_pattern rx_compile findall]. split.
      * apply rx_scan_concat; [reflexivity | apply gpt2_accepts | done].
      * by apply rx_scan_nonempty.
Qed.

(** * Further properties of the code *)

(** ** The trained sample is a state *)

Lemma trained_sample_state : tokenizer_state trained_sample.
Proof.
  apply (state_train gpt2_sample (str "hello hello world") 259 false).
  - apply (state_init (re_compile ascii_tables) (Some GPT2_SPLIT_PATTERN)).
    vm_compute. reflexivity.
  - vm_compute. reflexivity.
Qed.

(** ** [get_stats], [merge] and [_encode_chunk] *)

Lemma fold_counts (qs : list idpair) : forall (c : list (idpair * Z)) p,
  dget (fold_left (fun c q => dset c q (default 0 (dget c q) + 1)) qs c) p
  = if bool_decide (p ∈ qs)
    then Some (default 0 (dget c p) + Z.of_nat (length (filter (fun q => q = p) qs)))
    else dget c p.
Proof.
  induction qs as [|q qs IH]; intros c p; cbn [fold_left].
  - rewrite bool_decide_eq_false_2; [done | apply not_elem_of_nil].
  - rewrite IH, dget_dset.
    destruct (decide (p = q)) as [->|Hne].
    + rewrite (bool_decide_eq_true_2 (q ∈ q :: qs)) by apply list_elem_of_here.
      rewrite filter_cons_True by done. simpl length.
      case_bool_decide as Hin.
      * f_equal. simpl. lia.
      * f_equal.
        assert (filter (fun q0 => q0 = q) qs = []) as ->.
        { destruct (filter _ qs) as [|z zs] eqn:E; [done|].
          assert (z ∈ filter (fun q0 => q0 = q) qs) as Hz by (rewrite E; left).
          apply list_elem_of_filter in Hz as [-> Hz]. done. }
        simpl. lia.
    + rewrite filter_cons_False by congruence.
      case_bool_decide as Hin.
      * rewrite bool_decide_eq_true_2 by (by apply list_elem_of_further). done.
      * rewrite bool_decide_eq_false_2; [done|].
        intros [?|?]%elem_of_cons; done.
Qed.

(** X1.  [get_stats(ids, counts)] adds, for every pair, the number of times
    the pair occurs among the adjacent pairs of [ids] to the count it had
    in [counts] (0 if it had none); the entry of a pair that does not occur
    in [ids] is left as it was. *)
Theorem get_stats_counts ids counts p :
  dget (get_stats ids counts) p
  = if bool_decide (p ∈ adjacent_pairs ids)
    then Some (default 0 (dget (default [] counts) p) + pair_count p ids)
    else dget (default [] counts) p.
Proof.
  unfold get_stats, pair_count. rewrite fold_counts. by destruct counts.
Qed.

Lemma get_stats_example :
  get_stats [1; 2; 1; 2; 3] None = [((1, 2), 2); ((2, 1), 1); ((2, 3), 1)].
Proof. reflexivity. Qed.

Lemma merge_without_pair ids pr idx :
  pr ∉ adjacent_pairs ids -> merge ids pr idx = ids.
Proof.
  induction ids as [|x rest IH]; [done|].
  destruct rest as [|y rest']; [done|].
  rewrite adjacent_pairs_cons2, merge_cons2. intros Hnotin.
  apply not_elem_of_cons in Hnotin as [Hne Hnotin].
  destruct (bool_decide (x = pr.1) && bool_decide (y = pr.2)) eqn:E.
  - apply andb_true_iff in E as [->%bool_decide_eq_true ->%bool_decide_eq_true].
    destruct pr; done.
  - by rewrite IH.
Qed.

(** X2.  [merge] returns a list equal to [ids] exactly when the pair does
    not occur among the adjacent pairs of [ids]. *)
Theorem merge_absent_pair ids pr idx :
  merge ids pr idx = ids <-> pr ∉ adjacent_pairs ids.
Proof.
  split; [|apply merge_without_pair].
  intros Heq Hin. pose proof (merge_length_lt ids pr idx Hin) as Hlt.
  rewrite Heq in Hlt. lia.
Qed.

(** X3.  When the new id is neither component of the pair, no occurrence
    of the pair is left in the list [merge] returns, so merging a second
    time changes nothing.  (With [idx = pair[0]] the pair can be formed
    anew: [merge([a, b, b], (a, b), a)] is [[a, b]].) *)
Theorem merge_fresh_idempotent ids pr idx :
  idx <> pr.1 -> idx <> pr.2 ->
  (pr ∉ adjacent_pairs (merge ids pr idx))
  /\ merge (merge ids pr idx) pr idx = merge ids pr idx.
Proof.
  intros H1 H2.
  assert (pr ∉ adjacent_pairs (merge ids pr idx)) as Hnotin.
  { intros Hin. apply merge_adjacent in Hin as [_ Hne]; [done| |]; congruence. }
  split; [done|]. by apply merge_without_pair.
Qed.

Lemma merge_fresh_idempotent_witness :
  ((1, 1) ∉ adjacent_pairs (merge [1; 1; 1; 1; 1] (1, 1) 256))
  /\ merge (merge [1; 1; 1; 1; 1] (1, 1) 256) (1, 1) 256
     = merge [1; 1; 1; 1; 1] (1, 1) 256.
Proof. apply merge_fresh_idempotent; simpl; lia. Defined.

Lemma adjacent_pairs_short ids : (length ids < 2)%nat -> adjacent_pairs ids = [].
Proof. destruct ids as [|x [|y l]]; simpl; intros; try done; lia. Qed.

Lemma _encode_chunk_fixed self ids :
  (forall q, q ∈ adjacent_pairs ids -> dget (merges self) q = None) ->
  _encode_chunk self ids = Ok ids.
Proof.
  intros Hnone.
  destruct (decide (length ids < 2)%nat) as [Hshort|Hlong].
  { by apply _encode_chunk_short. }
  destruct (py_min_spec (fun p => dget (merges self) p)
              (dkeys (get_stats ids None))) as (m & Hmin & Hm & _).
  { apply adjacent_pairs_nonempty. lia. }
  apply get_stats_keys in Hm as [Hm|Hm]; [by apply elem_of_nil in Hm|].
  eapply _encode_chunk_stop; [lia | exact Hmin | by apply Hnone].
Qed.

Lemma encode_chunk_reduces self ids :
  exists out,
    _encode_chunk self ids = Ok out
    /\ (length out <= length ids)%nat
    /\ (forall q, q ∈ adjacent_pairs out -> dget (merges self) q = None).
Proof.
  remember (length ids) as n eqn:Hn.
  revert ids Hn. induction (lt_wf n) as [n _ IH]. intros ids ->.
  destruct (decide (length ids < 2)%nat) as [Hshort|Hlong].
  { exists ids. rewrite _encode_chunk_short by done.
    split; [done|]. split; [done|].
    intros q. rewrite adjacent_pairs_short by done. by intros ?%elem_of_nil. }
  destruct (py_min_spec (fun p => dget (merges self) p)
              (dkeys (get_stats ids None))) as (m & Hmin & Hm & Hleast).
  { apply adjacent_pairs_nonempty. lia. }
  apply get_stats_keys in Hm as [Hm|Hm]; [by apply elem_of_nil in Hm|].
  destruct (dget (merges self) m) as [idx|] eqn:Hidx.
  - destruct (IH (length (merge ids m idx))
                 (merge_length_lt _ _ _ Hm) _ eq_refl)
      as (out & Hout & Hlen & Hnf).
    exists out. rewrite (_encode_chunk_step self ids m idx) by (done || lia).
    split; [done|]. split; [|done].
    pose proof (merge_length_le ids m idx). lia.
  - assert (forall q, q ∈ adjacent_pairs ids -> dget (merges self) q = None)
      as Hnone.
    { intros q Hq.
      specialize (Hleast q). cbv beta in Hleast.
      destruct (dget (merges self) q) eqn:Hq'; [|done].
      discriminate Hleast. apply get_stats_keys. by right. }
    exists ids. rewrite _encode_chunk_fixed by done. done.
Qed.

(** X4.  [_encode_chunk] always returns, and never raises: its result is
    no longer than the bytes it is given, none of its adjacent pairs is in
    the merge table, and encoding it again gives it back. *)
Theorem _encode_chunk_normal_form self ids :
  exists out,
    _encode_chunk self ids = Ok out
    /\ (length out <= length ids)%nat
    /\ (forall q, q ∈ adjacent_pairs out -> dget (merges self) q = None)
    /\ _encode_chunk self out = Ok out.
Proof.
  destruct (encode_chunk_reduces self ids) as (out & Hout & Hlen & Hnf).
  exists out. repeat (split; [done|]). by apply _encode_chunk_fixed.
Qed.

(** X5.  In every state, the ids [_encode_chunk] returns for a byte string
    (valid UTF-8 or not) spell that byte string in the vocabulary, so
    [decode] gives the same text as decoding the bytes directly. *)
Theorem _encode_chunk_keeps_bytes self bs :
  tokenizer_state self -> Forall byte bs ->
  exists ids parts,
    _encode_chunk self bs = Ok ids
    /\ spells (vocab self) ids parts
    /\ concat parts = bs
    /\ decode self ids = Ok (bytes_decode bs).
Proof.
  intros Hstate Hbs.
  destruct (tokenizer_state_inv _ Hstate) as (Hco & _).
  destruct (bytes_spell (vocab self) bs (proj1 Hco) Hbs) as (parts & Hsp & Hcat).
  destruct (encode_chunk_spells self Hco (length bs) bs parts (le_n _) Hsp)
    as (ids & parts' & Henc & Hsp' & Hcat').
  exists ids, parts'. split; [done|]. split; [done|].
  split; [congruence|]. rewrite (decode_parts _ _ _ Hsp'). congruence.
Qed.

Lemma _encode_chunk_keeps_bytes_witness :
  exists ids parts,
    _encode_chunk trained_sample [255; 104; 101; 108] = Ok ids
    /\ spells (vocab trained_sample) ids parts
    /\ concat parts = [255; 104; 101; 108]
    /\ decode trained_sample ids = Ok (bytes_decode [255; 104; 101; 108]).
Proof.
  apply (_encode_chunk_keeps_bytes trained_sample [255; 104; 101; 108]).
  - exact trained_sample_state.
  - repeat constructor; unfold byte; lia.
Defined.

(** ** The shape of a trained table *)

Lemma for_each_app {A S} (xs ys : list A) (body : S -> A -> result S) acc :
  for_each (xs ++ ys) body acc = bind (for_each xs body acc) (for_each ys body).
Proof.
  revert acc. induction xs as [|x xs IH]; intros acc; simpl; [done|].
  destruct (body acc x); simpl; [apply IH | done].
Qed.

Lemma bind_Ok {A} (m : result A) : bind m Ok = m.
Proof. by destruct m. Qed.

Lemma dset_new {K V} `{EqDecision K} (d : list (K * V)) k v :
  dget d k = None -> dset d k v = d ++ [(k, v)].
Proof.
  induction d as [|[k' v'] d IH]; simpl; [done|].
  case_decide; [discriminate|]. intros H'. by rewrite IH.
Qed.

Lemma dkeys_byte_vocab : dkeys byte_vocab = seqZ 0 256.
Proof. reflexivity. Qed.

Lemma well_formed_init : well_formed [] byte_vocab.
Proof.
  split; [constructor|]. split; [done|]. split; [constructor|].
  split; done.
Qed.

Lemma well_formed_step i ids M V p v0 v1 :
  train_inv i ids M V -> well_formed M V ->
  (exists chunk, chunk ∈ ids /\ p ∈ adjacent_pairs chunk) ->
  dget V p.1 = Some v0 -> dget V p.2 = Some v1 ->
  dset M p (256 + i) = M ++ [(p, 256 + i)]
  /\ dset V (256 + i) (v0 ++ v1) = V ++ [(256 + i, v0 ++ v1)]
  /\ well_formed (M ++ [(p, 256 + i)]) (V ++ [(256 + i, v0 ++ v1)]).
Proof.
  intros (Hi & Hco & Hdom & HlenV & HlenM & Hval & Hhd & Hadj)
         (HND & Hids & Hlt & Hkeys & Hbuild) (c & Hc & Hpc) H0 H1.
  assert (Hfresh : dget V (256 + i) = None).
  { destruct (dget V (256 + i)) eqn:Hk; [|done]. apply Hdom in Hk. lia. }
  assert (HpM : dget M p = None).
  { apply dget_None_keys. intros Hin. by apply (Hadj p c). }
  split; [by apply dset_new|]. split; [by apply dset_new|].
  assert (Hi' : i = Z.of_nat (length M)) by lia.
  split.
  { unfold dkeys. rewrite map_app. apply NoDup_app. split; [done|].
    split; [|apply NoDup_singleton].
    intros q Hq ->%list_elem_of_singleton. by apply dget_None_keys in HpM. }
  split.
  { rewrite map_app, length_app, Hids. simpl.
    replace (length M + 1)%nat with (S (length M)) by lia.
    rewrite seqZ_S. do 2 f_equal. lia. }
  split.
  { apply Forall_app. split; [done|]. apply Forall_singleton. simpl.
    apply Hdom in H0, H1. lia. }
  split.
  { unfold dkeys in *. rewrite map_app, length_app, Hkeys. simpl.
    replace (256 + Z.of_nat (length M + 1))
      with (Z.of_nat (S (Z.to_nat (256 + Z.of_nat (length M))))) by lia.
    rewrite seqZ_S. rewrite Z2Nat.id by lia. do 2 f_equal. lia. }
  unfold _build_vocab in *. simpl in *. rewrite bind_Ok in *.
  rewrite for_each_app, Hbuild. destruct p as [p0 p1]. simpl in *.
  unfold dindex. rewrite H0, H1. simpl.
  by rewrite dset_new.
Qed.

Lemma train_loop_shape n : forall i ids M V M' V',
  train_inv i ids M V -> well_formed M V ->
  train_loop n i ids M V = Ok (M', V') ->
  well_formed M' V' /\ M `prefix_of` M' /\ V `prefix_of` V'.
Proof.
  induction n as [|n IH]; intros i ids M V M' V' Hinv Hwf; simpl.
  - intros [= <- <-]. done.
  - destruct (py_max _ _) as [p|] eqn:Hmax; [|discriminate]. simpl.
    unfold dindex.
    destruct (dget V p.1) as [v0|] eqn:H0; [|discriminate]. simpl.
    destruct (dget V p.2) as [v1|] eqn:H1; [|discriminate]. simpl.
    intros Hloop.
    apply py_max_in, train_stats_keys in Hmax as [Hmax|Hmax];
      [inversion Hmax|].
    pose proof (train_inv_step i ids M V p v0 v1 Hinv Hmax H0 H1) as Hinv'.
    destruct (well_formed_step i ids M V p v0 v1 Hinv Hwf Hmax H0 H1)
      as (HM & HV & Hwf').
    rewrite HM, HV in Hinv', Hloop.
    destruct (IH _ _ _ _ _ _ Hinv' Hwf' Hloop) as (Hwf'' & HpM & HpV).
    split; [done|]. split; by eapply prefix_app_l.
Qed.

Lemma train_well_formed self txt vocab_size verbose self' :
  train self txt vocab_size verbose = Ok self' ->
  well_formed (merges self') (vocab self').
Proof.
  unfold train. destruct (negb _) eqn:Hsize; [discriminate|].
  destruct (encode_chunks _) as [ids|]; [|discriminate]. simpl.
  destruct (train_loop _ _ _ _ _) as [[M V]|] eqn:Hloop; [|discriminate].
  simpl. intros [= <-]. simpl.
  by destruct (train_loop_shape _ _ _ _ _ _ _ (train_inv_init ids)
                 well_formed_init Hloop) as [? _].
Qed.

Lemma tokenizer_state_well_formed self :
  tokenizer_state self -> well_formed (merges self) (vocab self).
Proof.
  induction 1 as [re_compile pat self Hinit| |]; simpl.
  - unfold RegexTokenizer_init in Hinit.
    change (_build_vocab [] []) with (Ok byte_vocab) in Hinit. simpl in Hinit.
    destruct (re_compile _); [|discriminate].
    injection Hinit as <-. simpl. apply well_formed_init.
  - by eapply train_well_formed.
  - done.
Qed.

(** X6.  After [train(text, vocab_size)] the merged pairs are distinct,
    their ids are 256, 257, ..., [vocab_size - 1] in the order of the
    table, both components of a pair are smaller than its id, and the
    vocabulary has exactly the ids [0 .. vocab_size - 1], in order. *)
Theorem train_mints_consecutive_ids self txt vocab_size verbose self' :
  train self txt vocab_size verbose = Ok self' ->
  NoDup (dkeys (merges self'))
  /\ map snd (merges self') = seqZ 256 (vocab_size - 256)
  /\ Forall (fun e => e.1.1 < e.2 /\ e.1.2 < e.2) (merges self')
  /\ dkeys (vocab self') = seqZ 0 vocab_size.
Proof.
  intros Htrain.
  destruct (train_well_formed _ _ _ _ _ Htrain) as (HND & Hids & Hlt & Hkeys & _).
  destruct (train_state_inv _ _ _ _ _ Htrain) as [_ Hlen].
  rewrite Hlen in Hids, Hkeys.
  replace (256 + (vocab_size - 256)) with vocab_size in Hkeys by lia. done.
Qed.

Lemma train_mints_consecutive_ids_witness :
  map snd (merges trained_sample) = [256; 257; 258]
  /\ dkeys (vocab trained_sample) = seqZ 0 259.
Proof.
  destruct (train_mints_consecutive_ids gpt2_sample (str "hello hello world")
              259 false trained_sample) as (_ & Hids & _ & Hkeys);
    [vm_compute; reflexivity|].
  split; [exact Hids | exact Hkeys].
Defined.

(** X7.  In every state reached by the constructor, [train] and
    [register_special_tokens], the vocabulary is the one [_build_vocab]
    derives from the merge table and no special token: [train] builds it
    as [_build_vocab] would, and [register_special_tokens] adds nothing to
    it. *)
Theorem vocab_is_built_from_merges self :
  tokenizer_state self -> _build_vocab (merges self) [] = Ok (vocab self).
Proof. intros H. by destruct (tokenizer_state_well_formed _ H) as (_&_&_&_&?). Qed.

Lemma vocab_is_built_from_merges_witness :
  _build_vocab (merges trained_sample) [] = Ok (vocab trained_sample).
Proof. apply vocab_is_built_from_merges. exact trained_sample_state. Defined.

Lemma train_loop_add n m : forall i ids M V M2 V2,
  train_inv i ids M V -> well_formed M V ->
  train_loop (n + m) i ids M V = Ok (M2, V2) ->
  exists M1 V1, train_loop n i ids M V = Ok (M1, V1)
                /\ M1 `prefix_of` M2 /\ V1 `prefix_of` V2.
Proof.
  induction n as [|n IH]; intros i ids M V M2 V2 Hinv Hwf.
  - intros Hloop. exists M, V. split; [done|].
    by destruct (train_loop_shape _ _ _ _ _ _ _ Hinv Hwf Hloop) as (_ & ? & ?).
  - cbn [Nat.add train_loop].
    destruct (py_max _ _) as [p|] eqn:Hmax; [|discriminate]. simpl.
    unfold dindex.
    destruct (dget V p.1) as [v0|] eqn:H0; [|discriminate]. simpl.
    destruct (dget V p.2) as [v1|] eqn:H1; [|discriminate]. simpl.
    intros Hloop.
    apply py_max_in, train_stats_keys in Hmax as [Hmax|Hmax];
      [inversion Hmax|].
    pose proof (train_inv_step i ids M V p v0 v1 Hinv Hmax H0 H1) as Hinv'.
    destruct (well_formed_step i ids M V p v0 v1 Hinv Hwf Hmax H0 H1)
      as (HM & HV & Hwf').
    rewrite HM, HV in Hinv', Hloop |- *.
    by apply (IH _ _ _ _ _ _ Hinv' Hwf').
Qed.

(** X8.  Training is incremental in [vocab_size]: if [train] succeeds for
    [vs2], it succeeds on the same text for every smaller size [vs1 >= 256],
    and the merge table and vocabulary for [vs1] are prefixes of those for
    [vs2]. *)
Theorem train_is_incremental self txt vs1 vs2 verbose self2 :
  256 <= vs1 <= vs2 ->
  train self txt vs2 verbose = Ok self2 ->
  exists self1,
    train self txt vs1 verbose = Ok self1
    /\ merges self1 `prefix_of` merges self2
    /\ vocab self1 `prefix_of` vocab self2.
Proof.
  intros Hvs. unfold train.
  rewrite !(proj2 (Z.leb_le _ _)) by lia. simpl.
  destruct (encode_chunks _) as [ids|]; [|discriminate]. simpl.
  replace (Z.to_nat (vs2 - 256))
    with (Z.to_nat (vs1 - 256) + Z.to_nat (vs2 - vs1))%nat by lia.
  destruct (train_loop (_ + _) _ _ _ _) as [[M2 V2]|] eqn:Hloop; [|discriminate].
  simpl. intros [= <-].
  destruct (train_loop_add _ _ _ _ _ _ _ _ (train_inv_init ids)
              well_formed_init Hloop) as (M1 & V1 & -> & HM & HV).
  simpl. eexists. split; [reflexivity|]. done.
Qed.

Lemma train_is_incremental_witness :
  exists self1,
    train gpt2_sample (str "hello hello world") 257 false = Ok self1
    /\ merges self1 `prefix_of` merges trained_sample
    /\ vocab self1 `prefix_of` vocab trained_sample.
Proof.
  apply (train_is_incremental gpt2_sample (str "hello hello world") 257 259
           false trained_sample); [lia | vm_compute; reflexivity].
Defined.

(** ** [_encode_chunk] and the order of the table *)

Lemma ids_by_position (M : list (idpair * Z)) :
  map snd M = seqZ 256 (Z.of_nat (length M)) ->
  forall k e, M !! k = Some e -> e.2 = 256 + Z.of_nat k.
Proof.
  intros Hids k e Hk.
  assert (map snd M !! k = Some e.2) as Hk'.
  { by rewrite list_lookup_fmap, Hk. }
  rewrite Hids in Hk'. by apply lookup_seqZ in Hk' as [-> _].
Qed.

Lemma ids_around (D R : list (idpair * Z)) p idx :
  map snd (D ++ (p, idx) :: R)
  = seqZ 256 (Z.of_nat (length (D ++ (p, idx) :: R))) ->
  (forall q j, (q, j) ∈ D -> j < idx)
  /\ (forall q j, (q, j) ∈ R -> idx < j).
Proof.
  intros Hids.
  pose proof (ids_by_position _ Hids) as Hpos.
  assert (idx = 256 + Z.of_nat (length D)) as ->.
  { apply (Hpos (length D) (p, idx)). by rewrite list_lookup_middle. }
  split; intros q j Hin; apply list_elem_of_lookup in Hin as [k Hk].
  - pose proof (lookup_lt_Some _ _ _ Hk) as Hlt.
    specialize (Hpos k (q, j)). simpl in Hpos.
    rewrite lookup_app_l in Hpos by done. specialize (Hpos Hk). lia.
  - specialize (Hpos (length D + S k)%nat (q, j)). simpl in Hpos.
    rewrite lookup_app_r in Hpos by lia.
    replace (length D + S k - length D)%nat with (S k) in Hpos by lia.
    specialize (Hpos Hk). lia.
Qed.

Lemma dget_Some_elem_of {K V} `{EqDecision K} (d : list (K * V)) k v :
  dget d k = Some v -> (k, v) ∈ d.
Proof.
  induction d as [|[k' v'] d IH]; simpl; [discriminate|].
  case_decide as Hk.
  - intros [= ->]. subst. left.
  - intros H'. right. by apply IH.
Qed.

Lemma dget_elem_of {K V} `{EqDecision K} (d : list (K * V)) k v :
  NoDup (dkeys d) -> (k, v) ∈ d -> dget d k = Some v.
Proof.
  induction d as [|[k' v'] d IH]; simpl; [by intros _ ?%elem_of_nil|].
  intros [Hk' HND]%NoDup_cons [Heq|Hin]%elem_of_cons.
  - injection Heq as -> ->. by case_decide.
  - case_decide as Hk; [|by apply IH]. subst.
    exfalso. apply Hk'. apply list_elem_of_fmap. by exists (k', v).
Qed.

Lemma encode_chunk_in_order self :
  NoDup (dkeys (merges self)) ->
  map snd (merges self) = seqZ 256 (Z.of_nat (length (merges self))) ->
  Forall (fun e => e.1.1 < e.2 /\ e.1.2 < e.2) (merges self) ->
  forall R D l,
    merges self = D ++ R ->
    (forall q, q ∈ dkeys D -> q ∉ adjacent_pairs l) ->
    _encode_chunk self l = Ok (apply_merges R l).
Proof.
  intros HND Hids Hlt.
  induction R as [|[p idx] R IH]; intros D l HM Habsent.
  - rewrite app_nil_r in HM. subst D. simpl.
    apply _encode_chunk_fixed. intros q Hq.
    destruct (dget (merges self) q) eqn:E; [|done].
    apply dget_Some_keys in E. by apply Habsent in E.
  - assert (HM' : merges self = (D ++ [(p, idx)]) ++ R).
    { by rewrite <- app_assoc. }
    rewrite HM in Hids. destruct (ids_around _ _ _ _ Hids) as [Hbelow Habove].
    assert (Hp : dget (merges self) p = Some idx).
    { apply dget_elem_of; [done|]. rewrite HM.
      apply elem_of_app. right. left. }
    assert (Hcomp : forall q j, (q, j) ∈ merges self -> q.1 < j /\ q.2 < j).
    { intros q j Hin. rewrite Forall_forall in Hlt. apply (Hlt _ Hin). }
    assert (Hpc : p.1 < idx /\ p.2 < idx).
    { apply Hcomp. rewrite HM. apply elem_of_app. right. left. }
    cbn [apply_merges fold_left].
    destruct (decide (p ∈ adjacent_pairs l)) as [Hin|Hnotin].
    + destruct (py_min_spec (fun p => dget (merges self) p)
                  (dkeys (get_stats l None))) as (m & Hmin & Hm & Hleast).
      { apply adjacent_pairs_nonempty. by eapply adjacent_pairs_length. }
      apply get_stats_keys in Hm as [Hm|Hm]; [by apply elem_of_nil in Hm|].
      assert (m = p) as ->.
      { specialize (Hleast p). cbv beta in Hleast. rewrite Hp in Hleast.
        destruct (dget (merges self) m) as [j|] eqn:Hj.
        2:{ discriminate Hleast. apply get_stats_keys. by right. }
        simpl in Hleast.
        assert (j <= idx) as Hle.
        { apply Z.ltb_ge. apply Hleast. apply get_stats_keys. by right. }
        apply dget_Some_elem_of in Hj. rewrite HM in Hj.
        apply elem_of_app in Hj as [Hj|Hj].
        - exfalso. apply (Habsent m); [|done].
          apply list_elem_of_fmap. by exists (m, j).
        - apply elem_of_cons in Hj as [Hj|Hj]; [congruence|].
          apply Habove in Hj. lia. }
      rewrite (_encode_chunk_step self l p idx);
        [| by eapply adjacent_pairs_length | done | done | done].
      apply (IH (D ++ [(p, idx)])); [done|].
      intros q Hq Hq'. unfold dkeys in Hq. rewrite map_app in Hq.
      apply elem_of_app in Hq as [Hq|Hq].
      * apply list_elem_of_fmap in Hq as ([q' j] & -> & Hqj). simpl in *.
        pose proof (Hbelow _ _ Hqj) as Hj.
        destruct (Hcomp q' j) as [H1 H2].
        { rewrite HM. apply elem_of_app. by left. }
        apply merge_adjacent in Hq' as [Hq' _]; [|lia|lia].
        apply (Habsent q'); [|done].
        apply list_elem_of_fmap. by exists (q', j).
      * apply list_elem_of_singleton in Hq. simpl in Hq. subst q.
        apply merge_adjacent in Hq' as [_ Hne]; [done|lia|lia].
    + rewrite merge_without_pair by done.
      apply (IH (D ++ [(p, idx)])); [done|].
      intros q Hq. unfold dkeys in Hq. rewrite map_app in Hq.
      apply elem_of_app in Hq as [Hq|Hq]; [by apply Habsent|].
      apply list_elem_of_singleton in Hq. simpl in Hq. by subst q.
Qed.

(** X9.  In every state reached by the constructor, [train] and
    [register_special_tokens], the loop of [_encode_chunk], which looks for
    the pair of lowest id again and again, returns what applying every
    merge of the table once, in the order of the table, returns.  (The
    table of such a state has its ids in increasing order.) *)
Theorem _encode_chunk_applies_merges_in_order self ids :
  tokenizer_state self ->
  _encode_chunk self ids = Ok (apply_merges (merges self) ids).
Proof.
  intros Hstate.
  destruct (tokenizer_state_well_formed _ Hstate) as (HND & Hids & Hlt & _).
  apply (encode_chunk_in_order self HND Hids Hlt (merges self) []); [done|].
  intros q Hq. by apply elem_of_nil in Hq.
Qed.

Lemma _encode_chunk_applies_merges_in_order_witness :
  _encode_chunk trained_sample (str "hello")
  = Ok (apply_merges (merges trained_sample) (str "hello")).
Proof.
  apply _encode_chunk_applies_merges_in_order. exact trained_sample_state.
Defined.

(** ** What [train] merges *)

Lemma filter_eq_nil {A} `{EqDecision A} (p : A) (qs : list A) :
  p ∉ qs -> filter (fun q => q = p) qs = [].
Proof.
  intros Hnotin. destruct (filter _ qs) as [|z zs] eqn:E; [done|].
  assert (z ∈ filter (fun q => q = p) qs) as Hz by (rewrite E; left).
  apply list_elem_of_filter in Hz as [-> Hz]. done.
Qed.

Lemma pair_count_nonneg p ids : 0 <= pair_count p ids.
Proof. unfold pair_count. lia. Qed.

Lemma pair_count_pos p ids : p ∈ adjacent_pairs ids <-> 0 < pair_count p ids.
Proof.
  unfold pair_count. split.
  - intros Hin.
    assert (p ∈ filter (fun q => q = p) (adjacent_pairs ids)) as Hf.
    { by apply list_elem_of_filter. }
    destruct (filter _ _); [by apply elem_of_nil in Hf | simpl; lia].
  - intros Hpos. destruct (decide (p ∈ adjacent_pairs ids)) as [|Hn]; [done|].
    rewrite filter_eq_nil in Hpos by done. simpl in Hpos. lia.
Qed.

Lemma get_stats_default ids counts p :
  default 0 (dget (get_stats ids counts) p)
  = default 0 (dget (default [] counts) p) + pair_count p ids.
Proof.
  unfold get_stats, pair_count. rewrite fold_counts.
  replace (match counts with Some c => c | None => [] end)
    with (default [] counts) by by destruct counts.
  case_bool_decide as Hin; [done|].
  rewrite filter_eq_nil by done. simpl. lia.
Qed.

Lemma corpus_count_nonneg p ids : 0 <= corpus_count p ids.
Proof.
  induction ids as [|c ids IH]; simpl; [done|].
  pose proof (pair_count_nonneg p c). unfold corpus_count in *. simpl. lia.
Qed.

Lemma corpus_count_pos p ids :
  (exists chunk, chunk ∈ ids /\ p ∈ adjacent_pairs chunk)
  <-> 0 < corpus_count p ids.
Proof.
  induction ids as [|c ids IH].
  - split; [by intros (? & ?%elem_of_nil & _) | unfold corpus_count; simpl; lia].
  - change (corpus_count p (c :: ids))
      with (pair_count p c + corpus_count p ids).
    pose proof (pair_count_nonneg p c). pose proof (corpus_count_nonneg p ids).
    split.
    + intros (chunk & [->|Hin]%elem_of_cons & Hp).
      * apply pair_count_pos in Hp. lia.
      * assert (0 < corpus_count p ids); [|lia]. apply IH. eauto.
    + intros Hpos. destruct (decide (0 < pair_count p c)) as [Hc|Hc].
      * exists c. split; [left | by apply pair_count_pos].
      * destruct (proj2 IH) as (chunk & Hin & Hp); [lia|].
        exists chunk. split; [by right | done].
Qed.

Lemma stats_counts ids : forall stats p,
  default 0 (dget (fold_left
                     (fun stats chunk_ids => get_stats chunk_ids (Some stats))
                     ids stats) p)
  = default 0 (dget stats p) + corpus_count p ids.
Proof.
  induction ids as [|c ids IH]; intros stats p.
  - unfold corpus_count. simpl. lia.
  - cbn [fold_left]. rewrite IH, get_stats_default.
    change (corpus_count p (c :: ids))
      with (pair_count p c + corpus_count p ids). simpl. lia.
Qed.

Lemma fold_max_spec {A} (key : A -> option Z) xs x :
  let m := fold_left (fun best y => if key_lt (key best) (key y) then y else best)
                     xs x in
  forall y, y ∈ x :: xs -> key_lt (key m) (key y) = false.
Proof.
  revert x. induction xs as [|y xs IH]; intros x; simpl.
  - intros y Hy. apply list_elem_of_singleton in Hy as ->.
    destruct (key x); simpl; [apply Z.ltb_irrefl | done].
  - pose proof (IH (if key_lt (key x) (key y) then y else x)) as Hmax.
    simpl in Hmax. intros z Hz.
    destruct (key_lt (key x) (key y)) eqn:Hxy.
    + assert (Hmy := Hmax y ltac:(left)).
      apply elem_of_cons in Hz as [->|Hz]; [|exact (Hmax z Hz)].
      destruct (key_lt (key _) (key x)) eqn:Hmx; [|done].
      by rewrite (key_lt_trans _ _ _ Hmx Hxy) in Hmy.
    + assert (Hmx := Hmax x ltac:(left)).
      apply elem_of_cons in Hz as [->|Hz]; [done|].
      apply elem_of_cons in Hz as [->|Hz].
      * by eapply key_lt_neg_trans.
      * apply Hmax. by right.
Qed.

Lemma py_max_spec {A} (key : A -> option Z) xs m :
  py_max xs key = Ok m -> forall y, y ∈ xs -> key_lt (key m) (key y) = false.
Proof.
  destruct xs as [|x xs]; [discriminate|]. intros [= <-]. apply fold_max_spec.
Qed.

(** The pair chosen in a round is a most frequent one. *)
Lemma round_most_frequent (ids : list (list Z)) p :
  let stats := fold_left (fun stats chunk_ids => get_stats chunk_ids (Some stats))
                         ids [] in
  py_max (dkeys stats) (fun p => dget stats p) = Ok p ->
  0 < corpus_count p ids /\ forall q, corpus_count q ids <= corpus_count p ids.
Proof.
  intros stats Hmax.
  assert (Hcount : forall q, default 0 (dget stats q) = corpus_count q ids).
  { intros q. unfold stats. by rewrite stats_counts. }
  assert (Hp : 0 < corpus_count p ids).
  { apply corpus_count_pos. apply py_max_in in Hmax.
    apply train_stats_keys in Hmax as [Hmax|Hmax]; [inversion Hmax | done]. }
  split; [done|]. intros q.
  destruct (decide (q ∈ dkeys stats)) as [Hq|Hq].
  - pose proof (py_max_spec _ _ _ Hmax q Hq) as Hle. cbv beta in Hle.
    rewrite <- !Hcount.
    apply py_max_in, dkeys_dget in Hmax as [cp Hcp].
    apply dkeys_dget in Hq as [cq Hcq].
    rewrite Hcp, Hcq in Hle |- *. simpl in *. by apply Z.ltb_ge.
  - apply dget_None_keys in Hq. rewrite <- (Hcount q), Hq. simpl. lia.
Qed.

Lemma train_loop_greedy n : forall i ids M V M' V',
  train_inv i ids M V -> well_formed M V ->
  train_loop n i ids M V = Ok (M', V') ->
  exists ext,
    M' = M ++ ext
    /\ forall k p idx, ext !! k = Some (p, idx) ->
         let now := map (apply_merges (take k ext)) ids in
         idx = 256 + i + Z.of_nat k
         /\ 0 < corpus_count p now
         /\ forall q, corpus_count q now <= corpus_count p now.
Proof.
  induction n as [|n IH]; intros i ids M V M' V' Hinv Hwf; simpl.
  - intros [= <- <-]. exists []. split; [by rewrite app_nil_r|].
    intros k p idx Hk. by rewrite lookup_nil in Hk.
  - destruct (py_max _ _) as [p|] eqn:Hmax; [|discriminate]. simpl.
    unfold dindex.
    destruct (dget V p.1) as [v0|] eqn:H0; [|discriminate]. simpl.
    destruct (dget V p.2) as [v1|] eqn:H1; [|discriminate]. simpl.
    intros Hloop.
    pose proof (round_most_frequent ids p Hmax) as Hround.
    apply py_max_in, train_stats_keys in Hmax as [Hmax|Hmax];
      [inversion Hmax|].
    pose proof (train_inv_step i ids M V p v0 v1 Hinv Hmax H0 H1) as Hinv'.
    destruct (well_formed_step i ids M V p v0 v1 Hinv Hwf Hmax H0 H1)
      as (HM & HV & Hwf').
    rewrite HM, HV in Hinv', Hloop.
    destruct (IH _ _ _ _ _ _ Hinv' Hwf' Hloop) as (ext & -> & Hext).
    exists ((p, 256 + i) :: ext). split; [by rewrite <- app_assoc|].
    intros [|k] q idx Hk.
    + injection Hk as <- <-. cbn [take apply_merges fold_left].
      rewrite map_id. split; [lia | done].
    + cbn [lookup list_lookup] in Hk. specialize (Hext k q idx Hk).
      cbn [take]. cbv zeta in Hext |- *.
      rewrite map_map in Hext.
      destruct Hext as (-> & Hpos & Hmost).
      split; [lia|]. split; done.
Qed.

(** X10.  The [k]-th merge [train] learns has id [256 + k], and its pair is
    a most frequent adjacent pair of the corpus as it stands after the
    first [k] merges (pairs are counted inside chunks, never across two
    chunks); it occurs there at least once. *)
Theorem train_merges_most_frequent_pair self txt vocab_size verbose self' ids
    k p idx :
  train self txt vocab_size verbose = Ok self' ->
  encode_chunks (findall (compiled_pattern self) txt) = Ok ids ->
  merges self' !! k = Some (p, idx) ->
  let now := map (apply_merges (take k (merges self'))) ids in
  idx = 256 + Z.of_nat k
  /\ 0 < corpus_count p now
  /\ forall q, corpus_count q now <= corpus_count p now.
Proof.
  unfold train. destruct (negb _) eqn:Hsize; [discriminate|].
  destruct (encode_chunks _) as [ids'|]; [|discriminate]. simpl.
  destruct (train_loop _ _ _ _ _) as [[M V]|] eqn:Hloop; [|discriminate].
  simpl. intros [= <-] [= ->]. simpl.
  destruct (train_loop_greedy _ _ _ _ _ _ _ (train_inv_init ids)
              well_formed_init Hloop) as (ext & -> & Hext).
  simpl. intros Hk. by apply Hext.
Qed.

Lemma train_merges_most_frequent_pair_witness :
  let ids := [str "hello"; str " hello"; str " world"] in
  0 < corpus_count (104, 101) ids
  /\ forall q, corpus_count q ids <= corpus_count (104, 101) ids.
Proof.
  intros ids.
  destruct (train_merges_most_frequent_pair gpt2_sample
              (str "hello hello world") 259 false trained_sample ids
              0%nat (104, 101) 256) as (_ & Hpos & Hmost);
    [vm_compute; reflexivity ..|].
  split; [exact Hpos | exact Hmost].
Defined.

(** ** The outcomes of [train] *)

Lemma utf8_encode_cp_raises c e :
  utf8_encode_cp c = Raise e -> e = UnicodeEncodeError.
Proof.
  unfold utf8_encode_cp.
  repeat (match goal with |- context [if ?b then _ else _] => destruct b end);
    congruence.
Qed.

Lemma str_encode_raises s e :
  str_encode s = Raise e -> e = UnicodeEncodeError /\ ~ Forall scalar s.
Proof.
  intros Hraise. split.
  - induction s as [|c s IH]; simpl in Hraise; [discriminate|].
    destruct (utf8_encode_cp c) eqn:Hc; simpl in Hraise.
    + destruct (str_encode s); simpl in Hraise; [discriminate|].
      injection Hraise as <-. by apply IH.
    + injection Hraise as <-. by eapply utf8_encode_cp_raises.
  - intros [bs Hbs]%str_encode_scalar. congruence.
Qed.

Lemma encode_chunks_Ok chunks ids :
  encode_chunks chunks = Ok ids ->
  Forall (Forall byte) ids /\ Forall scalar (concat chunks).
Proof.
  revert ids. induction chunks as [|c chunks IH]; intros ids; simpl.
  - intros [= <-]. split; constructor.
  - destruct (str_encode c) as [b|] eqn:Hc; [|discriminate]. simpl.
    destruct (encode_chunks chunks) as [bs|]; [|discriminate]. simpl.
    intros [= <-]. destruct (IH bs eq_refl) as [Hb Hs].
    split.
    + constructor; [|done]. by apply str_encode_roundtrip in Hc as [_ ?].
    + apply Forall_app. split; [|done]. apply str_encode_scalar. eauto.
Qed.

Lemma encode_chunks_raises chunks e :
  encode_chunks chunks = Raise e ->
  e = UnicodeEncodeError /\ ~ Forall scalar (concat chunks).
Proof.
  induction chunks as [|c chunks IH]; simpl; [discriminate|].
  destruct (str_encode c) as [b|] eqn:Hc; simpl.
  - destruct (encode_chunks chunks) as [bs|]; simpl; [discriminate|].
    intros [= <-]. destruct (IH eq_refl) as [-> Hn]. split; [done|].
    intros [_ ?]%Forall_app. done.
  - intros [= <-]. apply str_encode_raises in Hc as [-> Hn]. split; [done|].
    intros [? _]%Forall_app. done.
Qed.

Lemma merge_elem x pr idx : forall l,
  x ∈ merge l pr idx -> x = idx \/ x ∈ l.
Proof.
  induction l as [|a | a b l IH1 IH2] using list_ind_two.
  - by intros ?%elem_of_nil.
  - simpl. auto.
  - rewrite merge_cons2.
    destruct (_ && _).
    + intros [->|Hin]%elem_of_cons; [by left|].
      destruct (IH1 Hin); [by left | right; by do 2 right].
    + intros [->|Hin]%elem_of_cons; [right; left|].
      destruct (IH2 Hin); [by left | right; by right].
Qed.

Lemma adjacent_pairs_elem (l : list Z) a b :
  (a, b) ∈ adjacent_pairs l -> a ∈ l /\ b ∈ l.
Proof.
  induction l as [|x l IH]; [by intros ?%elem_of_nil|].
  intros [(y & r & -> & [= -> ->])|Hin]%adjacent_pairs_cons.
  - split; [left | right; left].
  - destruct (IH Hin). split; by right.
Qed.

Lemma train_loop_raises n : forall i ids M V e,
  train_inv i ids M V ->
  Forall (Forall (fun x => is_Some (dget V x))) ids ->
  train_loop n i ids M V = Raise e -> e = ValueError.
Proof.
  induction n as [|n IH]; intros i ids M V e Hinv Hknown; simpl; [discriminate|].
  destruct (py_max _ _) as [p|] eqn:Hmax; simpl.
  2:{ intros [= <-]. unfold py_max in Hmax. destruct (dkeys _); congruence. }
  apply py_max_in, train_stats_keys in Hmax as [Hmax|Hmax]; [inversion Hmax|].
  assert (is_Some (dget V p.1) /\ is_Some (dget V p.2)) as [[v0 H0] [v1 H1]].
  { destruct Hmax as (chunk & Hchunk & Hp). destruct p as [a b].
    apply adjacent_pairs_elem in Hp as [Ha Hb].
    rewrite Forall_forall in Hknown. specialize (Hknown _ Hchunk).
    rewrite Forall_forall in Hknown. split; by apply Hknown. }
  unfold dindex. rewrite H0, H1. simpl.
  apply IH.
  - by apply train_inv_step.
  - apply Forall_fmap, Forall_forall. intros chunk Hchunk. simpl.
    apply Forall_forall. intros x Hx. rewrite dget_dset.
    case_decide; [done|].
    apply merge_elem in Hx as [->|Hx]; [done|].
    rewrite Forall_forall in Hknown. specialize (Hknown _ Hchunk).
    rewrite Forall_forall in Hknown. by apply Hknown.
Qed.

(** X11.  The outcomes of [train]: [AssertionError] for a [vocab_size]
    below 256; otherwise [UnicodeEncodeError] when a chunk has a lone
    surrogate; otherwise it returns, or raises the [ValueError] of [max]
    on empty statistics (C7) and nothing else: the lookups
    [vocab[pair[0]]] and [vocab[pair[1]]] never fail.  With
    [vocab_size = 256] it returns the untrained table. *)
Theorem train_outcome self txt vocab_size verbose :
  let chunks := findall (compiled_pattern self) txt in
  (vocab_size < 256 ->
   train self txt vocab_size verbose = Raise AssertionError)
  /\ (256 <= vocab_size -> ~ Forall scalar (concat chunks) ->
      train self txt vocab_size verbose = Raise UnicodeEncodeError)
  /\ (256 <= vocab_size -> Forall scalar (concat chunks) ->
      (exists self', train self txt vocab_size verbose = Ok self')
      \/ (256 < vocab_size
          /\ train self txt vocab_size verbose = Raise ValueError))
  /\ (vocab_size = 256 -> Forall scalar (concat chunks) ->
      exists self', train self txt vocab_size verbose = Ok self'
                    /\ merges self' = [] /\ vocab self' = byte_vocab).
Proof.
  intros chunks. unfold train. fold chunks.
  split; [|split; [|split]].
  - intros Hlt. by rewrite (proj2 (Z.leb_gt _ _)) by lia.
  - intros Hge Hns. rewrite (proj2 (Z.leb_le _ _)) by lia. simpl.
    destruct (encode_chunks chunks) as [ids|e] eqn:Henc.
    + by apply encode_chunks_Ok in Henc as [_ ?].
    + by apply encode_chunks_raises in Henc as [-> _].
  - intros Hge Hs. rewrite (proj2 (Z.leb_le _ _)) by lia. simpl.
    destruct (encode_chunks chunks) as [ids|e] eqn:Henc.
    2:{ by apply encode_chunks_raises in Henc as [_ ?]. }
    simpl. apply encode_chunks_Ok in Henc as [Hb _].
    destruct (train_loop _ _ _ _ _) as [[M V]|e] eqn:Hloop; simpl.
    + left. eauto.
    + right.
      assert (e = ValueError) as ->.
      { eapply train_loop_raises; [apply train_inv_init | | exact Hloop].
        eapply Forall_impl; [exact Hb|]. intros chunk Hchunk. cbv beta.
        eapply Forall_impl; [exact Hchunk|]. intros x Hx. cbv beta.
        rewrite byte_vocab_get. unfold byte in Hx.
        by rewrite bool_decide_eq_true_2. }
      split; [|done].
      destruct (decide (vocab_size = 256)) as [->|]; [|lia].
      discriminate Hloop.
  - intros -> Hs. simpl.
    destruct (encode_chunks chunks) as [ids|e] eqn:Henc.
    2:{ by apply encode_chunks_raises in Henc as [_ ?]. }
    simpl. eauto.
Qed.

Lemma train_outcome_witness :
  train gpt2_sample [0xD800] 300 false = Raise UnicodeEncodeError.
Proof.
  apply (train_outcome gpt2_sample [0xD800] 300 false); [lia|].
  change (concat (findall (compiled_pattern gpt2_sample) [0xD800]))
    with [0xD800].
  intros H. apply Forall_cons in H as [[H|H] _]; lia.
Defined.

(** ** The outcomes of [decode] *)

Lemma vocab_lookup_range self id :
  tokenizer_state self ->
  is_Some (dget (vocab self) id)
  <-> 0 <= id < 256 + Z.of_nat (length (merges self)).
Proof.
  intros Hstate.
  destruct (tokenizer_state_well_formed _ Hstate) as (_ & _ & _ & Hkeys & _).
  split.
  - intros [b Hb]. apply dget_Some_keys in Hb. rewrite Hkeys in Hb.
    apply elem_of_seqZ in Hb. lia.
  - intros Hid. apply dkeys_dget. rewrite Hkeys. apply elem_of_seqZ. lia.
Qed.

Lemma spells_known V ids :
  Forall (fun id => is_Some (dget V id)) ids -> exists parts, spells V ids parts.
Proof.
  induction 1 as [|id ids [b Hb] _ [parts IH]].
  - exists []. constructor.
  - exists (b :: parts). by constructor.
Qed.

Lemma first_failure {A} (P : A -> Prop) `{forall x, Decision (P x)} (l : list A) :
  Forall P l
  \/ exists pre x post, l = pre ++ x :: post /\ Forall P pre /\ ~ P x.
Proof.
  induction l as [|x l IH]; [left; constructor|].
  destruct (decide (P x)) as [Hx|Hx].
  - destruct IH as [IH|(pre & y & post & -> & Hpre & Hy)].
    + left. by constructor.
    + right. exists (x :: pre), y, post. split; [done|]. split; [|done].
      by constructor.
  - right. exists [], x, l. split; [done|]. split; [constructor | done].
Qed.

Lemma decode_raises_at self pre id post :
  tokenizer_state self ->
  Forall (fun id => 0 <= id < 256 + Z.of_nat (length (merges self))) pre ->
  ~ 0 <= id < 256 + Z.of_nat (length (merges self)) ->
  decode self (pre ++ id :: post)
  = if dmem (inverse_special_tokens self) id
    then Raise NameError else Raise ValueError.
Proof.
  intros Hstate Hpre Hid.
  destruct (spells_known (vocab self) pre) as [parts Hparts].
  { eapply Forall_impl; [exact Hpre|]. intros x Hx.
    by apply vocab_lookup_range. }
  apply (decode_outside_vocab self pre parts); [done|].
  destruct (dget (vocab self) id) eqn:E; [|done].
  exfalso. apply Hid. apply vocab_lookup_range; [done|]. by rewrite E.
Qed.

(** X12.  In every state reached by the constructor, [train] and
    [register_special_tokens], [decode(ids)] returns a text exactly when
    every id is in [0, 256 + len(merges)); bytes that are not valid UTF-8
    are replaced, not refused. *)
Theorem decode_succeeds_on_vocabulary self ids :
  tokenizer_state self ->
  (exists txt, decode self ids = Ok txt)
  <-> Forall (fun id => 0 <= id < 256 + Z.of_nat (length (merges self))) ids.
Proof.
  intros Hstate. split.
  - intros [txt Hdec].
    destruct (first_failure
                (fun id => 0 <= id < 256 + Z.of_nat (length (merges self))) ids)
      as [Hall|(pre & id & post & -> & Hpre & Hid)]; [done|].
    rewrite (decode_raises_at self pre id post) in Hdec by done.
    by destruct (dmem _ _).
  - intros Hall.
    destruct (spells_known (vocab self) ids) as [parts Hparts].
    { eapply Forall_impl; [exact Hall|]. intros x Hx.
      by apply vocab_lookup_range. }
    eexists. by apply (decode_parts self ids parts).
Qed.

Lemma decode_succeeds_on_vocabulary_witness :
  exists txt, decode trained_sample [258; 0xFF; 104] = Ok txt.
Proof.
  apply (decode_succeeds_on_vocabulary trained_sample [258; 0xFF; 104]
           trained_sample_state).
  repeat constructor; vm_compute; congruence.
Defined.

Lemma tokenizer_state_inverse self id :
  tokenizer_state self ->
  dmem (inverse_special_tokens self) id
  = bool_decide (id ∈ map snd (special_tokens self)).
Proof.
  intros Hstate.
  assert (id ∈ dkeys (inverse_special_tokens self)
          <-> id ∈ map snd (special_tokens self)) as Hiff.
  { induction Hstate as [re_compile pat self Hinit
                        |self txt vocab_size verbose self' _ IH Htrain
                        |self tokens _ _].
    - unfold RegexTokenizer_init in Hinit.
      change (_build_vocab [] []) with (Ok byte_vocab) in Hinit.
      simpl in Hinit. destruct (re_compile _); [|discriminate].
      by injection Hinit as <-.
    - unfold train in Htrain. destruct (negb _); [discriminate|].
      destruct (encode_chunks _); [|discriminate]. simpl in Htrain.
      destruct (train_loop _ _ _ _ _) as [[M V]|]; [|discriminate].
      by injection Htrain as <-.
    - simpl. rewrite inverse_keys. split; [|by right].
      by intros [?%elem_of_nil|]. }
  unfold dmem. destruct (dget _ id) eqn:E.
  - apply dget_Some_keys, Hiff in E. by rewrite bool_decide_eq_true_2.
  - apply dget_None_keys in E. rewrite bool_decide_eq_false_2; [done|].
    by rewrite <- Hiff.
Qed.

(** X13.  In every state reached by the constructor, [train] and
    [register_special_tokens], [decode] fails at the first id outside
    [0, 256 + len(merges)): with [NameError] when it is the id of a
    registered special token (the misspelt [party_bytes]), with
    [ValueError] otherwise. *)
Theorem decode_invalid_id self pre id post :
  tokenizer_state self ->
  Forall (fun id => 0 <= id < 256 + Z.of_nat (length (merges self))) pre ->
  ~ 0 <= id < 256 + Z.of_nat (length (merges self)) ->
  decode self (pre ++ id :: post)
  = if bool_decide (id ∈ map snd (special_tokens self))
    then Raise NameError else Raise ValueError.
Proof.
  intros Hstate Hpre Hid.
  rewrite <- tokenizer_state_inverse by done. by apply decode_raises_at.
Qed.

Lemma decode_invalid_id_witness :
  decode sample_END [104; -1; 100256] = Raise ValueError
  /\ decode sample_END [104; 100256; -1] = Raise NameError.
Proof.
  split.
  - apply (decode_invalid_id sample_END [104] (-1) [100256]).
    + apply state_register, sample_state.
    + repeat constructor; vm_compute; congruence.
    + simpl. lia.
  - apply (decode_invalid_id sample_END [104] 100256 [-1]).
    + apply state_register, sample_state.
    + repeat constructor; vm_compute; congruence.
    + simpl. lia.
Defined.

(** ** The inverse table of special tokens *)

Lemma dget_app {K V} `{EqDecision K} (d1 d2 : list (K * V)) k :
  dget (d1 ++ d2) k
  = match dget d1 k with Some v => Some v | None => dget d2 k end.
Proof.
  induction d1 as [|[k' v'] d1 IH]; simpl; [done|]. by case_decide.
Qed.

Lemma fold_left_snoc {A B} (f : B -> A -> B) l x b :
  fold_left f (l ++ [x]) b = f (fold_left f l b) x.
Proof. by rewrite fold_left_app. Qed.

(** X14.  After [register_special_tokens(tokens)] the inverse table maps
    an id only to a token registered with that id, and when no two tokens
    share an id it maps the id of every token to the token. *)
Theorem register_inverse_lookup self (tokens : list (text * Z)) :
  NoDup (dkeys tokens) ->
  let self' := register_special_tokens self tokens in
  (forall id tok, dget (inverse_special_tokens self') id = Some tok ->
                  dget tokens tok = Some id)
  /\ (NoDup (map snd tokens) ->
      forall tok id, dget tokens tok = Some id ->
                     dget (inverse_special_tokens self') id = Some tok).
Proof.
  simpl. induction tokens as [|[k v] tokens IH] using rev_ind.
  - intros _. split; [discriminate|]. intros _. discriminate.
  - unfold dkeys. rewrite map_app. simpl.
    intros (HND & Hk & _)%NoDup_app.
    assert (Hnew : dget tokens k = None).
    { apply dget_None_keys. intros Hin. apply (Hk k Hin). left. }
    destruct (IH HND) as [IH1 IH2]. rewrite fold_left_snoc. split.
    + intros id tok. rewrite dget_dset, dget_app.
      case_decide as Hid.
      * intros [= <-]. subst id. rewrite Hnew. simpl. by case_decide.
      * intros Hinv. by rewrite (IH1 _ _ Hinv).
    + rewrite map_app. simpl. intros (HNDv & Hv & _)%NoDup_app.
      intros tok id. rewrite dget_app, dget_dset.
      destruct (dget tokens tok) as [id'|] eqn:Htok.
      * intros [= ->]. case_decide as Hid; [|by apply IH2].
        subst id. exfalso. apply (Hv v); [|left].
        apply dget_Some_elem_of in Htok.
        apply list_elem_of_fmap. by exists (tok, v).
      * simpl. case_decide; [|discriminate]. intros [= <-]. subst tok.
        by case_decide.
Qed.

Lemma register_inverse_lookup_witness :
  dget (inverse_special_tokens AB) 1001 = Some (str "<B>").
Proof.
  apply (register_inverse_lookup sample [(str "<A>", 1000); (str "<B>", 1001)]).
  - vm_compute. repeat constructor; intros H;
      repeat (apply elem_of_cons in H as [H|H]; [discriminate H|]);
      by apply elem_of_nil in H.
  - vm_compute. repeat constructor; intros H;
      repeat (apply elem_of_cons in H as [H|H]; [discriminate H|]);
      by apply elem_of_nil in H.
  - vm_compute. reflexivity.
Defined.

(** ** The outcomes of [encode_ordinary] *)

Lemma encode_loop self chunks : forall acc,
  (Forall scalar (concat chunks) ->
   exists byte_chunks idss,
     encode_chunks chunks = Ok byte_chunks
     /\ Forall2 (fun b ids => _encode_chunk self b = Ok ids) byte_chunks idss
     /\ for_each chunks (fun ids chunk =>
          let! chunk_bytes := str_encode chunk in
          let! chunk_ids := _encode_chunk self chunk_bytes in
          Ok (ids ++ chunk_ids)) acc = Ok (acc ++ concat idss)
     /\ (length (concat idss) <= length (concat byte_chunks))%nat)
  /\ (~ Forall scalar (concat chunks) ->
      for_each chunks (fun ids chunk =>
        let! chunk_bytes := str_encode chunk in
        let! chunk_ids := _encode_chunk self chunk_bytes in
        Ok (ids ++ chunk_ids)) acc = Raise UnicodeEncodeError).
Proof.
  induction chunks as [|c chunks IH]; intros acc.
  - split.
    + intros _. exists [], []. simpl. rewrite app_nil_r.
      split; [done|]. split; [constructor|]. done.
    + intros Hn. exfalso. apply Hn. constructor.
  - cbn [for_each concat encode_chunks].
    destruct (str_encode c) as [b|e] eqn:Hc; cbn [bind].
    + destruct (encode_chunk_reduces self b) as (ids & Hids & Hlen & _).
      rewrite Hids. cbn [bind].
      destruct (IH (acc ++ ids)) as [IH1 IH2].
      assert (Hcs : Forall scalar c) by (apply str_encode_scalar; eauto).
      split.
      * intros [_ Hs]%Forall_app.
        destruct (IH1 Hs) as (bcs & idss & -> & HF & -> & Hlen').
        exists (b :: bcs), (ids :: idss). cbn [bind concat].
        split; [done|]. split; [by constructor|].
        split; [by rewrite app_assoc|]. rewrite !length_app. lia.
      * intros Hn. apply IH2. intros Hs. apply Hn. by apply Forall_app.
    + apply str_encode_raises in Hc as [-> Hn]. split; [|done].
      intros [? _]%Forall_app. done.
Qed.

(** X15.  [encode_ordinary] returns exactly when every chunk is free of
    lone surrogates, and raises [UnicodeEncodeError] otherwise; a code
    point that is in no chunk is never looked at.  What it returns is the
    concatenation of the encodings of the chunks, each encoded on its own,
    and it has no more ids than the chunks have UTF-8 bytes. *)
Theorem encode_ordinary_outcome self txt :
  let chunks := findall (compiled_pattern self) txt in
  (Forall scalar (concat chunks) ->
   exists byte_chunks idss,
     encode_chunks chunks = Ok byte_chunks
     /\ Forall2 (fun b ids => _encode_chunk self b = Ok ids) byte_chunks idss
     /\ encode_ordinary self txt = Ok (concat idss)
     /\ (length (concat idss) <= length (concat byte_chunks))%nat)
  /\ (~ Forall scalar (concat chunks) ->
      encode_ordinary self txt = Raise UnicodeEncodeError).
Proof.
  intros chunks. unfold encode_ordinary. fold chunks.
  destruct (encode_loop self chunks []) as [H1 H2]. split; [|done].
  intros Hs. destruct (H1 Hs) as (bcs & idss & ? & ? & ? & ?).
  by exists bcs, idss.
Qed.

Lemma encode_ordinary_outcome_witness :
  encode_ordinary gpt2_sample [104; 0xD800] = Raise UnicodeEncodeError.
Proof.
  apply (encode_ordinary_outcome gpt2_sample [104; 0xD800]).
  change (concat (findall (compiled_pattern gpt2_sample) [104; 0xD800]))
    with [104; 0xD800].
  intros H. apply Forall_cons in H as [_ H].
  apply Forall_cons in H as [[H|H] _]; lia.
Defined.

Lemma encode_loop_untrained self chunks : merges self = [] -> forall acc,
  for_each chunks (fun ids chunk =>
    let! chunk_bytes := str_encode chunk in
    let! chunk_ids := _encode_chunk self chunk_bytes in
    Ok (ids ++ chunk_ids)) acc
  = let! b := str_encode (concat chunks) in Ok (acc ++ b).
Proof.
  intros HM. induction chunks as [|c chunks IH]; intros acc.
  - simpl. by rewrite app_nil_r.
  - cbn [for_each concat]. rewrite str_encode_app.
    destruct (str_encode c) as [b|e]; cbn [bind]; [|done].
    rewrite _encode_chunk_fixed by (intros; by rewrite HM). cbn [bind].
    rewrite IH. destruct (str_encode (concat chunks)); cbn [bind]; [|done].
    by rewrite app_assoc.
Qed.

(** X16.  With an empty merge table, [encode_ordinary] returns the UTF-8
    bytes of the chunks. *)
Theorem encode_ordinary_untrained self txt :
  merges self = [] ->
  encode_ordinary self txt
  = str_encode (concat (findall (compiled_pattern self) txt)).
Proof.
  intros HM. unfold encode_ordinary. rewrite encode_loop_untrained by done.
  by destruct (str_encode _).
Qed.

Lemma encode_ordinary_untrained_witness :
  encode_ordinary sample (str "hi, you") = str_encode (str "hiyou").
Proof. apply (encode_ordinary_untrained sample (str "hi, you")). reflexivity. Defined.

(** ** [encode] and the special tokens of a text *)

Lemma forallb_contains txt (toks : list text) :
  (forall tok, tok ∈ toks -> contains txt tok = false) ->
  forallb (fun token => negb (contains txt token)) toks = true.
Proof.
  intros H'. apply forallb_forall. intros tok Hin.
  rewrite H'; [done|]. by apply list_elem_of_In.
Qed.

Lemma encode_single_part self (special : list (text * Z)) txt :
  (forall k, k ∈ dkeys special -> contains txt k = false) ->
  match special with
  | [] => encode_ordinary self txt
  | _ :: _ =>
      for_each (re_split (dkeys special) txt) (fun ids part =>
        match dget special part with
        | Some id => Ok (ids ++ [id])
        | None =>
            let! part_ids := encode_ordinary self part in
            Ok (ids ++ part_ids)
        end) []
  end = encode_ordinary self txt.
Proof.
  intros Hkeys. destruct special as [|e special]; [done|].
  rewrite re_split_none by done. cbn [for_each].
  destruct (dget (e :: special) txt) as [i|] eqn:Hg.
  - apply dget_Some_keys, Hkeys in Hg. by rewrite contains_refl in Hg.
  - cbn [bind]. by destruct (encode_ordinary self txt).
Qed.

(** X17.  On a text in which no registered special token occurs, [encode]
    is [encode_ordinary] under every policy: "all", "none", "none_raise"
    and any set. *)
Theorem encode_plain_text_any_policy self txt policy :
  (forall tok, tok ∈ dkeys (special_tokens self) -> contains txt tok = false) ->
  policy ∈ [AllowedStr (str "all"); AllowedStr (str "none");
            AllowedStr (str "none_raise")]
  \/ (exists s, policy = AllowedSet s) ->
  encode self txt policy = encode_ordinary self txt.
Proof.
  intros Hnone [Hpol|[s ->]].
  - repeat (apply elem_of_cons in Hpol as [->|Hpol]);
      [| | |by apply elem_of_nil in Hpol]; unfold encode.
    + change (bool_decide (str "all" = str "all")) with true. cbn [bind].
      by apply encode_single_part.
    + done.
    + change (bool_decide (str "none_raise" = str "all")) with false.
      change (bool_decide (str "none_raise" = str "none")) with false.
      change (bool_decide (str "none_raise" = str "none_raise")) with true.
      cbv iota. by rewrite forallb_contains.
  - unfold encode. cbn [bind]. apply encode_single_part.
    intros k Hk.
    apply (filter_keys_in (fun k => k ∈ s)) in Hk as [_ Hk]. by apply Hnone.
Qed.

Lemma encode_plain_text_any_policy_witness :
  encode AB (str "xy") (AllowedStr (str "all")) = encode_ordinary AB (str "xy").
Proof.
  apply encode_plain_text_any_policy.
  - intros tok Hin.
    repeat (apply elem_of_cons in Hin as [->|Hin]; [reflexivity|]).
    by apply elem_of_nil in Hin.
  - left. left.
Defined.

Lemma startswith_app_refl s b : startswith (s ++ b) s = true.
Proof.
  induction s as [|c s IH]; simpl; [by destruct b|]. by rewrite Z.eqb_refl.
Qed.

Lemma find_unique {A} (P : A -> bool) (l : list A) x :
  x ∈ l -> P x = true -> (forall y, y ∈ l -> P y = true -> y = x) ->
  find P l = Some x.
Proof.
  induction l as [|y l IH]; [by intros ?%elem_of_nil|].
  intros Hin Hx Huniq. simpl. destruct (P y) eqn:Hy.
  - f_equal. apply Huniq; [left | done].
  - apply elem_of_cons in Hin as [->|Hin]; [congruence|].
    apply IH; [done | done |]. intros z Hz. apply Huniq. by right.
Qed.

Lemma split_from_skip toks b : forall u seg,
  split_from toks (u ++ b) (length u) seg = split_from toks b O seg.
Proof.
  induction u as [|c u IH]; intros seg; [done|]. simpl. apply IH.
Qed.

Lemma split_from_first toks tok b : forall a seg,
  tok ∈ toks -> [] ∉ toks ->
  (forall k, k ∈ toks ->
     (forall i, (i < length a)%nat ->
        startswith (drop i (a ++ tok ++ b)) k = false)
     /\ (startswith (tok ++ b) k = true -> k = tok)) ->
  split_from toks (a ++ tok ++ b) O seg
  = (seg ++ a) :: tok :: split_from toks b O [].
Proof.
  intros a seg Htok Hne. revert seg.
  induction a as [|c a IH]; intros seg Hfirst.
  - rewrite app_nil_r. cbn [app].
    assert (tok <> []) as Hne' by (by intros ->).
    assert (first_match toks (tok ++ b) = Some tok) as Hm.
    { unfold first_match. apply find_unique; [done| |].
      - apply andb_true_intro. split; [apply startswith_app_refl|].
        by rewrite bool_decide_eq_false_2.
      - intros k Hk [Hs Hk']%andb_true_iff.
        destruct (Hfirst k Hk) as [_ H2]. by apply H2. }
    destruct tok as [|t tok]; [done|]. cbn [app split_from] in *.
    rewrite Hm.
    replace (length (t :: tok) - 1)%nat with (length tok) by (simpl; lia).
    by rewrite split_from_skip.
  - cbn [app split_from]. rewrite first_match_None.
    + rewrite IH; [by rewrite <- app_assoc|].
      intros k Hk. destruct (Hfirst k Hk) as [H1 H2]. split; [|done].
      intros i Hi. apply (H1 (S i)). simpl. lia.
    + intros k Hk. destruct (Hfirst k Hk) as [H1 _].
      apply (H1 0%nat). simpl. lia.
Qed.

Lemma encode_parts_acc self (special : list (text * Z)) parts : forall acc,
  for_each parts (fun ids part =>
    match dget special part with
    | Some id => Ok (ids ++ [id])
    | None =>
        let! part_ids := encode_ordinary self part in
        Ok (ids ++ part_ids)
    end) acc
  = let! r := for_each parts (fun ids part =>
                match dget special part with
                | Some id => Ok (ids ++ [id])
                | None =>
                    let! part_ids := encode_ordinary self part in
                    Ok (ids ++ part_ids)
                end) [] in
    Ok (acc ++ r).
Proof.
  induction parts as [|p parts IH]; intros acc; cbn [for_each].
  - cbn [bind]. by rewrite app_nil_r.
  - assert (forall y, bind (for_each parts (fun ids part =>
                match dget special part with
                | Some id => Ok (ids ++ [id])
                | None =>
                    let! part_ids := encode_ordinary self part in
                    Ok (ids ++ part_ids)
                end) (acc ++ y)) Ok
              = let! r := for_each parts (fun ids part =>
                  match dget special part with
                  | Some id => Ok (ids ++ [id])
                  | None =>
                      let! part_ids := encode_ordinary self part in
                      Ok (ids ++ part_ids)
                  end) ([] ++ y) in
                Ok (acc ++ r)) as Hstep.
    { intros y. rewrite (IH (acc ++ y)), (IH ([] ++ y)).
      destruct (for_each parts _ []); cbn [bind]; [|done].
      by rewrite app_assoc. }
    destruct (dget special p) as [id|]; cbn [bind].
    + rewrite <- Hstep. by destruct (for_each parts _ (acc ++ [id])).
    + destruct (encode_ordinary self p) as [y|e]; cbn [bind]; [|done].
      rewrite <- Hstep. by destruct (for_each parts _ (acc ++ y)).
Qed.

(** X18.  Under "all", [encode] splits the text at the first occurrence
    of a registered special token: the text before it is encoded as
    ordinary text, the token gives its id, and the rest is encoded by
    [encode] again.  [a] is the text before the token: no registered token
    starts inside it, and the token is the only registered one that starts
    where it does. *)
Theorem encode_at_first_special self (a tok b : text) (id : Z) :
  dget (special_tokens self) tok = Some id ->
  [] ∉ dkeys (special_tokens self) ->
  (forall k, k ∈ dkeys (special_tokens self) ->
     (forall i, (i < length a)%nat ->
        startswith (drop i (a ++ tok ++ b)) k = false)
     /\ (startswith (tok ++ b) k = true -> k = tok)) ->
  encode self (a ++ tok ++ b) (AllowedStr (str "all"))
  = (let! x := encode_ordinary self a in
     let! y := encode self b (AllowedStr (str "all")) in
     Ok (x ++ [id] ++ y)).
Proof.
  intros Hid Hne Hfirst. unfold encode.
  change (bool_decide (str "all" = str "all")) with true. cbn [bind].
  destruct (special_tokens self) as [|e special] eqn:Hsp; [discriminate|].
  rewrite <- Hsp in *. clear Hsp e special.
  unfold re_split at 1.
  rewrite split_from_first; [|by eapply dget_Some_keys | done | done].
  cbn [app for_each].
  assert (dget (special_tokens self) a = None) as ->.
  { destruct (dget (special_tokens self) a) as [j|] eqn:Ha; [|done].
    exfalso. apply dget_Some_keys in Ha.
    destruct (Hfirst a Ha) as [H1 _].
    destruct a as [|c a]; [done|].
    specialize (H1 0%nat ltac:(simpl; lia)).
    pose proof (startswith_app_refl (c :: a) (tok ++ b)) as Hs.
    simpl in H1, Hs. congruence. }
  destruct (encode_ordinary self a) as [x|e]; cbn [bind]; [|done].
  rewrite Hid. cbn [bind].
  rewrite encode_parts_acc. unfold re_split.
  destruct (for_each _ _ []); cbn [bind]; [|done].
  by rewrite <- app_assoc.
Qed.

Lemma encode_at_first_special_witness :
  encode sample_END (str "hi<END>bye<END>") (AllowedStr (str "all"))
  = (let! x := encode_ordinary sample_END (str "hi") in
     let! y := encode sample_END (str "bye<END>") (AllowedStr (str "all")) in
     Ok (x ++ [100256] ++ y)).
Proof.
  apply (encode_at_first_special sample_END (str "hi") END (str "bye<END>")).
  - reflexivity.
  - intros H. apply list_elem_of_singleton in H. discriminate H.
  - intros k Hk. apply list_elem_of_singleton in Hk as ->. split.
    + intros [|[|i]] Hi; [reflexivity | reflexivity | simpl in Hi; lia].
    + reflexivity.
Defined.

(** ** [decode] after [encode] *)

Lemma spells_is_Some V ids parts :
  spells V ids parts -> Forall (fun id => is_Some (dget V id)) ids.
Proof. induction 1; constructor; eauto. Qed.

Lemma encode_ordinary_in_range self txt ids :
  tokenizer_state self ->
  encode_ordinary self txt = Ok ids ->
  Forall (fun id => 0 <= id < 256 + Z.of_nat (length (merges self))) ids.
Proof.
  intros Hstate Henc.
  destruct (tokenizer_state_inv _ Hstate) as (Hco & _).
  destruct (str_encode (concat (findall (compiled_pattern self) txt)))
    as [bs|e] eqn:Hbs.
  - destruct (encode_ordinary_spells self Hco _ _ Hbs)
      as (ids' & parts & Hloop & Hsp & _).
    unfold encode_ordinary in Henc. rewrite (Hloop []) in Henc.
    injection Henc as <-. simpl.
    eapply Forall_impl; [by eapply spells_is_Some|].
    intros id Hid. by apply vocab_lookup_range.
  - apply str_encode_raises in Hbs as [_ Hn].
    destruct (encode_loop self (findall (compiled_pattern self) txt) [])
      as [_ Hraise].
    unfold encode_ordinary in Henc. rewrite (Hraise Hn) in Henc. discriminate.
Qed.

Lemma encode_parts_Forall self (P : Z -> Prop) (special : list (text * Z))
    parts :
  (forall part id, dget special part = Some id -> P id) ->
  (forall part ids, encode_ordinary self part = Ok ids -> Forall P ids) ->
  forall acc ids,
    Forall P acc ->
    for_each parts (fun ids part =>
      match dget special part with
      | Some id => Ok (ids ++ [id])
      | None =>
          let! part_ids := encode_ordinary self part in
          Ok (ids ++ part_ids)
      end) acc = Ok ids ->
    Forall P ids.
Proof.
  intros Hsp Hord. induction parts as [|p parts IH]; intros acc ids Hacc.
  - simpl. by intros [= <-].
  - cbn [for_each]. destruct (dget special p) as [id|] eqn:Hp; cbn [bind].
    + apply IH. apply Forall_app. split; [done|].
      apply Forall_singleton. by eapply Hsp.
    + destruct (encode_ordinary self p) as [y|e] eqn:Hy; cbn [bind];
        [|discriminate].
      apply IH. apply Forall_app. split; [done|]. by eapply Hord.
Qed.

Lemma encode_ids self txt policy ids :
  tokenizer_state self ->
  encode self txt policy = Ok ids ->
  Forall (fun id => 0 <= id < 256 + Z.of_nat (length (merges self))
                    \/ id ∈ map snd (special_tokens self)) ids.
Proof.
  intros Hstate. unfold encode.
  destruct (match policy with AllowedStr _ => _ | _ => _ end)
    as [special|e] eqn:Hpol; cbn [bind]; [|discriminate].
  assert (forall part id, dget special part = Some id ->
                          id ∈ map snd (special_tokens self)) as Hsub.
  { intros part id Hg. apply dget_Some_elem_of in Hg.
    assert ((part, id) ∈ special_tokens self) as Hin.
    { destruct policy as [s|s|]; [| |discriminate].
      - repeat case_bool_decide.
        + by injection Hpol as <-.
        + injection Hpol as <-. by apply elem_of_nil in Hg.
        + destruct (forallb _ _); [|discriminate].
          injection Hpol as <-. by apply elem_of_nil in Hg.
        + discriminate.
      - injection Hpol as <-. by apply list_elem_of_filter in Hg as [_ ?]. }
    apply list_elem_of_fmap. by exists (part, id). }
  assert (forall part ids0, encode_ordinary self part = Ok ids0 ->
            Forall (fun id => 0 <= id < 256 + Z.of_nat (length (merges self))
                              \/ id ∈ map snd (special_tokens self)) ids0)
    as Hord.
  { intros part ids0 H0. eapply Forall_impl;
      [by eapply encode_ordinary_in_range|]. intros; by left. }
  destruct special as [|e special]; [by apply Hord|].
  apply encode_parts_Forall; [|done|constructor].
  intros part id Hg. right. by eapply Hsub.
Qed.

(** X19.  In every state reached by the constructor, [train] and
    [register_special_tokens] in which no special token is the empty
    string, whatever [encode] returns, under any policy, [decode] either
    decodes or raises [NameError] at the id of a special token that is not
    an id of the vocabulary; it never raises [ValueError] on the output of
    [encode]. *)
Theorem decode_of_encode self txt policy ids :
  tokenizer_state self ->
  [] ∉ dkeys (special_tokens self) ->
  encode self txt policy = Ok ids ->
  (exists t, decode self ids = Ok t)
  \/ (decode self ids = Raise NameError
      /\ exists id, id ∈ ids /\ id ∈ map snd (special_tokens self)
                    /\ ~ 0 <= id < 256 + Z.of_nat (length (merges self))).
Proof.
  intros Hstate _ Henc.
  pose proof (encode_ids _ _ _ _ Hstate Henc) as Hids.
  destruct (first_failure
              (fun id => 0 <= id < 256 + Z.of_nat (length (merges self))) ids)
    as [Hall|(pre & id & post & -> & Hpre & Hid)].
  - left. destruct (spells_known (vocab self) ids) as [parts Hparts].
    { eapply Forall_impl; [exact Hall|]. intros x Hx.
      by apply vocab_lookup_range. }
    eexists. by apply (decode_parts self ids parts).
  - right. rewrite (decode_raises_at self pre id post) by done.
    apply Forall_app in Hids as [_ Hids].
    apply Forall_cons in Hids as [[Hin|Hsp] _]; [done|].
    rewrite tokenizer_state_inverse, bool_decide_eq_true_2 by done.
    split; [done|]. exists id. split; [|done].
    apply elem_of_app. right. left.
Qed.

Lemma decode_of_encode_witness :
  (exists t, decode sample_END [104; 105; 100256; 98; 121; 101] = Ok t)
  \/ (decode sample_END [104; 105; 100256; 98; 121; 101] = Raise NameError
      /\ exists id, id ∈ [104; 105; 100256; 98; 121; 101]
                    /\ id ∈ map snd (special_tokens sample_END)
                    /\ ~ 0 <= id < 256 + Z.of_nat (length (merges sample_END))).
Proof.
  apply (decode_of_encode sample_END (str "hi<END>bye") (AllowedStr (str "all"))).
  - apply state_register, sample_state.
  - intros H. apply list_elem_of_singleton in H. discriminate H.
  - vm_compute. reflexivity.
Defined.

(** ** [encode] with a set of allowed special tokens *)






(** ** Decimal numerals *)

Lemma str_String c s : str (String c s) = Z.of_N (N_of_ascii c) :: str s.
Proof. reflexivity. Qed.

Lemma digits_of_uint_acc (d : Decimal.uint) : forall acc : positive,
  digits_value (str (DecimalString.NilEmpty.string_of_uint d)) (Z.pos acc)
  = Some (Z.pos (Pos.of_uint_acc d acc)).
Proof.
  induction d; intros acc;
    cbn [DecimalString.NilEmpty.string_of_uint Pos.of_uint_acc]; [done|..];
    rewrite str_String; cbn [digits_value];
    match goal with
    | |- context [between 48 ?c 57] => change (between 48 c 57) with true
    end; cbv iota; rewrite <- IHd; f_equal; cbn; lia.
Qed.

Lemma digits_of_uint (d : Decimal.uint) :
  digits_value (str (DecimalString.NilEmpty.string_of_uint d)) 0
  = Some (Z.of_N (Pos.of_uint d)).
Proof.
  induction d; cbn [DecimalString.NilEmpty.string_of_uint Pos.of_uint]; [done|..];
    rewrite str_String; cbn [digits_value];
    match goal with
    | |- context [between 48 ?c 57] => change (between 48 c 57) with true
    end; cbv iota; [exact IHd|..];
    match goal with
    | |- digits_value _ ?a = _ =>
        let v := eval compute in a in change a with v
    end; by rewrite digits_of_uint_acc.
Qed.

Lemma string_of_uint_digits (d : Decimal.uint) :
  Forall digit (str (DecimalString.NilEmpty.string_of_uint d)).
Proof.
  induction d; cbn [DecimalString.NilEmpty.string_of_uint]; [constructor|..];
    rewrite str_String; constructor; try done; unfold digit; cbn; lia.
Qed.

Lemma string_of_uint_nonempty (d : Decimal.uint) :
  d <> Decimal.Nil -> str (DecimalString.NilEmpty.string_of_uint d) <> [].
Proof.
  destruct d; cbn [DecimalString.NilEmpty.string_of_uint]; try done.
  all: by rewrite str_String.
Qed.

Lemma digits_value_digit c s acc :
  digit c -> digits_value (c :: s) acc = digits_value s (10 * acc + (c - 48)).
Proof. intros Hc. simpl. by rewrite between_true. Qed.

Lemma py_int_digits s n :
  Forall digit s -> s <> [] -> digits_value s 0 = Some n -> py_int s = Ok n.
Proof.
  intros Hd Hne Hv. unfold py_int. destruct s as [|c s]; [done|].
  apply Forall_cons in Hd as [Hc _]. unfold digit in Hc.
  rewrite (proj2 (Z.eqb_neq c 45)), (proj2 (Z.eqb_neq c 43)) by lia.
  rewrite Hv. f_equal; lia.
Qed.

Lemma py_int_minus s n :
  s <> [] -> digits_value s 0 = Some n -> py_int (45 :: s) = Ok (- n).
Proof.
  intros Hne Hv. unfold py_int. rewrite Z.eqb_refl.
  destruct s as [|c s]; [done|]. rewrite Hv. f_equal; lia.
Qed.

Lemma int_to_str_shape n :
  exists ds, Forall digit ds /\ ds <> []
             /\ int_to_str n = (if n <? 0 then [45] else []) ++ ds
             /\ digits_value ds 0 = Some (Z.abs n).
Proof.
  unfold int_to_str. destruct n as [|p|p]; cbn [Z.to_int Z.ltb Z.compare].
  - exists [48]. repeat split; try done. repeat constructor; unfold digit; lia.
  - exists (str (DecimalString.NilEmpty.string_of_uint (Pos.to_uint p))).
    pose proof (DecimalPos.Unsigned.to_uint_nonnil p) as Hnn.
    split; [apply string_of_uint_digits|].
    split; [by apply string_of_uint_nonempty|].
    split.
    + cbn [DecimalString.NilZero.string_of_int DecimalString.NilZero.string_of_uint].
      by destruct (Pos.to_uint p).
    + by rewrite digits_of_uint, DecimalPos.Unsigned.of_to.
  - exists (str (DecimalString.NilEmpty.string_of_uint (Pos.to_uint p))).
    pose proof (DecimalPos.Unsigned.to_uint_nonnil p) as Hnn.
    split; [apply string_of_uint_digits|].
    split; [by apply string_of_uint_nonempty|].
    split.
    + cbn [DecimalString.NilZero.string_of_int DecimalString.NilZero.string_of_uint].
      rewrite str_String. by destruct (Pos.to_uint p).
    + by rewrite digits_of_uint, DecimalPos.Unsigned.of_to.
Qed.

Lemma py_int_int_to_str n : py_int (int_to_str n) = Ok n.
Proof.
  destruct (int_to_str_shape n) as (ds & Hd & Hne & -> & Hv).
  destruct (n <? 0) eqn:Hn.
  - apply Z.ltb_lt in Hn. cbn [app]. rewrite (py_int_minus _ _ Hne Hv).
    f_equal. lia.
  - apply Z.ltb_ge in Hn. cbn [app]. rewrite (py_int_digits _ _ Hd Hne Hv).
    f_equal. lia.
Qed.

(** ** Lines, [strip] and [split] *)

Lemma digit_plain c : digit c -> plain c.
Proof.
  unfold digit, plain, isspace, between. intros Hc.
  repeat match goal with
    | |- context [?a <=? ?b] =>
        first [rewrite (proj2 (Z.leb_le a b)) by lia
              | rewrite (proj2 (Z.leb_gt a b)) by lia]
    | |- context [?a =? ?b] => rewrite (proj2 (Z.eqb_neq a b)) by lia
    end.
  reflexivity.
Qed.

Lemma plain_not_newline c : plain c -> c <> 10 /\ c <> 13.
Proof. unfold plain. intros Hc. split; intros ->; discriminate Hc. Qed.

Lemma int_to_str_plain n : Forall plain (int_to_str n) /\ int_to_str n <> [].
Proof.
  destruct (int_to_str_shape n) as (ds & Hd & Hne & -> & _). split.
  - apply Forall_app. split.
    + destruct (n <? 0); repeat constructor.
    + eapply Forall_impl; [exact Hd | apply digit_plain].
  - destruct (n <? 0); [done|]. done.
Qed.

Lemma readlines_line l : forall rest cur,
  Forall (fun c => c <> 10 /\ c <> 13) l ->
  readlines (l ++ 10 :: rest) cur false
  = (cur ++ l ++ [10]) :: readlines rest [] false.
Proof.
  induction l as [|c l IH]; intros rest cur Hl.
  - reflexivity.
  - apply Forall_cons in Hl as [[H10 H13] Hl]. cbn [app readlines andb].
    rewrite (proj2 (Z.eqb_neq c 10)), (proj2 (Z.eqb_neq c 13)) by done.
    rewrite IH by done. by rewrite <- app_assoc.
Qed.


Lemma lstrip_app_space s c :
  isspace c = true ->
  lstrip (s ++ [c]) = match lstrip s with [] => [] | r => r ++ [c] end.
Proof.
  intros Hc. induction s as [|x s IH]; simpl; [by rewrite Hc|].
  destruct (isspace x); [exact IH | done].
Qed.

Lemma strip_trailing s c : isspace c = true -> strip (s ++ [c]) = strip s.
Proof.
  intros Hc. unfold strip. rewrite lstrip_app_space by done.
  destruct (lstrip s) as [|x r] eqn:E; [done|].
  rewrite reverse_app. cbn [reverse rev_append app].
  change (reverse [c]) with [c]. cbn [app lstrip]. by rewrite Hc.
Qed.



Lemma split_fields_word w : forall s cur,
  Forall plain w -> split_fields (w ++ s) cur = split_fields s (cur ++ w).
Proof.
  induction w as [|c w IH]; intros s cur Hw.
  - by rewrite app_nil_r.
  - apply Forall_cons in Hw as [Hc Hw]. cbn [app split_fields].
    unfold plain in Hc. rewrite Hc. rewrite IH by done.
    by rewrite <- app_assoc.
Qed.

Lemma split_two x y tail :
  Forall plain x -> x <> [] -> Forall plain y -> y <> [] ->
  tail = [] \/ tail = [10] ->
  split (x ++ 32 :: y ++ tail) = [x; y].
Proof.
  intros Hx Hxne Hy Hyne Htail. unfold split.
  rewrite split_fields_word by done. cbn [app split_fields].
  change (isspace 32) with true. cbv iota.
  destruct x as [|x0 x]; [done|].
  rewrite split_fields_word by done. cbn [app].
  destruct y as [|y0 y]; [done|].
  by destruct Htail as [-> | ->].
Qed.

(** ** The model file *)

Lemma endswith_app s suffix : endswith (s ++ suffix) suffix = true.
Proof.
  unfold endswith. apply bool_decide_eq_true_2.
  rewrite length_app.
  replace (length s + length suffix - length suffix)%nat with (length s) by lia.
  by rewrite drop_app_length.
Qed.

Lemma write_ok out s : Forall scalar s -> write out s = (out ++ s, Ok tt).
Proof.
  intros [bs Hbs]%str_encode_scalar. unfold write. by rewrite Hbs.
Qed.


Lemma write_all_app_ok l1 : forall out l2,
  Forall (Forall scalar) l1 ->
  write_all out (l1 ++ l2) = write_all (out ++ concat l1) l2.
Proof.
  induction l1 as [|s l1 IH]; intros out l2 Hl1.
  - by rewrite app_nil_r.
  - apply Forall_cons in Hl1 as [Hs Hl1]. cbn [app write_all concat].
    rewrite write_ok by done. rewrite IH by done. by rewrite app_assoc.
Qed.

Lemma write_all_ok out ss :
  Forall (Forall scalar) ss -> write_all out ss = (out ++ concat ss, Ok tt).
Proof.
  intros Hss. rewrite <- (app_nil_r ss) at 1. by rewrite write_all_app_ok.
Qed.


Lemma scalar_check l :
  forallb (fun c => (0 <=? c) && (c <? 0xD800)
                    || (0xE000 <=? c) && (c <=? 0x10FFFF)) l = true ->
  Forall scalar l.
Proof.
  intros Hl. apply Forall_forall. intros c Hc%list_elem_of_In.
  rewrite forallb_forall in Hl. specialize (Hl c Hc). unfold scalar.
  apply orb_true_iff in Hl as [Hl|Hl]; apply andb_true_iff in Hl as [H1 H2].
  - left. apply Z.leb_le in H1. apply Z.ltb_lt in H2. lia.
  - right. apply Z.leb_le in H1, H2. lia.
Qed.

Lemma scalar_digit c : 48 <= c <= 57 -> scalar c.
Proof. unfold scalar. lia. Qed.

Lemma int_to_str_scalar n : Forall scalar (int_to_str n).
Proof.
  destruct (int_to_str_shape n) as (ds & Hd & _ & -> & _).
  apply Forall_app. split.
  - destruct (n <? 0); repeat constructor. unfold scalar. lia.
  - eapply Forall_impl; [exact Hd|]. intros c Hc. by apply scalar_digit.
Qed.

Lemma scalar_line s : Forall scalar (s ++ nl) <-> Forall scalar s.
Proof.
  rewrite Forall_app. split; [by intros [? _]|]. intros Hs. split; [done|].
  repeat constructor. unfold scalar. lia.
Qed.

Lemma model_lines_concat self : concat (model_lines self) = model_text self.
Proof.
  unfold model_lines, model_text. cbn [app concat].
  rewrite concat_app, <- !app_assoc. reflexivity.
Qed.

Lemma model_lines_scalar self :
  encodable self <-> Forall (Forall scalar) (model_lines self).
Proof.
  unfold encodable, model_lines. cbn [app].
  rewrite !Forall_cons, !Forall_app.
  assert (Forall scalar nl) as Hnl.
  { repeat constructor; unfold scalar; lia. }
  assert (Forall scalar (str "bpe v1")) as Hv.
  { repeat constructor; unfold scalar; lia. }
  assert (Forall (Forall scalar)
            (map (fun '(idx1, idx2) =>
                    int_to_str idx1 ++ str " " ++ int_to_str idx2 ++ nl)
                 (dkeys (merges self)))) as Hm.
  { apply Forall_fmap, Forall_forall. intros [a b] _. cbn.
    apply Forall_app. split; [apply int_to_str_scalar|].
    apply Forall_cons. split; [unfold scalar; lia|].
    apply scalar_line, int_to_str_scalar. }
  assert (Forall (Forall scalar)
            (map (fun '(special, idx) =>
                    special ++ str " " ++ int_to_str idx ++ nl)
                 (special_tokens self))
          <-> Forall (fun e => Forall scalar e.1) (special_tokens self)) as Hs.
  { rewrite Forall_fmap. apply Forall_iff. intros [tok id]. cbn.
    rewrite Forall_app. split; [by intros [? _]|]. intros Ht. split; [done|].
    apply Forall_cons. split; [unfold scalar; lia|].
    apply scalar_line, int_to_str_scalar. }
  pose proof (int_to_str_scalar (Z.of_nat (length (special_tokens self)))).
  rewrite Hs. tauto.
Qed.

Lemma model_file_ne_vocab_file (file_prefix : text) :
  file_prefix ++ str ".model" <> file_prefix ++ str ".vocab".
Proof. intros Heq%app_inv_head. discriminate Heq. Qed.

Lemma save_model_file render_token self file_prefix fs :
  encodable self ->
  dget (save render_token self file_prefix fs).1 (file_prefix ++ str ".model")
  = Some (model_text self).
Proof.
  intros Henc%model_lines_scalar. unfold save.
  rewrite write_all_ok by done. cbn [app].
  destruct (save_vocab_lines _ _ _ _ _) as [out r]. cbn [fst].
  rewrite dget_dset_ne, dget_dset_eq, model_lines_concat; [done|].
  apply model_file_ne_vocab_file.
Qed.

Lemma merge_line_eq p :
  merge_line p = (int_to_str p.1 ++ 32 :: int_to_str p.2) ++ 10 :: [].
Proof. unfold merge_line. by rewrite <- app_assoc. Qed.

Lemma readlines_merges (keys : list idpair) :
  readlines (concat (map merge_line keys)) [] false = map merge_line keys.
Proof.
  induction keys as [|p keys IH]; [done|].
  cbn [map concat]. rewrite merge_line_eq at 1. rewrite <- app_assoc.
  cbn [app]. rewrite readlines_line.
  - rewrite IH. cbn [app]. by rewrite merge_line_eq.
  - apply Forall_app. split; [|constructor].
    + eapply Forall_impl; [apply int_to_str_plain | apply plain_not_newline].
    + done.
    + eapply Forall_impl; [apply int_to_str_plain | apply plain_not_newline].
Qed.

Lemma split_merge_line p :
  split (merge_line p) = [int_to_str p.1; int_to_str p.2].
Proof.
  unfold merge_line. change (str " " ++ ?x) with (32 :: x).
  apply split_two; try apply int_to_str_plain. by right.
Qed.

Lemma merges_loop (R : list (idpair * Z)) : forall D,
  NoDup (dkeys (D ++ R)) ->
  map snd (D ++ R) = seqZ 256 (Z.of_nat (length (D ++ R))) ->
  for_each (map merge_line (dkeys R)) (fun '(merges, idx) line =>
    match split line with
    | [idx1; idx2] =>
        let! idx1 := py_int idx1 in
        let! idx2 := py_int idx2 in
        Ok (dset merges (idx1, idx2) idx, idx + 1)
    | _ => Raise ValueError
    end) (D, 256 + Z.of_nat (length D))
  = Ok (D ++ R, 256 + Z.of_nat (length (D ++ R))).
Proof.
  induction R as [|[p idx] R IH]; intros D HND Hids.
  - by rewrite app_nil_r.
  - cbn [dkeys map for_each fst].
    rewrite split_merge_line, !py_int_int_to_str. cbn [bind].
    assert (idx = 256 + Z.of_nat (length D)) as Hidx.
    { apply (ids_by_position _ Hids (length D) (p, idx)).
      by rewrite list_lookup_middle. }
    assert (dget D p = None) as Hp.
    { apply dget_None_keys. intros Hin. unfold dkeys in HND.
      rewrite map_app in HND. apply NoDup_app in HND as (_ & HND & _).
      apply (HND p Hin). left. }
    replace (p.1, p.2) with p by by destruct p.
    rewrite dset_new by done. rewrite <- Hidx.
    replace (idx + 1) with (256 + Z.of_nat (length (D ++ [(p, idx)]))).
    2:{ rewrite length_app. simpl. lia. }
    fold (dkeys R). rewrite (IH (D ++ [(p, idx)])); rewrite <- ?app_assoc; done.
Qed.

Lemma model_text_eq self :
  model_text self
  = str "bpe v1" ++ 10 :: pattern self ++ 10
    :: int_to_str (Z.of_nat (length (special_tokens self))) ++ 10
    :: concat (map special_line (special_tokens self))
       ++ concat (map merge_line (dkeys (merges self))).
Proof.
  unfold model_text.
  rewrite (map_ext (fun '(special, idx) =>
                      special ++ str " " ++ int_to_str idx ++ nl) special_line)
    by (by intros [a b]).
  rewrite (map_ext (fun '(idx1, idx2) =>
                      int_to_str idx1 ++ str " " ++ int_to_str idx2 ++ nl)
                   merge_line) by (by intros [a b]).
  change nl with [10]. cbn [app]. reflexivity.
Qed.

Lemma header_lines p n tail :
  Forall (fun c => c <> 10 /\ c <> 13) p ->
  readlines (str "bpe v1" ++ 10 :: p ++ 10 :: int_to_str n ++ 10 :: tail)
            [] false
  = (str "bpe v1" ++ [10]) :: (p ++ [10]) :: (int_to_str n ++ [10])
    :: readlines tail [] false.
Proof.
  intros Hpat.
  rewrite (readlines_line (str "bpe v1")).
  2:{ repeat constructor; discriminate. }
  rewrite readlines_line by done.
  rewrite readlines_line.
  2:{ eapply Forall_impl; [apply int_to_str_plain | apply plain_not_newline]. }
  reflexivity.
Qed.

Lemma model_text_lines self :
  Forall (fun c => c <> 10 /\ c <> 13) (pattern self) ->
  readlines (model_text self) [] false
  = (str "bpe v1" ++ [10]) :: (pattern self ++ [10])
    :: (int_to_str (Z.of_nat (length (special_tokens self))) ++ [10])
    :: readlines (concat (map special_line (special_tokens self))
                  ++ concat (map merge_line (dkeys (merges self)))) [] false.
Proof. intros Hpat. rewrite model_text_eq. by apply header_lines. Qed.


(** ** [save] never returns *)



(** After [register_special_tokens({"\ud800": 300})] the line of the token
    cannot be encoded: [save] stops in the model file, which is left with
    its first three lines, and the vocabulary file is not opened. *)
Lemma save_stops_at_a_surrogate (render_token : bytes -> text) :
  save render_token (register_special_tokens sample [([0xD800], 300)])
       (str "m") []
  = ([(str "m.model", str "bpe v1" ++ nl ++ str "[a-z]+" ++ nl ++ str "1" ++ nl)],
     Raise UnicodeEncodeError).
Proof. vm_compute. reflexivity. Qed.

(** ** [load] after [save] *)

Lemma strip_line s : strip (s ++ [10]) = strip s.
Proof. by apply strip_trailing. Qed.

(** X20.  [load] reads back the model file [save] writes (the file is
    complete when [save] raises its [AttributeError], C2): for a state
    reached by the constructor, [train] and [register_special_tokens]
    that has no special token and whose pattern has no lone surrogate, no
    line break and no white space at its ends, the loaded tokenizer has
    the merge table, the vocabulary and the pattern of the saved one.  It
    keeps its own compiled pattern: [load] does not compile the pattern it
    reads. *)
Theorem load_reads_saved_model (render_token : bytes -> text)
    (self other : Tokenizer) (file_prefix : text) (fs : filesystem) :
  tokenizer_state self ->
  special_tokens self = [] ->
  Forall scalar (pattern self) ->
  Forall (fun c => c <> 10 /\ c <> 13) (pattern self) ->
  strip (pattern self) = pattern self ->
  load other (file_prefix ++ str ".model")
       (save render_token self file_prefix fs).1
  = ({| merges := merges self; pattern := pattern self;
        special_tokens := []; vocab := vocab self;
        compiled_pattern := compiled_pattern other;
        inverse_special_tokens := inverse_special_tokens other |}, Ok tt).
Proof.
  intros Hstate Hsp Hsc Hnl Hstrip.
  assert (Henc : encodable self).
  { split; [done|]. rewrite Hsp. constructor. }
  destruct (tokenizer_state_well_formed _ Hstate)
    as (HND & Hids & _ & _ & Hbuild).
  pose proof (model_text_lines self Hnl) as Hlines.
  rewrite Hsp in Hlines. cbn [map concat app] in Hlines.
  rewrite readlines_merges in Hlines.
  unfold load. rewrite endswith_app. cbn [negb].
  rewrite save_model_file by done. rewrite Hlines. cbn [readline].
  rewrite !strip_line, Hstrip.
  change (strip (str "bpe v1")) with (str "bpe v1").
  rewrite bool_decide_eq_true_2 by done. cbn [negb].
  change (strip (int_to_str (Z.of_nat (length (@nil (text * Z))))))
    with (str "0").
  change (py_int (str "0")) with (Ok 0). cbn [bind Z.to_nat seq for_each].
  pose proof (merges_loop (merges self) [] HND Hids) as Hloop.
  cbn [app length] in Hloop. change (256 + Z.of_nat 0) with 256 in Hloop.
  change (Z.to_nat 0) with 0%nat. cbn [seq for_each bind].
  rewrite Hloop. cbn [bind].
  rewrite Hbuild. reflexivity.
Qed.

Lemma load_reads_saved_model_witness :
  load sample (str "m.model") (save (fun _ => []) trained_sample (str "m") []).1
  = ({| merges := merges trained_sample; pattern := pattern trained_sample;
        special_tokens := []; vocab := vocab trained_sample;
        compiled_pattern := compiled_pattern sample;
        inverse_special_tokens := inverse_special_tokens sample |}, Ok tt).
Proof.
  apply (load_reads_saved_model (fun _ => []) trained_sample sample (str "m") []).
  - exact trained_sample_state.
  - reflexivity.
  - apply scalar_check. vm_compute. reflexivity.
  - vm_compute. repeat constructor; discriminate.
  - vm_compute. reflexivity.
Defined.




(** ** What [load] leaves alone *)

Lemma for_each_raises {A S} (body : S -> A -> result S) (P : exn -> Prop) l :
  (forall acc x e, body acc x = Raise e -> P e) ->
  forall acc e, for_each l body acc = Raise e -> P e.
Proof.
  intros Hbody. induction l as [|x l IH]; intros acc e; simpl; [discriminate|].
  destruct (body acc x) as [acc'|e'] eqn:Hx; simpl.
  - apply IH.
  - intros [= <-]. by eapply Hbody.
Qed.

Lemma build_vocab_raises M e : _build_vocab M [] = Raise e -> e = KeyError.
Proof.
  unfold _build_vocab. cbn [for_each]. rewrite bind_Ok.
  apply (for_each_raises _ (fun e => e = KeyError)).
  intros acc [[p0 p1] idx] e'. unfold dindex.
  destruct (dget acc p0); cbn [bind]; [|congruence].
  destruct (dget acc p1); cbn [bind]; [discriminate|congruence].
Qed.

(** X22.  What [load] leaves alone, on a file whose numbers are within
    the part of [int] that is modelled (the outcome is not [Unmodelled]):
    never the compiled pattern nor the inverse table of special tokens;
    when it fails, the vocabulary; and, unless the failure is the
    [KeyError] of [_build_vocab], the merge table and the special tokens.
    (On that [KeyError] the new merge table is already assigned, next to
    the old vocabulary.)  When it returns, there is no special token and
    the vocabulary is built from the merge table. *)
Theorem load_frame self model_file fs :
  let self' := (load self model_file fs).1 in
  let r := (load self model_file fs).2 in
  r <> Raise Unmodelled ->
  compiled_pattern self' = compiled_pattern self
  /\ inverse_special_tokens self' = inverse_special_tokens self
  /\ (r = Ok tt ->
      special_tokens self' = []
      /\ _build_vocab (merges self') [] = Ok (vocab self'))
  /\ (r <> Ok tt ->
      vocab self' = vocab self
      /\ ((merges self' = merges self
           /\ special_tokens self' = special_tokens self)
          \/ (r = Raise KeyError /\ special_tokens self' = []))).
Proof.
  assert (forall (e : exn) (P : Prop),
            @Raise unit e <> Raise Unmodelled ->
            compiled_pattern self = compiled_pattern self
            /\ inverse_special_tokens self = inverse_special_tokens self
            /\ (@Raise unit e = Ok tt -> P)
            /\ (@Raise unit e <> Ok tt ->
                vocab self = vocab self
                /\ ((merges self = merges self
                     /\ special_tokens self = special_tokens self)
                    \/ (@Raise unit e = Raise KeyError
                        /\ special_tokens self = [])))) as Hfail.
  { intros e P _. split; [done|]. split; [done|]. split; [discriminate|].
    intros _. split; [done|]. by left. }
  unfold load.
  destruct (negb (endswith _ _)); [apply Hfail|].
  destruct (dget fs model_file) as [content|]; [|apply Hfail].
  destruct (readline _) as [line1 f1].
  destruct (negb (bool_decide _)); [apply Hfail|].
  destruct (readline f1) as [line2 f2].
  destruct (readline f2) as [line3 f3].
  destruct (bind (py_int (strip line3)) _) as [M|e]; [|apply Hfail].
  destruct (_build_vocab M []) as [V|e] eqn:HV; cbn; intros _.
  - split; [done|]. split; [done|]. split; [done|]. by intros [].
  - apply build_vocab_raises in HV as ->.
    split; [done|]. split; [done|]. split; [discriminate|].
    intros _. split; [done|]. by right.
Qed.

Lemma load_frame_witness :
  (load sample (str "m.model") broken_model).2 = Raise KeyError
  /\ vocab (load sample (str "m.model") broken_model).1 = vocab sample
  /\ merges (load sample (str "m.model") broken_model).1 = [((256, 3), 256)].
Proof.
  destruct (load_frame sample (str "m.model") broken_model)
    as (_ & _ & _ & Hfail); [vm_compute; discriminate|].
  destruct Hfail as [Hv _]; [vm_compute; discriminate|].
  split; [vm_compute; reflexivity|]. split; [exact Hv|].
  vm_compute. reflexivity.
Defined.

(** ** The tokenizer [load] leaves *)

Lemma dset_cases {K V} `{EqDecision K} (d : list (K * V)) k v :
  (dget d k = None /\ dset d k v = d ++ [(k, v)])
  \/ (exists d1 v' d2, d = d1 ++ (k, v') :: d2
                       /\ dset d k v = d1 ++ (k, v) :: d2).
Proof.
  induction d as [|[k' v'] d IH]; simpl; [by left|].
  case_decide as Hk.
  - subst k'. right. by exists [], v', d.
  - destruct IH as [[Hnone ->]|(d1 & v0 & d2 & -> & ->)].
    + by left.
    + right. by exists ((k', v') :: d1), v0, d2.
Qed.

Lemma loaded_inv_step M idx p :
  loaded_inv M idx -> loaded_inv (dset M p idx) (idx + 1).
Proof.
  intros (HNDk & HNDv & Hrange & Hidx).
  assert (Hfresh : idx ∉ map snd M).
  { intros Hin. apply list_elem_of_fmap in Hin as (e & He & Hin).
    rewrite Forall_forall in Hrange. specialize (Hrange e Hin). lia. }
  assert (Hweak : Forall (fun e : idpair * Z => 256 <= e.2 < idx + 1) M).
  { eapply Forall_impl; [exact Hrange|]. intros e He. simpl in *. lia. }
  split; [|split; [|split; [|lia]]].
  - rewrite dkeys_dset. destruct (dmem M p) eqn:Hp; [done|].
    apply NoDup_app. split; [done|]. split; [|apply NoDup_singleton].
    intros q Hq ->%list_elem_of_singleton.
    unfold dmem in Hp. destruct (dget M p) eqn:E; [done|].
    by apply dget_None_keys in E.
  - destruct (dset_cases M p idx) as [[_ ->]|(d1 & v' & d2 & -> & ->)].
    + rewrite map_app. apply NoDup_app. split; [done|].
      split; [|apply NoDup_singleton].
      intros x Hx ->%list_elem_of_singleton. done.
    + rewrite map_app in *. cbn [map snd] in *.
      apply NoDup_app in HNDv as (H1 & H2 & H3).
      apply NoDup_cons in H3 as [H3 H4].
      apply NoDup_app. split; [done|]. split.
      * intros x Hx [->|Hin]%elem_of_cons.
        -- apply Hfresh. apply elem_of_app. by left.
        -- apply (H2 x Hx). by right.
      * apply NoDup_cons. split; [|done].
        intros Hin. apply Hfresh. apply elem_of_app. right. by right.
  - destruct (dset_cases M p idx) as [[_ ->]|(d1 & v' & d2 & -> & ->)].
    + apply Forall_app. split; [done|]. apply Forall_singleton. simpl. lia.
    + apply Forall_app in Hweak as [H1 H2].
      apply Forall_cons in H2 as [_ H2].
      apply Forall_app. split; [done|]. apply Forall_cons. split; [|done].
      simpl. lia.
Qed.

Lemma load_loop_inv lines : forall M idx M' idx',
  loaded_inv M idx ->
  for_each lines (fun '(merges, idx) line =>
    match split line with
    | [idx1; idx2] =>
        let! idx1 := py_int idx1 in
        let! idx2 := py_int idx2 in
        Ok (dset merges (idx1, idx2) idx, idx + 1)
    | _ => Raise ValueError
    end) (M, idx) = Ok (M', idx') ->
  loaded_inv M' idx'.
Proof.
  induction lines as [|line lines IH]; intros M idx M' idx' Hinv.
  - simpl. by intros [= <- <-].
  - cbn [for_each].
    destruct (split line) as [|s1 [|s2 [|? ?]]]; try discriminate.
    destruct (py_int s1) as [i1|]; [|discriminate].
    destruct (py_int s2) as [i2|]; [|discriminate]. cbn [bind].
    apply IH. by apply loaded_inv_step.
Qed.

Lemma build_coherent (R : list (idpair * Z)) : forall D V0 V,
  NoDup (dkeys (D ++ R)) -> NoDup (map snd (D ++ R)) ->
  Forall (fun e => 256 <= e.2) (D ++ R) ->
  coherent D V0 ->
  (forall k, is_Some (dget V0 k) -> byte k \/ k ∈ map snd D) ->
  for_each R (fun vocab '((p0, p1), idx) =>
    let! v0 := dindex vocab p0 in
    let! v1 := dindex vocab p1 in
    Ok (dset vocab idx (v0 ++ v1))) V0 = Ok V ->
  coherent (D ++ R) V.
Proof.
  induction R as [|[[p0 p1] idx] R IH]; intros D V0 V HNDk HNDv Hge Hco Hkeys.
  - simpl. intros [= <-]. by rewrite app_nil_r.
  - cbn [for_each]. unfold dindex.
    destruct (dget V0 p0) as [v0|] eqn:H0; [|discriminate].
    destruct (dget V0 p1) as [v1|] eqn:H1; [|discriminate]. cbn [bind].
    assert (Hidx : 256 <= idx).
    { rewrite Forall_app, Forall_cons in Hge. by destruct Hge as (_ & ? & _). }
    assert (Hfresh : dget V0 idx = None).
    { destruct (dget V0 idx) eqn:E; [|done]. exfalso.
      destruct (Hkeys idx) as [Hb|Hin]; [by rewrite E|unfold byte in Hb; lia|].
      rewrite map_app in HNDv. apply NoDup_app in HNDv as (_ & HNDv & _).
      apply (HNDv idx Hin). left. }
    assert (Hp : dget D (p0, p1) = None).
    { apply dget_None_keys. intros Hin. unfold dkeys in HNDk.
      rewrite map_app in HNDk. apply NoDup_app in HNDk as (_ & HNDk & _).
      apply (HNDk _ Hin). left. }
    pose proof (coherent_step D V0 (p0, p1) idx v0 v1 Hco Hfresh H0 H1) as Hco'.
    rewrite dset_new in Hco' by done.
    replace (D ++ ((p0, p1), idx) :: R) with ((D ++ [((p0, p1), idx)]) ++ R)
      in * by (by rewrite <- app_assoc).
    apply IH; try done.
    intros k. rewrite dget_dset. case_decide as Hk.
    + intros _. right. subst k. rewrite map_app. apply elem_of_app.
      right. left.
    + intros Hs. destruct (Hkeys k Hs) as [?|Hin]; [by left|].
      right. rewrite map_app. apply elem_of_app. by left.
Qed.

Lemma load_Ok self model_file fs self' :
  load self model_file fs = (self', Ok tt) ->
  coherent (merges self') (vocab self').
Proof.
  unfold load.
  destruct (negb (endswith _ _)); [discriminate|].
  destruct (dget fs model_file) as [content|]; [|discriminate].
  destruct (readline _) as [line1 f1].
  destruct (negb (bool_decide _)); [discriminate|].
  destruct (readline f1) as [line2 f2].
  destruct (readline f2) as [line3 f3].
  destruct (py_int (strip line3)) as [n|]; [|discriminate]. cbn [bind].
  destruct (for_each (seq _ _) _ f3) as [f4|]; [|discriminate]. cbn [bind].
  destruct (for_each f4 _ _) as [[M idx]|] eqn:Hloop; [|discriminate].
  cbn [bind].
  destruct (_build_vocab M []) as [V|] eqn:HV; [|discriminate].
  intros [= <-]. cbn [merges vocab].
  apply load_loop_inv in Hloop as (HNDk & HNDv & Hrange & _).
  2:{ split; [constructor|]. split; [constructor|]. split; [constructor|lia]. }
  unfold _build_vocab in HV. cbn [for_each] in HV. rewrite bind_Ok in HV.
  apply (build_coherent M [] byte_vocab V); try done.
  - eapply Forall_impl; [exact Hrange|]. intros e He. simpl in *. lia.
  - apply coherent_byte_vocab.
  - intros k [b Hb]. left. rewrite byte_vocab_get in Hb.
    by case_bool_decide.
Qed.

(** X23.  Whatever model file [load] accepts, the tokenizer it leaves
    decodes what it encodes: for a text of scalar values that the compiled
    pattern partitions, [decode(encode_ordinary(text))] is the text. *)
Theorem load_then_roundtrip self model_file fs self' txt :
  load self model_file fs = (self', Ok tt) ->
  Forall scalar txt ->
  concat (findall (compiled_pattern self') txt) = txt ->
  (let! ids := encode_ordinary self' txt in decode self' ids) = Ok txt.
Proof.
  intros Hload Hsc Hcat.
  destruct (roundtrip_coherent self' txt) as (ids & -> & Hdec); try done.
  by eapply load_Ok.
Qed.

Lemma load_then_roundtrip_witness :
  exists self',
    load sample (str "m.model") handwritten_model = (self', Ok tt)
    /\ merges self' = [((104, 105), 256); ((256, 33), 257)]
    /\ (let! ids := encode_ordinary self' (str "hi") in decode self' ids)
       = Ok (str "hi").
Proof.
  eexists. split; [vm_compute; reflexivity|]. split; [reflexivity|].
  eapply (load_then_roundtrip sample (str "m.model") handwritten_model).
  - vm_compute. reflexivity.
  - repeat constructor; unfold scalar; lia.
  - vm_compute. reflexivity.
Defined.

(** ** The vocabulary after the public operations *)








(** A [load] that fails in [_build_vocab] is outside these states: on a
    model file whose one merge line is "256 3" it raises [KeyError] with
    the new merge table assigned and the old vocabulary kept, so the id of
    the merge is not in the vocabulary. *)
Lemma failed_load_leaves_old_vocab :
  (load sample (str "m.model") broken_model).2 = Raise KeyError
  /\ merges (load sample (str "m.model") broken_model).1 = [((256, 3), 256)]
  /\ vocab (load sample (str "m.model") broken_model).1 = vocab sample
  /\ length (vocab (load sample (str "m.model") broken_model).1) = 256%nat
  /\ dget (vocab (load sample (str "m.model") broken_model).1) 256 = None
  /\ _build_vocab (merges (load sample (str "m.model") broken_model).1) []
     = Raise KeyError.
Proof. repeat split; vm_compute; reflexivity. Qed.

(** ** [render_token] *)

Lemma hex_string_chars (d : Hexadecimal.uint) :
  Forall (fun c => c ∈ str "0123456789abcdef")
         (str (HexadecimalString.NilEmpty.string_of_uint d)).
Proof.
  induction d; cbn [HexadecimalString.NilEmpty.string_of_uint];
    [constructor|..]; rewrite str_String; constructor; try done;
    vm_compute; repeat (first [left | right]).
Qed.

Lemma format_04x_chars n :
  Forall (fun c => c ∈ str "0123456789abcdef") (format_04x n).
Proof.
  unfold format_04x. apply Forall_app. split.
  - apply Forall_replicate. vm_compute. left.
  - unfold HexadecimalString.NilZero.string_of_uint.
    destruct (N.to_hex_uint _) eqn:E; try (rewrite <- E; apply hex_string_chars).
    vm_compute. repeat constructor.
Qed.

(** X24.  [render_token] returns a text without control characters,
    whatever the bytes, provided the characters of the escape itself (the
    backslash, [u] and the hexadecimal digits) are not control characters
    in the category table. *)
Theorem render_token_has_no_control_character (category : Z -> text)
    (t : bytes) :
  Forall (fun c => is_control category c = false)
         (str "\u" ++ str "0123456789abcdef") ->
  Forall (fun c => is_control category c = false) (render_token category t).
Proof.
  intros Htable. unfold render_token, replace_control_characters.
  induction (bytes_decode t) as [|c s IH]; [constructor|].
  cbn [map concat]. apply Forall_app. split; [|exact IH].
  destruct (is_control category c) eqn:Hc; cbn [negb].
  - apply Forall_app. split.
    + apply Forall_cons in Htable as [H1 Htable].
      apply Forall_cons in Htable as [H2 _]. by repeat constructor.
    + eapply Forall_impl; [apply format_04x_chars|]. intros x Hx. cbv beta.
      rewrite Forall_forall in Htable. apply Htable.
      do 2 right. exact Hx.
  - by repeat constructor.
Qed.

Lemma render_token_has_no_control_character_witness :
  render_token ascii_category [104; 10; 105] = str "h\u" ++ str "000ai"
  /\ Forall (fun c => is_control ascii_category c = false)
            (render_token ascii_category [104; 10; 105]).
Proof.
  split; [vm_compute; reflexivity|].
  apply render_token_has_no_control_character.
  vm_compute. repeat constructor.
Defined.

(** X25.  [render_token] returns an ASCII token without control
    characters as it is. *)
Theorem render_token_printable_ascii (category : Z -> text) (t : bytes) :
  Forall (fun b => 0 <= b < 128 /\ is_control category b = false) t ->
  render_token category t = t.
Proof.
  intros Ht. unfold render_token, replace_control_characters.
  induction Ht as [|b t [Hb Hc] Ht IH]; [done|].
  rewrite decode1 by lia. cbn [map concat]. rewrite Hc. cbn [negb app].
  by rewrite IH.
Qed.

Lemma render_token_printable_ascii_witness :
  render_token ascii_category (str "hello") = str "hello".
Proof.
  apply render_token_printable_ascii.
  vm_compute. repeat constructor; congruence.
Defined.

(** ** The GPT-2 pattern, on a sample *)

Lemma gpt2_roundtrip_witness :
  (let! ids := encode_ordinary trained_sample (str "Hello, world 42!") in
   decode trained_sample ids) = Ok (str "Hello, world 42!").
Proof.
  apply (gpt2_roundtrip ascii_tables trained_sample).
  - exact trained_sample_state.
  - reflexivity.
  - repeat constructor; unfold scalar; lia.
Defined.
